(** * AudioStreamer: jitter-tolerant PCM16 playback scheduling

    A shallow embedding of the [AudioStreamer] class (chunk decoder,
    playback queue, scheduler, playback graph bookkeeping, ambient pad and
    lifecycle operations) together with the part of the host (Web Audio
    nodes, timers, console, the [onComplete] callback) that the class
    talks to.

    Conventions of the embedding:
    - the audio clock [context.currentTime] advances only between tasks,
      so each operation reads one value of it, its argument [now];
    - times and sample values are exact rationals.  A decoded sample
      [int16 / 32768] has at most 16 significant bits, so the value
      written to the [Float32Array] is that rational exactly; for times
      only the order and the additions the code performs are used;
    - objects created by [context.createBufferSource()] live in a heap
      [nodes] indexed by creation order, and a closure installed as
      [onended] is represented by its kind (it captures only its own
      node);
    - the registered-worklet taps of [scheduleNextBuffer] only add graph
      connections and touch none of the fields below; they are left out.

    Three further parts of the application follow the streamer, each with
    a state of its own: the worklet registry [addWorklet] works on, the
    tool store, and the conversation log with the console handlers that
    feed it. *)

From Stdlib Require Import ZArith QArith Qminmax Lia Lqa List.
From Stdlib.Strings Require Import Byte.
From stdpp Require Import base gmap list strings pretty.
Import ListNotations.

#[local] Set Warnings "-clear-no-such-hyp".

(** ** Typed arrays and the chunk decoder *)

(** A [Uint8Array] is a window of [length] bytes starting at [byteOffset]
    into an [ArrayBuffer]. *)
Module Uint8Array.
Record t := mk { buffer : list byte; byteOffset : nat; length : nat }.

Definition wf (a : t) : Prop :=
  byteOffset a + length a <= List.length (buffer a).

(** The elements [a[0] .. a[length-1]] seen through the window. *)
Definition bytes (a : t) : list byte :=
  take (length a) (drop (byteOffset a) (buffer a)).

(** [new Uint8Array(arrayBuffer)]: the window covers the whole buffer. *)
Definition of_buffer (b : list byte) : t := mk b 0 (List.length b).

(** [a.subarray(begin)], for [begin <= a.length]. *)
Definition subarray (a : t) (begin : nat) : t :=
  mk (buffer a) (byteOffset a + begin) (length a - begin).
End Uint8Array.

(** Two's-complement reading of two bytes, low byte first. *)
Definition int16_of_bytes (lo hi : byte) : Z :=
  let u := (Z.of_N (Byte.to_N lo) + 256 * Z.of_N (Byte.to_N hi))%Z in
  if (u <? 32768)%Z then u else (u - 65536)%Z.

Module DataView.
(** [new DataView(buffer).getInt16(byteOffset, true)]; [None] stands
    for the [RangeError] raised when the two bytes are not both inside
    the buffer. *)
Definition getInt16 (view : list byte) (byteOffset : nat) : option Z :=
  match view !! byteOffset, view !! (byteOffset + 1) with
  | Some lo, Some hi => Some (int16_of_bytes lo hi)
  | _, _ => None
  end.
End DataView.

(** A [Float32Array]; every value stored below is exactly representable. *)
Abbreviation Float32Array := (list Q).

(** Body of the decoding loop at index [i].  The accumulator carries the
    array being filled and the number of [console.error] calls made.  A
    store outside the array is ignored, as for every typed array. *)
Definition decodeStep (dataView : list byte) (i : nat)
    (acc : Float32Array * nat) : Float32Array * nat :=
  match DataView.getInt16 dataView (i * 2) with
  | Some int16 => (<[ i := int16 # 32768 ]> (fst acc), snd acc)
  | None => (fst acc, S (snd acc))
  end.

(** [for (let i = 0; i < chunk.length / 2; i++)], where [/] is the real
    division: the guard is [2 * i < chunk.length]. *)
Fixpoint decodeLoop (fuel : nat) (chunk : Uint8Array.t) (dataView : list byte)
    (i : nat) (acc : Float32Array * nat) : Float32Array * nat :=
  match fuel with
  | O => acc
  | S fuel' =>
      if i * 2 <? Uint8Array.length chunk
      then decodeLoop fuel' chunk dataView (S i) (decodeStep dataView i acc)
      else acc
  end.

(** [_processPCM16Chunk].  [new Float32Array(chunk.length / 2)] converts
    its argument with ToIndex, which truncates: the array has
    [floor (chunk.length / 2)] zeros.  The [DataView] is built on
    [chunk.buffer], the whole underlying buffer. *)
Definition _processPCM16Chunk (chunk : Uint8Array.t) (console : nat)
    : Float32Array * nat :=
  let float32Array := replicate (Uint8Array.length chunk / 2) 0%Q in
  let dataView := Uint8Array.buffer chunk in
  decodeLoop (S (Uint8Array.length chunk)) chunk dataView 0
    (float32Array, console).

(** The reference decoding the specification speaks of: consecutive
    little-endian signed 16-bit integers, each divided by 32768. *)
Fixpoint pcm16_to_float (bs : list byte) : list Q :=
  match bs with
  | lo :: hi :: rest => (int16_of_bytes lo hi # 32768) :: pcm16_to_float rest
  | _ => []
  end.

(** ** Configuration constants *)

Definition sampleRate : positive := 24000.
Definition bufferSize : nat := Eval vm_compute in (768 * 10)%nat.
Definition initialBufferTime : Q := 1 # 10.
Definition SCHEDULE_AHEAD_TIME : Q := 2 # 10.

(** [audioBuffer.duration] of a buffer made from [audioData]. *)
Definition duration (audioData : Float32Array) : Q :=
  Z.of_nat (length audioData) # sampleRate.

(** The [while] loop of [addPCM16] cutting full blocks of [size] samples
    ([this.bufferSize]) off the front. *)
Fixpoint splitLoop (fuel size : nat) (processingBuffer : Float32Array)
    (audioQueue : list Float32Array) : Float32Array * list Float32Array :=
  match fuel with
  | O => (processingBuffer, audioQueue)
  | S fuel' =>
      if size <=? length processingBuffer
      then splitLoop fuel' size (drop size processingBuffer)
             (audioQueue ++ [take size processingBuffer])
      else (processingBuffer, audioQueue)
  end.

(** Lines 199-206 of [addPCM16]: full blocks, then the non-empty rest. *)
Definition enqueue (processingBuffer : Float32Array)
    (audioQueue : list Float32Array) : list Float32Array :=
  let '(rest, queue) :=
    splitLoop (length processingBuffer) bufferSize processingBuffer
      audioQueue in
  if 0 <? length rest then queue ++ [rest] else queue.

(** ** Web Audio nodes *)

(** The three values the [onended] property of a source takes. *)
Inductive Handler :=
| HNull          (* null *)
| HEndOfQueue    (* the closure installed on the end-of-queue source *)
| HCleanup.      (* the closure installed on every other source *)

Record AudioBufferSourceNode := mkSource {
  src_buffer : Float32Array;
  src_onended : Handler;
  src_start : option Q;       (* argument of [start], once called *)
  src_stopped : bool          (* [stop] has been called successfully *)
}.

Record GainNode := mkGain {
  gain_value : Q;
  gain_ramps : list (Q * Q);  (* linearRampToValueAtTime (value, endTime) *)
  gain_connected : bool
}.

Inductive OscillatorType := sine | triangle.

Record OscillatorNode := mkOsc {
  osc_type : OscillatorType;
  osc_frequency : Q;
  osc_detune : Q
}.

Record BiquadFilterNode := mkFilter {
  filter_frequency : Q;
  filter_Q : Q
}.

Definition set_onended (h : Handler) (n : AudioBufferSourceNode) :=
  mkSource (src_buffer n) h (src_start n) (src_stopped n).

(** [source.stop()] inside the [try] of [stop]: it raises, and changes
    nothing, on a source that was never started. *)
Definition stopSource (n : AudioBufferSourceNode) : AudioBufferSourceNode :=
  match src_start n with
  | Some _ => mkSource (src_buffer n) (src_onended n) (src_start n) true
  | None => n
  end.

(** ** The streamer and its host *)

(** The first twelve fields are the fields of the class.  The others are
    the host: the heap of source nodes and its allocation counter, the
    live [setInterval] timers and the next timer id, the number of pending
    one-shot [setTimeout] callbacks (scheduling passes, pad teardowns),
    the number of times [onComplete] has been invoked and the number of
    [console.error] calls. *)
Record State := mkState {
  audioQueue : list Float32Array;
  isPlaying : bool;
  isStreamComplete : bool;
  checkInterval : option positive;
  scheduledTime : Q;
  gainNode : GainNode;
  activeSources : gset nat;
  endOfQueueAudioSource : option nat;
  keepAliveOscillator : option OscillatorNode;
  padGain : option GainNode;
  padOscillators : list OscillatorNode;
  padFilter : option BiquadFilterNode;
  nodes : gmap nat AudioBufferSourceNode;
  nextNode : nat;
  intervals : gset positive;
  nextTimer : positive;
  timeouts : nat;
  padTimeouts : nat;
  completions : nat;
  console : nat
}.

Definition set_audioQueue (v : list Float32Array) (s : State) : State :=
  mkState v (isPlaying s) (isStreamComplete s) (checkInterval s)
    (scheduledTime s) (gainNode s) (activeSources s) (endOfQueueAudioSource s)
    (keepAliveOscillator s) (padGain s) (padOscillators s) (padFilter s)
    (nodes s) (nextNode s) (intervals s) (nextTimer s) (timeouts s)
    (padTimeouts s) (completions s) (console s).
Definition set_isPlaying (v : bool) (s : State) : State :=
  mkState (audioQueue s) v (isStreamComplete s) (checkInterval s)
    (scheduledTime s) (gainNode s) (activeSources s) (endOfQueueAudioSource s)
    (keepAliveOscillator s) (padGain s) (padOscillators s) (padFilter s)
    (nodes s) (nextNode s) (intervals s) (nextTimer s) (timeouts s)
    (padTimeouts s) (completions s) (console s).
Definition set_isStreamComplete (v : bool) (s : State) : State :=
  mkState (audioQueue s) (isPlaying s) v (checkInterval s) (scheduledTime s)
    (gainNode s) (activeSources s) (endOfQueueAudioSource s)
    (keepAliveOscillator s) (padGain s) (padOscillators s) (padFilter s)
    (nodes s) (nextNode s) (intervals s) (nextTimer s) (timeouts s)
    (padTimeouts s) (completions s) (console s).
Definition set_checkInterval (v : option positive) (s : State) : State :=
  mkState (audioQueue s) (isPlaying s) (isStreamComplete s) v (scheduledTime
    s) (gainNode s) (activeSources s) (endOfQueueAudioSource s)
    (keepAliveOscillator s) (padGain s) (padOscillators s) (padFilter s)
    (nodes s) (nextNode s) (intervals s) (nextTimer s) (timeouts s)
    (padTimeouts s) (completions s) (console s).
Definition set_scheduledTime (v : Q) (s : State) : State :=
  mkState (audioQueue s) (isPlaying s) (isStreamComplete s) (checkInterval s)
    v (gainNode s) (activeSources s) (endOfQueueAudioSource s)
    (keepAliveOscillator s) (padGain s) (padOscillators s) (padFilter s)
    (nodes s) (nextNode s) (intervals s) (nextTimer s) (timeouts s)
    (padTimeouts s) (completions s) (console s).
Definition set_gainNode (v : GainNode) (s : State) : State :=
  mkState (audioQueue s) (isPlaying s) (isStreamComplete s) (checkInterval s)
    (scheduledTime s) v (activeSources s) (endOfQueueAudioSource s)
    (keepAliveOscillator s) (padGain s) (padOscillators s) (padFilter s)
    (nodes s) (nextNode s) (intervals s) (nextTimer s) (timeouts s)
    (padTimeouts s) (completions s) (console s).
Definition set_activeSources (v : gset nat) (s : State) : State :=
  mkState (audioQueue s) (isPlaying s) (isStreamComplete s) (checkInterval s)
    (scheduledTime s) (gainNode s) v (endOfQueueAudioSource s)
    (keepAliveOscillator s) (padGain s) (padOscillators s) (padFilter s)
    (nodes s) (nextNode s) (intervals s) (nextTimer s) (timeouts s)
    (padTimeouts s) (completions s) (console s).
Definition set_endOfQueueAudioSource (v : option nat) (s : State) : State :=
  mkState (audioQueue s) (isPlaying s) (isStreamComplete s) (checkInterval s)
    (scheduledTime s) (gainNode s) (activeSources s) v (keepAliveOscillator s)
    (padGain s) (padOscillators s) (padFilter s) (nodes s) (nextNode s)
    (intervals s) (nextTimer s) (timeouts s) (padTimeouts s) (completions s)
    (console s).
Definition set_keepAliveOscillator (v : option OscillatorNode) (s : State) : State :=
  mkState (audioQueue s) (isPlaying s) (isStreamComplete s) (checkInterval s)
    (scheduledTime s) (gainNode s) (activeSources s) (endOfQueueAudioSource s)
    v (padGain s) (padOscillators s) (padFilter s) (nodes s) (nextNode s)
    (intervals s) (nextTimer s) (timeouts s) (padTimeouts s) (completions s)
    (console s).
Definition set_padGain (v : option GainNode) (s : State) : State :=
  mkState (audioQueue s) (isPlaying s) (isStreamComplete s) (checkInterval s)
    (scheduledTime s) (gainNode s) (activeSources s) (endOfQueueAudioSource s)
    (keepAliveOscillator s) v (padOscillators s) (padFilter s) (nodes s)
    (nextNode s) (intervals s) (nextTimer s) (timeouts s) (padTimeouts s)
    (completions s) (console s).
Definition set_padOscillators (v : list OscillatorNode) (s : State) : State :=
  mkState (audioQueue s) (isPlaying s) (isStreamComplete s) (checkInterval s)
    (scheduledTime s) (gainNode s) (activeSources s) (endOfQueueAudioSource s)
    (keepAliveOscillator s) (padGain s) v (padFilter s) (nodes s) (nextNode s)
    (intervals s) (nextTimer s) (timeouts s) (padTimeouts s) (completions s)
    (console s).
Definition set_padFilter (v : option BiquadFilterNode) (s : State) : State :=
  mkState (audioQueue s) (isPlaying s) (isStreamComplete s) (checkInterval s)
    (scheduledTime s) (gainNode s) (activeSources s) (endOfQueueAudioSource s)
    (keepAliveOscillator s) (padGain s) (padOscillators s) v (nodes s)
    (nextNode s) (intervals s) (nextTimer s) (timeouts s) (padTimeouts s)
    (completions s) (console s).
Definition set_nodes (v : gmap nat AudioBufferSourceNode) (s : State) : State :=
  mkState (audioQueue s) (isPlaying s) (isStreamComplete s) (checkInterval s)
    (scheduledTime s) (gainNode s) (activeSources s) (endOfQueueAudioSource s)
    (keepAliveOscillator s) (padGain s) (padOscillators s) (padFilter s) v
    (nextNode s) (intervals s) (nextTimer s) (timeouts s) (padTimeouts s)
    (completions s) (console s).
Definition set_nextNode (v : nat) (s : State) : State :=
  mkState (audioQueue s) (isPlaying s) (isStreamComplete s) (checkInterval s)
    (scheduledTime s) (gainNode s) (activeSources s) (endOfQueueAudioSource s)
    (keepAliveOscillator s) (padGain s) (padOscillators s) (padFilter s)
    (nodes s) v (intervals s) (nextTimer s) (timeouts s) (padTimeouts s)
    (completions s) (console s).
Definition set_intervals (v : gset positive) (s : State) : State :=
  mkState (audioQueue s) (isPlaying s) (isStreamComplete s) (checkInterval s)
    (scheduledTime s) (gainNode s) (activeSources s) (endOfQueueAudioSource s)
    (keepAliveOscillator s) (padGain s) (padOscillators s) (padFilter s)
    (nodes s) (nextNode s) v (nextTimer s) (timeouts s) (padTimeouts s)
    (completions s) (console s).
Definition set_nextTimer (v : positive) (s : State) : State :=
  mkState (audioQueue s) (isPlaying s) (isStreamComplete s) (checkInterval s)
    (scheduledTime s) (gainNode s) (activeSources s) (endOfQueueAudioSource s)
    (keepAliveOscillator s) (padGain s) (padOscillators s) (padFilter s)
    (nodes s) (nextNode s) (intervals s) v (timeouts s) (padTimeouts s)
    (completions s) (console s).
Definition set_timeouts (v : nat) (s : State) : State :=
  mkState (audioQueue s) (isPlaying s) (isStreamComplete s) (checkInterval s)
    (scheduledTime s) (gainNode s) (activeSources s) (endOfQueueAudioSource s)
    (keepAliveOscillator s) (padGain s) (padOscillators s) (padFilter s)
    (nodes s) (nextNode s) (intervals s) (nextTimer s) v (padTimeouts s)
    (completions s) (console s).
Definition set_padTimeouts (v : nat) (s : State) : State :=
  mkState (audioQueue s) (isPlaying s) (isStreamComplete s) (checkInterval s)
    (scheduledTime s) (gainNode s) (activeSources s) (endOfQueueAudioSource s)
    (keepAliveOscillator s) (padGain s) (padOscillators s) (padFilter s)
    (nodes s) (nextNode s) (intervals s) (nextTimer s) (timeouts s) v
    (completions s) (console s).
Definition set_completions (v : nat) (s : State) : State :=
  mkState (audioQueue s) (isPlaying s) (isStreamComplete s) (checkInterval s)
    (scheduledTime s) (gainNode s) (activeSources s) (endOfQueueAudioSource s)
    (keepAliveOscillator s) (padGain s) (padOscillators s) (padFilter s)
    (nodes s) (nextNode s) (intervals s) (nextTimer s) (timeouts s)
    (padTimeouts s) v (console s).
Definition set_console (v : nat) (s : State) : State :=
  mkState (audioQueue s) (isPlaying s) (isStreamComplete s) (checkInterval s)
    (scheduledTime s) (gainNode s) (activeSources s) (endOfQueueAudioSource s)
    (keepAliveOscillator s) (padGain s) (padOscillators s) (padFilter s)
    (nodes s) (nextNode s) (intervals s) (nextTimer s) (timeouts s)
    (padTimeouts s) (completions s) v.

(** Reduce a field read off a chain of field updates. *)
Ltac state_simpl :=
  cbn [set_audioQueue set_isPlaying set_isStreamComplete
       set_checkInterval set_scheduledTime set_gainNode set_activeSources
       set_endOfQueueAudioSource set_keepAliveOscillator set_padGain
       set_padOscillators set_padFilter set_nodes set_nextNode
       set_intervals set_nextTimer set_timeouts set_padTimeouts
       set_completions set_console audioQueue isPlaying isStreamComplete
       checkInterval scheduledTime gainNode activeSources
       endOfQueueAudioSource keepAliveOscillator padGain padOscillators
       padFilter nodes nextNode intervals nextTimer timeouts padTimeouts
       completions console].

Ltac state_simpl_in H :=
  cbn [set_audioQueue set_isPlaying set_isStreamComplete
       set_checkInterval set_scheduledTime set_gainNode set_activeSources
       set_endOfQueueAudioSource set_keepAliveOscillator set_padGain
       set_padOscillators set_padFilter set_nodes set_nextNode
       set_intervals set_nextTimer set_timeouts set_padTimeouts
       set_completions set_console audioQueue isPlaying isStreamComplete
       checkInterval scheduledTime gainNode activeSources
       endOfQueueAudioSource keepAliveOscillator padGain padOscillators
       padFilter nodes nextNode intervals nextTimer timeouts padTimeouts
       completions console] in H.

(** [new AudioStreamer(context)]: the gain stage is connected to the
    destination and the keep-alive oscillator is running.  (The unused
    [source] node the constructor also creates is not represented.) *)
Definition init : State :=
  {| audioQueue := [];
     isPlaying := false;
     isStreamComplete := false;
     checkInterval := None;
     scheduledTime := 0;
     gainNode := mkGain 1 [] true;
     activeSources := ∅;
     endOfQueueAudioSource := None;
     keepAliveOscillator := Some (mkOsc sine 1 0);
     padGain := None;
     padOscillators := [];
     padFilter := None;
     nodes := ∅;
     nextNode := 0;
     intervals := ∅;
     nextTimer := 1;
     timeouts := 0;
     padTimeouts := 0;
     completions := 0;
     console := 0 |}.

(** ** Ambient pad *)

Definition rampTo (value endTime : Q) (g : GainNode) : GainNode :=
  mkGain (gain_value g) ((value, endTime) :: gain_ramps g) (gain_connected g).

Definition setPadVolume (volume now : Q) (s : State) : State :=
  match padGain s with
  | Some g => set_padGain (Some (rampTo volume (now + (5 # 10)) g)) s
  | None => s
  end.

Definition freqs : list Q := [(14683 # 100)%Q; 220%Q; (29366 # 100)%Q].

(** [random k] is the value of the [k]-th [Math.random()] call made by
    this invocation. *)
Definition startPad (volume now : Q) (random : nat -> Q) (s : State) : State :=
  match padGain s with
  | Some _ => s                                  (* Already running *)
  | None =>
      let s := set_padGain (Some (mkGain 0 [] true)) s in
      let s := set_padFilter (Some (mkFilter 400 1)) s in
      let s :=
        set_padOscillators
          (padOscillators s ++
           imap (fun k f => mkOsc triangle f (random k * 10 - 5)) freqs) s in
      match padGain s with
      | Some g => set_padGain (Some (rampTo volume (now + 2) g)) s
      | None => s
      end
  end.

Definition stopPad (now : Q) (s : State) : State :=
  match padGain s with
  | None => s
  | Some g =>
      let s := set_padGain (Some (rampTo 0 (now + 2) g)) s in
      set_padTimeouts (S (padTimeouts s)) s
  end.

(** The callback [stopPad] hands to [setTimeout]. *)
Definition padTeardown (s : State) : State :=
  let s := set_padOscillators [] s in
  let s := set_padGain None s in
  set_padFilter None s.

(** ** Scheduler *)

Definition Qltb (a b : Q) : bool := negb (Qle_bool b a).

(** One iteration of the [while] loop of [scheduleNextBuffer]
    (lines 231-282).  [createBuffer] would refuse an empty block; none is
    ever queued ([blocks_nonempty] below). *)
Definition scheduleBody (now : Q) (s : State) : State :=
  match audioQueue s with
  | [] => s
  | audioData :: rest =>
      let s := set_audioQueue rest s in
      let source := nextNode s in
      let s := set_nextNode (S source) s in
      let s := set_activeSources ({[ source ]} ∪ activeSources s) s in
      let '(s, handler) :=
        match audioQueue s with
        | [] =>
            let s :=
              match endOfQueueAudioSource s with
              | Some e => set_nodes (alter (set_onended HNull) e (nodes s)) s
              | None => s
              end in
            (set_endOfQueueAudioSource (Some source) s, HEndOfQueue)
        | _ :: _ => (s, HCleanup)
        end in
      let startTime := Qmax (scheduledTime s) now in
      let s :=
        set_nodes
          (<[ source := mkSource audioData handler (Some startTime) false ]>
             (nodes s)) s in
      set_scheduledTime (startTime + duration audioData) s
  end.

Fixpoint scheduleLoop (fuel : nat) (now : Q) (s : State) : State :=
  match fuel with
  | O => s
  | S fuel' =>
      match audioQueue s with
      | [] => s
      | _ :: _ =>
          if Qltb (scheduledTime s) (now + SCHEDULE_AHEAD_TIME)
          then scheduleLoop fuel' now (scheduleBody now s)
          else s
      end
  end.

(** Lines 285-308: what happens after the loop. *)
Definition rearm (s : State) : State :=
  match audioQueue s with
  | [] =>
      if isStreamComplete s then
        let s := set_isPlaying false s in
        match checkInterval s with
        | Some id =>
            let s := set_intervals (intervals s ∖ {[ id ]}) s in
            set_checkInterval None s
        | None => s
        end
      else
        match checkInterval s with
        | Some _ => s
        | None =>
            let id := nextTimer s in
            let s := set_nextTimer (Pos.succ id) s in
            let s := set_intervals ({[ id ]} ∪ intervals s) s in
            set_checkInterval (Some id) s
        end
  | _ :: _ => set_timeouts (S (timeouts s)) s
  end.

Definition scheduleNextBuffer (now : Q) (s : State) : State :=
  rearm (scheduleLoop (S (length (audioQueue s))) now s).

(** ** Lifecycle operations *)

Definition addPCM16 (chunk : Uint8Array.t) (now : Q) (s : State) : State :=
  let s := set_isStreamComplete false s in
  let '(processingBuffer, errors) := _processPCM16Chunk chunk (console s) in
  let s := set_console errors s in
  let s := set_audioQueue (enqueue processingBuffer (audioQueue s)) s in
  if isPlaying s then s
  else
    let s := set_isPlaying true s in
    let s := set_scheduledTime (now + initialBufferTime) s in
    scheduleNextBuffer now s.

Definition stop (now : Q) (s : State) : State :=
  let s := set_isPlaying false s in
  let s := set_isStreamComplete true s in
  let s := set_audioQueue [] s in
  let s :=
    set_nodes
      (set_fold (fun source ns => alter stopSource source ns)
         (nodes s) (activeSources s)) s in
  let s := set_activeSources ∅ s in
  let s := set_scheduledTime now s in
  match checkInterval s with
  | Some id =>
      let s := set_intervals (intervals s ∖ {[ id ]}) s in
      set_checkInterval None s
  | None => s
  end.

(** [resume], for a context that is running or has finished resuming. *)
Definition resume (now : Q) (s : State) : State :=
  let s := set_isStreamComplete false s in
  let s := set_scheduledTime (now + initialBufferTime) s in
  set_gainNode
    (mkGain 1 (gain_ramps (gainNode s)) (gain_connected (gainNode s))) s.

Definition complete (s : State) : State :=
  let s := set_isStreamComplete true s in
  set_completions (S (completions s)) s.

(** ** Callbacks run by the host *)

(** The [ended] event delivered to source [source]. *)
Definition onended (source : nat) (s : State) : State :=
  match src_onended <$> nodes s !! source with
  | Some HCleanup => set_activeSources (activeSources s ∖ {[ source ]}) s
  | Some HEndOfQueue =>
      let s := set_activeSources (activeSources s ∖ {[ source ]}) s in
      match audioQueue s with
      | [] =>
          if decide (endOfQueueAudioSource s = Some source) then
            let s := set_endOfQueueAudioSource None s in
            set_completions (S (completions s)) s
          else s
      | _ :: _ => s
      end
  | _ => s
  end.

(** The callback of the periodic recheck timer. *)
Definition onInterval (now : Q) (s : State) : State :=
  match audioQueue s with
  | [] => s
  | _ :: _ => scheduleNextBuffer now s
  end.

(** Everything that can happen to a streamer: method calls by the
    application and callbacks by the host.  A timer callback is run only
    if that timer is pending. *)
Inductive Op :=
| OpAddPCM16 (chunk : Uint8Array.t) (now : Q)
| OpStop (now : Q)
| OpResume (now : Q)
| OpComplete
| OpStartPad (volume now : Q) (random : nat -> Q)
| OpSetPadVolume (volume now : Q)
| OpStopPad (now : Q)
| OpEnded (source : nat)
| OpInterval (id : positive) (now : Q)
| OpTimeout (now : Q)
| OpPadTimeout.

Definition step (s : State) (op : Op) : State :=
  match op with
  | OpAddPCM16 chunk now => addPCM16 chunk now s
  | OpStop now => stop now s
  | OpResume now => resume now s
  | OpComplete => complete s
  | OpStartPad volume now random => startPad volume now random s
  | OpSetPadVolume volume now => setPadVolume volume now s
  | OpStopPad now => stopPad now s
  | OpEnded source => onended source s
  | OpInterval id now =>
      if decide (id ∈ intervals s) then onInterval now s else s
  | OpTimeout now =>
      match timeouts s with
      | O => s
      | S n => scheduleNextBuffer now (set_timeouts n s)
      end
  | OpPadTimeout =>
      match padTimeouts s with
      | O => s
      | S n => padTeardown (set_padTimeouts n s)
      end
  end.

Definition run (s : State) (ops : list Op) : State := fold_left step ops s.

(** * Notions used in the statements *)

(** ** Decoding *)

(** What the decoding loop leaves in slot [i] of a zeroed array. *)
Definition decoded (dataView : list byte) (i : nat) : Q :=
  match DataView.getInt16 dataView (i * 2) with
  | Some int16 => int16 # 32768
  | None => 0
  end.

(** The read of sample [i] raises. *)
Definition failed (dataView : list byte) (i : nat) : bool :=
  match DataView.getInt16 dataView (i * 2) with
  | Some _ => false
  | None => true
  end.

(** Number of iterations of the decoding loop. *)
Definition iterations (chunk : Uint8Array.t) : nat :=
  (Uint8Array.length chunk + 1) / 2.

(** The samples a chunk decodes to. *)
Definition samples (chunk : Uint8Array.t) : Float32Array :=
  fst (_processPCM16Chunk chunk 0).

(** The blocks one [addPCM16] call makes of the samples it decoded. *)
Definition blocksOf (processingBuffer : Float32Array) : list Float32Array :=
  enqueue processingBuffer [].

(** ** Scheduled nodes *)

(** The block and start time of the [i]-th node created, once started. *)
Definition scheduledAt (ns : gmap nat AudioBufferSourceNode) (i : nat)
    : option (list Q * Q) :=
  n ← ns !! i; t ← src_start n; Some (src_buffer n, t).

(** The blocks of the nodes created from number [from] up to [to]. *)
Definition scheduledBlocks (from to : nat)
    (ns : gmap nat AudioBufferSourceNode) : list (list Q) :=
  omap (fun i => fst <$> scheduledAt ns i) (seq from (to - from)).

(** The blocks handed to nodes since node number [base], followed by
    those still queued: everything yet to be heard, in playback order. *)
Definition pending (base : nat) (s : State) : list (list Q) :=
  scheduledBlocks base (nextNode s) (nodes s) ++ audioQueue s.

(** The node heap after the end-of-queue bookkeeping of an iteration
    that leaves [rest] in the queue. *)
Definition disarmed (rest : list (list Q)) (s : State)
    : gmap nat AudioBufferSourceNode :=
  match rest, endOfQueueAudioSource s with
  | [], Some e => alter (set_onended HNull) e (nodes s)
  | _, _ => nodes s
  end.

(** The hook an iteration that leaves [rest] in the queue installs. *)
Definition handlerFor (rest : list (list Q)) : Handler :=
  match rest with [] => HEndOfQueue | _ :: _ => HCleanup end.

(** Same allocation counter, cursor, queue, and block and start time of
    every node. *)
Definition same_schedule (s s' : State) : Prop :=
  nextNode s' = nextNode s /\
  scheduledTime s' = scheduledTime s /\
  audioQueue s' = audioQueue s /\
  forall i, scheduledAt (nodes s') i = scheduledAt (nodes s) i.

(** Among the nodes numbered from [base]: start times do not decrease
    with the node number, and every node ends no later than the cursor. *)
Definition ordered (base : nat) (s : State) : Prop :=
  (forall i j bi ti bj tj,
     base <= i -> i <= j -> j < nextNode s ->
     scheduledAt (nodes s) i = Some (bi, ti) ->
     scheduledAt (nodes s) j = Some (bj, tj) -> (ti <= tj)%Q) /\
  (forall i bi ti,
     base <= i -> i < nextNode s ->
     scheduledAt (nodes s) i = Some (bi, ti) ->
     (ti + duration bi <= scheduledTime s)%Q).

(** ** Runs *)

(** The blocks an operation appends to the queue. *)
Definition ingestedBy (op : Op) : list (list Q) :=
  match op with
  | OpAddPCM16 chunk _ => blocksOf (samples chunk)
  | _ => []
  end.

Definition isStop (op : Op) : bool :=
  match op with OpStop _ => true | _ => false end.

(** An operation re-primes the cursor when it assigns [scheduledTime]
    other than by advancing it past a scheduled block. *)
Definition reprimes (s : State) (op : Op) : bool :=
  match op with
  | OpStop _ | OpResume _ => true
  | OpAddPCM16 _ _ => negb (isPlaying s)
  | _ => false
  end.

(** A run during which the cursor is never re-primed. *)
Fixpoint steady (s : State) (ops : list Op) : Prop :=
  match ops with
  | [] => True
  | op :: ops' => reprimes s op = false /\ steady (step s op) ops'
  end.

(** ** Invariants of reachable states *)

(** Every node of the active set has been started. *)
Definition started (s : State) : Prop :=
  forall id, id ∈ activeSources s -> is_Some (scheduledAt (nodes s) id).

(** The live interval timers are exactly the one named by
    [checkInterval], if any. *)
Definition one_interval (s : State) : Prop :=
  intervals s =
  match checkInterval s with Some id => {[ id ]} | None => ∅ end.

(** No queued block is empty, so [createBuffer] never refuses one. *)
Definition blocks_nonempty (s : State) : Prop :=
  Forall (fun b => 0 < length b) (audioQueue s).

Definition Inv (s : State) : Prop :=
  started s /\ one_interval s /\ blocks_nonempty s.

(** ** Frames *)

(** The fields no iteration of the scheduling loop writes. *)
Definition frame (s : State) :=
  (isPlaying s, isStreamComplete s, checkInterval s, intervals s,
   nextTimer s, timeouts s, completions s, console s,
   (gainNode s, keepAliveOscillator s, padGain s, padOscillators s,
    padFilter s, padTimeouts s)).

(** The fields no scheduling pass writes: the stream-complete flag, the
    callback and console counters, and the audio graph outside the
    source nodes. *)
Definition passive (s : State) :=
  (isStreamComplete s, completions s, console s,
   (gainNode s, keepAliveOscillator s, padGain s, padOscillators s,
    padFilter s, padTimeouts s)).

(** ** Sample inputs *)

(** Three samples: 1, -1 and -32768. *)
Definition chunk3 : Uint8Array.t :=
  Uint8Array.of_buffer [x01; x00; xff; xff; x00; x80].

(** One sample, 1 / 32768. *)
Definition chunk1 : Uint8Array.t := Uint8Array.of_buffer [x01; x00].

(** Three bytes: one sample and a stray byte. *)
Definition chunkOdd : Uint8Array.t := Uint8Array.of_buffer [x01; x00; x05].

(** 15360 zero bytes: 7680 samples of silence. *)
Definition silence15360 : Uint8Array.t :=
  Uint8Array.of_buffer (replicate (2 * bufferSize) x00).

(** A first block playing: the streamer right after its first ingest, at
    time 0.  Node 0 starts at 0.1 and the recheck timer 1 is armed. *)
Definition playing1 : State := run init [OpAddPCM16 chunk3 0].

(** One more block ingested 10 ms later: it waits in the queue. *)
Definition queued1 : State :=
  run init [OpAddPCM16 chunk3 0; OpAddPCM16 chunk1 (1 # 100)].

(** Two more ingests after [playing1], each picked up by the next tick
    of the recheck timer. *)
Definition ops1 : list Op :=
  [OpAddPCM16 chunk1 (1 # 100); OpInterval 1 (1 # 10);
   OpAddPCM16 chunk1 (15 # 100); OpInterval 1 (2 # 10)].

(** A running pad: the state after a first [startPad(0.3)]. *)
Definition padStarted : State :=
  startPad (3 # 10) 0 (fun _ => (1 # 2)%Q) init.

(** ** Timing of scheduled nodes *)

(** Among the nodes numbered from [base], no node starts before an
    earlier one has ended. *)
Definition spaced (base : nat) (s : State) : Prop :=
  forall i j bi ti bj tj,
    base <= i -> i < j -> j < nextNode s ->
    scheduledAt (nodes s) i = Some (bi, ti) ->
    scheduledAt (nodes s) j = Some (bj, tj) -> (ti + duration bi <= tj)%Q.


(** The nodes numbered from [base] play back to back: each starts at the
    instant its predecessor ends, and the last one ends at the cursor,
    which is not in the past of [now]. *)
Definition contiguous (base : nat) (now : Q) (s : State) : Prop :=
  (forall i bi ti bj tj,
     base <= i -> S i < nextNode s ->
     scheduledAt (nodes s) i = Some (bi, ti) ->
     scheduledAt (nodes s) (S i) = Some (bj, tj) ->
     tj = (ti + duration bi)%Q) /\
  (base < nextNode s ->
     (now <= scheduledTime s)%Q /\
     exists b t,
       scheduledAt (nodes s) (nextNode s - 1) = Some (b, t) /\
       scheduledTime s = (t + duration b)%Q).

(** ** More invariants of reachable states *)

(** Audio is queued only while the loop is playing, and while it is
    playing a scheduling pass is always due: a one-shot timer is pending
    or the recheck interval is armed. *)
Definition awake (s : State) : Prop :=
  (isPlaying s = false -> audioQueue s = []) /\
  (isPlaying s = true -> 0 < timeouts s \/ checkInterval s <> None).

(** A sample lies in [-1, 1). *)
Definition sample_ok (x : Q) : Prop := (-1 <= x)%Q /\ (x < 1)%Q.

(** A block holds between 1 and [bufferSize] samples, each in range. *)
Definition block_ok (b : list Q) : Prop :=
  0 < length b <= bufferSize /\ Forall sample_ok b.

(** Every queued block and the buffer of every node is such a block. *)
Definition blocks_ok (s : State) : Prop :=
  Forall block_ok (audioQueue s) /\
  forall i n, nodes s !! i = Some n -> block_ok (src_buffer n).

(** The part of the audio graph the constructor builds. *)
Definition graph (s : State) : GainNode * option OscillatorNode :=
  (gainNode s, keepAliveOscillator s).

(** The pad is either absent altogether, or made of its gain stage, the
    400 Hz filter and exactly the three triangle oscillators of the
    drone, each detuned by less than 5 cents. *)
Definition pad_ok (s : State) : Prop :=
  match padGain s with
  | None => padFilter s = None /\ padOscillators s = []
  | Some g =>
      gain_connected g = true /\
      padFilter s = Some (mkFilter 400 1) /\
      map osc_frequency (padOscillators s) = freqs /\
      Forall (fun o => osc_type o = triangle /\
                       (-5 <= osc_detune o)%Q /\ (osc_detune o < 5)%Q)
        (padOscillators s)
  end.

(** [Math.random()] returns a number in [0, 1). *)
Definition unit_random (random : nat -> Q) : Prop :=
  forall k, (0 <= random k)%Q /\ (random k < 1)%Q.

Definition fair (op : Op) : Prop :=
  match op with
  | OpStartPad _ _ random => unit_random random
  | _ => True
  end.

(** The end-of-queue marker names a node that exists and still carries
    the end-of-queue hook. *)
Definition marked (s : State) : Prop :=
  forall e, endOfQueueAudioSource s = Some e ->
    e < nextNode s /\ src_onended <$> nodes s !! e = Some HEndOfQueue.

(** What [rearm] and the pad operations leave alone: the queue, the
    nodes, the active set, the marker and the cursor. *)
Definition playback (s : State) :=
  (audioQueue s, nodes s, nextNode s, endOfQueueAudioSource s,
   activeSources s, scheduledTime s).

(** The ambient pad. *)
Definition pad (s : State) :=
  (padGain s, padOscillators s, padFilter s).

(** An operation that neither ingests nor stops. *)
Definition quiet (op : Op) : bool :=
  match op with
  | OpAddPCM16 _ _ | OpStop _ => false
  | _ => true
  end.

(** Two short blocks ingested while a first one plays. *)
Definition queued2 : State :=
  run init [OpAddPCM16 chunk3 0; OpAddPCM16 chunk1 (1 # 100);
            OpAddPCM16 chunk1 (2 # 100)].

(** A pad started, stopped, and started again during the fade-out. *)
Definition padOps : list Op :=
  [OpStartPad (3 # 10) 0 (fun _ => (1 # 2)%Q); OpStopPad 1;
   OpStartPad (3 # 10) 2 (fun _ => 0%Q)].

(** The operations and callbacks of the ambient pad. *)
Definition isPadOp (op : Op) : bool :=
  match op with
  | OpStartPad _ _ _ | OpSetPadVolume _ _ | OpStopPad _ | OpPadTimeout => true
  | _ => false
  end.

(** * The worklet registry

    [addWorklet] (lines 150-179) works on [registeredWorklets], a
    process-wide [Map] from audio contexts to records of worklet graphs,
    and on the module loader and node constructor of the host.  It
    touches no field of the streamer, so it has a state of its own. *)

Module Worklets.

(** A [WorkletGraph]: the [AudioWorkletNode], once it exists, and the
    message handlers in order of arrival.  A handler is represented by an
    identifier, a node by its creation number. *)
Record WorkletGraph := mkGraph {
  node : option nat;
  handlers : list nat
}.

(** - [registered]: [registeredWorklets.get(this.context)].  The entry is
      set once and never replaced, so the record a suspended call holds
      is the record in the [Map].  The record is a plain object used as
      a map from worklet names to graphs;
    - [modules]: the [addModule] requests made, as (name, source);
    - [awaiting]: the calls suspended at [await], by worklet name;
    - [created]: the number of [AudioWorkletNode]s constructed. *)
Record Host := mkHost {
  registered : option (gmap string WorkletGraph);
  modules : list (string * string);
  awaiting : list string;
  created : nat
}.

Definition init : Host := mkHost None [] [] 0.

(** The names every object inherits from [Object.prototype]: looked up in
    a record they are found although never stored, so for these a record
    is not a map. *)
Definition objectPrototypeKeys : list string :=
  ["constructor"; "__defineGetter__"; "__defineSetter__"; "hasOwnProperty";
   "__lookupGetter__"; "__lookupSetter__"; "isPrototypeOf";
   "propertyIsEnumerable"; "toString"; "valueOf"; "__proto__";
   "toLocaleString"].

Definition plainName (workletName : string) : Prop :=
  workletName ∉ objectPrototypeKeys.

(** [addWorklet] up to its [await] (lines 155-172), for a plain name. *)
Definition addWorklet (workletName workletSrc : string) (handler : nat)
    (h : Host) : Host :=
  let workletsRecord := registered h in
  match workletsRecord ≫= (fun record => record !! workletName) with
  | Some graph =>
      (* the worklet already exists on this context *)
      mkHost
        ((fun record =>
            <[ workletName := mkGraph (node graph) (handlers graph ++ [handler]) ]>
              record) <$> workletsRecord)
        (modules h) (awaiting h) (created h)
  | None =>
      let record := default ∅ workletsRecord in
      mkHost
        (Some (<[ workletName := mkGraph None [handler] ]> record))
        (modules h ++ [(workletName, workletSrc)])
        (awaiting h ++ [workletName]) (created h)
  end.

(** The rest of [addWorklet] (lines 173-178), run when the module has
    loaded: the node is constructed and stored in the graph. *)
Definition addWorklet_resumed (workletName : string) (h : Host) : Host :=
  let worklet := created h in
  mkHost
    (alter (fun graph => mkGraph (Some worklet) (handlers graph)) workletName
       <$> registered h)
    (modules h) (awaiting h) (S (created h)).

Fixpoint remove1 (x : string) (l : list string) : list string :=
  match l with
  | [] => []
  | y :: l' => if decide (x = y) then l' else y :: remove1 x l'
  end.

(** Calls of [addWorklet], and the host settling the [addModule] promise
    of a suspended call. *)
Inductive Event :=
| Call (workletName workletSrc : string) (handler : nat)
| Resolved (workletName : string)
| Rejected (workletName : string).

Definition step (h : Host) (e : Event) : Host :=
  match e with
  | Call workletName workletSrc handler =>
      addWorklet workletName workletSrc handler h
  | Resolved workletName =>
      if decide (workletName ∈ awaiting h) then
        addWorklet_resumed workletName
          (mkHost (registered h) (modules h)
             (remove1 workletName (awaiting h)) (created h))
      else h
  | Rejected workletName =>
      mkHost (registered h) (modules h) (remove1 workletName (awaiting h))
        (created h)
  end.

Definition run (h : Host) (events : list Event) : Host :=
  fold_left step events h.

(** The graph registered under a name, if any. *)
Definition graphOf (workletName : string) (h : Host) : option WorkletGraph :=
  registered h ≫= (fun record => record !! workletName).

(** The handlers given to the calls for [workletName], in call order. *)
Definition handlersGiven (workletName : string) (events : list Event)
    : list nat :=
  omap (fun e =>
          match e with
          | Call n _ handler =>
              if decide (n = workletName) then Some handler else None
          | _ => None
          end) events.

Definition eventName (e : Event) : string :=
  match e with
  | Call n _ _ | Resolved n | Rejected n => n
  end.

End Worklets.

(** The module requests are for distinct names, each of them registered;
    nodes are constructed only for settled requests. *)
Definition worklets_inv (h : Worklets.Host) : Prop :=
  NoDup (Worklets.modules h).*1 /\
  (forall name, name ∈ (Worklets.modules h).*1 <->
                is_Some (Worklets.graphOf name h)) /\
  Worklets.created h + length (Worklets.awaiting h) <=
    length (Worklets.modules h) /\
  (forall name graph,
     Worklets.graphOf name h = Some graph -> Worklets.handlers graph <> []) /\
  (forall name graph worklet,
     Worklets.graphOf name h = Some graph ->
     Worklets.node graph = Some worklet ->
     worklet < Worklets.created h /\
     forall name' graph',
       Worklets.graphOf name' h = Some graph' ->
       Worklets.node graph' = Some worklet -> name' = name).

(** A suspended call is suspended once, and its graph has no node yet. *)
Definition awaiting_inv (h : Worklets.Host) : Prop :=
  NoDup (Worklets.awaiting h) /\
  forall name, name ∈ Worklets.awaiting h ->
    exists graph, Worklets.graphOf name h = Some graph /\
                  Worklets.node graph = None.

(** A name whose module load has failed: registered, without a node, and
    with no call suspended on it. *)
Definition orphaned (name : string) (h : Worklets.Host) : Prop :=
  (exists graph, Worklets.graphOf name h = Some graph /\
                 Worklets.node graph = None) /\
  name ∉ Worklets.awaiting h.

(** Two handlers attached to one worklet, whose module then loads. *)
Definition tapEvents : list Worklets.Event :=
  [Worklets.Call "vumeter" "class VU {}" 1;
   Worklets.Call "vumeter" "class VU {}" 2;
   Worklets.Resolved "vumeter"].

(** * The tool store

    The [useTools] store of [src/lib/state.ts] (lines 78-140): a list of
    function declarations and the actions that edit it.  An action maps
    the list held by the store to the next one.  The types the file does
    not fix ([any] for [parameters], the scheduling enumeration of the
    client library) are parameters. *)

Module Tools.
Section Tools.
Context {Params Scheduling : Type}.
(** [{ type: 'OBJECT', properties: {} }] and
    [FunctionResponseScheduling.INTERRUPT]. *)
Variables (emptyObject : Params) (INTERRUPT : Scheduling).

Record FunctionCall := mkTool {
  name : string;
  description : option string;
  parameters : option Params;
  isEnabled : bool;
  scheduling : option Scheduling
}.

(** [state.tools.some(tool => tool.name === toolName)] *)
Definition some_named (toolName : string) (tools : list FunctionCall) : bool :=
  existsb (fun tool => String.eqb (name tool) toolName) tools.

Definition toggleTool (toolName : string) (tools : list FunctionCall)
    : list FunctionCall :=
  map (fun tool =>
         if String.eqb (name tool) toolName
         then mkTool (name tool) (description tool) (parameters tool)
                (negb (isEnabled tool)) (scheduling tool)
         else tool) tools.

(** The [while] loop of [addTool] (lines 102-104); the template literal
    prints the counter in decimal. *)
Fixpoint addToolLoop (fuel : nat) (tools : list FunctionCall)
    (newToolName : string) (counter : nat) : string :=
  match fuel with
  | O => newToolName
  | S fuel' =>
      if some_named newToolName tools
      then addToolLoop fuel' tools ("new_function_" +:+ pretty counter)
             (S counter)
      else newToolName
  end.

Definition addTool (tools : list FunctionCall) : list FunctionCall :=
  let newToolName :=
    addToolLoop (S (length tools)) tools "new_function" 1 in
  tools ++
  [mkTool newToolName (Some "") (Some emptyObject) true (Some INTERRUPT)].

Definition removeTool (toolName : string) (tools : list FunctionCall)
    : list FunctionCall :=
  List.filter (fun tool => negb (String.eqb (name tool) toolName)) tools.

(** [updateTool] returns the state itself, after a [console.warn], when
    the new name is taken by another tool. *)
Definition updateTool (oldName : string) (updatedTool : FunctionCall)
    (tools : list FunctionCall) : list FunctionCall :=
  if negb (String.eqb oldName (name updatedTool)) &&
     some_named (name updatedTool) tools
  then tools
  else map (fun tool =>
              if String.eqb (name tool) oldName then updatedTool else tool)
         tools.

Inductive Action :=
| SetTemplate
| ToggleTool (toolName : string)
| AddTool
| RemoveTool (toolName : string)
| UpdateTool (oldName : string) (updatedTool : FunctionCall).

Definition dispatch (tools : list FunctionCall) (a : Action)
    : list FunctionCall :=
  match a with
  | SetTemplate => tools
  | ToggleTool toolName => toggleTool toolName tools
  | AddTool => addTool tools
  | RemoveTool toolName => removeTool toolName tools
  | UpdateTool oldName updatedTool => updateTool oldName updatedTool tools
  end.

Definition run (tools : list FunctionCall) (actions : list Action)
    : list FunctionCall :=
  fold_left dispatch actions tools.

(** The names [addTool] tries, in order: [new_function],
    [new_function_1], [new_function_2], ... *)
Definition candidate (k : nat) : string :=
  match k with
  | O => "new_function"
  | S _ => "new_function_" +:+ pretty k
  end.

Definition names (tools : list FunctionCall) : list string :=
  map name tools.

End Tools.
End Tools.

(** * The conversation log

    The [useLogStore] store of [src/lib/state.ts] (lines 165-188) and the
    event handlers of the streaming console that feed it
    ([src/components/demo/streaming-console/StreamingConsole.tsx], lines
    147-208).  The types of the client library and [Date] are
    parameters. *)

Module Log.

Inductive Role := user | agent | system.

Definition Role_eqb (a b : Role) : bool :=
  match a, b with
  | user, user | agent, agent | system, system => true
  | _, _ => false
  end.

Section Log.
Context {Date ToolCall ToolResponse GroundingChunk : Type}.

Record ConversationTurn := mkTurn {
  timestamp : Date;
  role : Role;
  text : string;
  isFinal : bool;
  toolUseRequest : option ToolCall;
  toolUseResponse : option ToolResponse;
  groundingChunks : option (list GroundingChunk)
}.

(** A [Partial<ConversationTurn>] without timestamp: [None] for a key
    that is absent. *)
Record PartialTurn := mkPartial {
  new_role : option Role;
  new_text : option string;
  new_isFinal : option bool;
  new_toolUseRequest : option ToolCall;
  new_toolUseResponse : option ToolResponse;
  new_groundingChunks : option (list GroundingChunk)
}.

(** [{ ...turn, ...update }] *)
Definition merge (turn : ConversationTurn) (update : PartialTurn)
    : ConversationTurn :=
  mkTurn (timestamp turn)
    (default (role turn) (new_role update))
    (default (text turn) (new_text update))
    (default (isFinal turn) (new_isFinal update))
    (match new_toolUseRequest update with
     | Some v => Some v | None => toolUseRequest turn end)
    (match new_toolUseResponse update with
     | Some v => Some v | None => toolUseResponse turn end)
    (match new_groundingChunks update with
     | Some v => Some v | None => groundingChunks turn end).

(** [addTurn]; [now] is the [new Date()] it reads, which replaces
    whatever timestamp the argument has. *)
Definition addTurn (now : Date) (turn : ConversationTurn)
    (turns : list ConversationTurn) : list ConversationTurn :=
  turns ++
  [mkTurn now (role turn) (text turn) (isFinal turn) (toolUseRequest turn)
     (toolUseResponse turn) (groundingChunks turn)].

Definition updateLastTurn (update : PartialTurn)
    (turns : list ConversationTurn) : list ConversationTurn :=
  match last turns with
  | None => turns
  | Some lastTurn =>
      <[ length turns - 1 := merge lastTurn update ]> turns
  end.

Definition clearTurns (turns : list ConversationTurn)
    : list ConversationTurn := [].

(** ** The handlers of the streaming console *)

(** The handlers of the two transcription events differ in the role
    only. *)
Definition handleTranscription (who : Role) (fragment : string)
    (final : bool) (now : Date) (turns : list ConversationTurn)
    : list ConversationTurn :=
  match last turns with
  | Some lastTurn =>
      if Role_eqb (role lastTurn) who && negb (isFinal lastTurn)
      then updateLastTurn
             (mkPartial None (Some (text lastTurn +:+ fragment)) (Some final)
                None None None) turns
      else addTurn now (mkTurn now who fragment final None None None) turns
  | None => addTurn now (mkTurn now who fragment final None None None) turns
  end.

Definition handleInputTranscription := handleTranscription user.
Definition handleOutputTranscription := handleTranscription agent.

(** [parts?.map(p => p.text).filter(Boolean).join(' ') ?? ''] *)
Definition contentText (parts : option (list (option string))) : string :=
  match parts with
  | Some ps =>
      String.concat " "
        (List.filter (fun s => negb (String.eqb s ""))
           (omap (fun p => p) ps))
  | None => ""
  end.

Definition handleContent (parts : option (list (option string)))
    (chunks : option (list GroundingChunk)) (now : Date)
    (turns : list ConversationTurn) : list ConversationTurn :=
  let fragment := contentText parts in
  if String.eqb fragment "" &&
     match chunks with None => true | Some _ => false end
  then turns
  else
    let added :=
      addTurn now (mkTurn now agent fragment false None None chunks) turns in
    match last turns with
    | Some lastTurn =>
        if Role_eqb (role lastTurn) agent && negb (isFinal lastTurn)
        then updateLastTurn
               (mkPartial None (Some (text lastTurn +:+ fragment)) None
                  None None
                  (match chunks with
                   | Some cs =>
                       Some (default [] (groundingChunks lastTurn) ++ cs)
                   | None => None
                   end)) turns
        else added
    | None => added
    end.

Definition handleTurnComplete (turns : list ConversationTurn)
    : list ConversationTurn :=
  match last turns with
  | Some lastTurn =>
      if negb (isFinal lastTurn)
      then updateLastTurn (mkPartial None None (Some true) None None None)
             turns
      else turns
  | None => turns
  end.

(** The events the console listens to. *)
Inductive Event :=
| InputTranscription (fragment : string) (final : bool) (now : Date)
| OutputTranscription (fragment : string) (final : bool) (now : Date)
| Content (parts : option (list (option string)))
    (chunks : option (list GroundingChunk)) (now : Date)
| TurnComplete.

Definition handle (turns : list ConversationTurn) (e : Event)
    : list ConversationTurn :=
  match e with
  | InputTranscription fragment final now =>
      handleInputTranscription fragment final now turns
  | OutputTranscription fragment final now =>
      handleOutputTranscription fragment final now turns
  | Content parts chunks now => handleContent parts chunks now turns
  | TurnComplete => handleTurnComplete turns
  end.

Definition run (turns : list ConversationTurn) (events : list Event)
    : list ConversationTurn :=
  fold_left handle events turns.

(** The text an event carries for a role. *)
Definition heard (who : Role) (e : Event) : string :=
  match e with
  | InputTranscription fragment _ _ =>
      if Role_eqb who user then fragment else ""
  | OutputTranscription fragment _ _ =>
      if Role_eqb who agent then fragment else ""
  | Content parts _ _ =>
      if Role_eqb who agent then contentText parts else ""
  | TurnComplete => ""
  end.

(** The texts of the turns of a role, one after the other. *)
Definition said (who : Role) (turns : list ConversationTurn) : string :=
  fold_right String.append ""
    (map text (List.filter (fun t => Role_eqb (role t) who) turns)).

End Log.
End Log.

(** The cursor is at [floor] or later, and so is the start of every node
    numbered from [base]. *)
Definition above (floor : Q) (base : nat) (s : State) : Prop :=
  (floor <= scheduledTime s)%Q /\
  forall i b t,
    base <= i -> i < nextNode s ->
    scheduledAt (nodes s) i = Some (b, t) -> (floor <= t)%Q.

(** * Properties of the chunk decoder *)

Lemma iterations_lt chunk i :
  i < iterations chunk <-> i * 2 < Uint8Array.length chunk.
Proof.
  unfold iterations.
  pose proof (Nat.div_mod_eq (Uint8Array.length chunk + 1) 2).
  pose proof (Nat.mod_upper_bound (Uint8Array.length chunk + 1) 2).
  lia.
Qed.

Lemma half_lt n i : i < n / 2 <-> i * 2 + 1 < n.
Proof.
  pose proof (Nat.div_mod_eq n 2).
  pose proof (Nat.mod_upper_bound n 2).
  lia.
Qed.

Local Ltac decide_ranges :=
  repeat case_decide; try done; exfalso;
  repeat match goal with H : _ /\ _ |- _ => destruct H end;
  match goal with H : ~ _ |- _ => apply H end;
  (split; [lia | done]).

Lemma decodeLoop_fold fuel chunk dataView i acc :
  iterations chunk <= i + fuel ->
  decodeLoop fuel chunk dataView i acc =
  fold_left (fun a k => decodeStep dataView k a)
    (seq i (iterations chunk - i)) acc.
Proof.
  revert i acc.
  induction fuel as [|fuel IH]; intros i acc Hfuel; cbn [decodeLoop].
  - replace (iterations chunk - i) with 0 by lia. done.
  - pose proof (iterations_lt chunk i) as Hi.
    destruct (Nat.ltb_spec (i * 2) (Uint8Array.length chunk)) as [Hlt|Hge].
    + rewrite IH by lia.
      replace (iterations chunk - i) with (S (iterations chunk - S i)) by lia.
      done.
    + replace (iterations chunk - i) with 0 by lia. done.
Qed.

(** Effect of the loop over the indices [i, i + r) on any array. *)
Lemma decode_fold_spec dataView r i arr c :
  let res := fold_left (fun a k => decodeStep dataView k a) (seq i r) (arr, c) in
  length (fst res) = length arr /\
  (forall j, fst res !! j =
     if decide (i <= j < i + r /\ failed dataView j = false)
     then (fun _ => decoded dataView j) <$> arr !! j
     else arr !! j) /\
  snd res = c + length (List.filter (failed dataView) (seq i r)).
Proof.
  revert i arr c. induction r as [|r IH]; intros i arr c; cbn [seq fold_left].
  - cbn. split; [done|]. split; [|lia].
    intros j. case_decide; [lia|done].
  - specialize (IH (S i)). cbn [List.filter].
    destruct (DataView.getInt16 dataView (i * 2)) as [int16|] eqn:Hget.
    + assert (decodeStep dataView i (arr, c) = (<[i:=int16 # 32768]> arr, c))
        as -> by (unfold decodeStep; rewrite Hget; done).
      assert (failed dataView i = false) as Hf
        by (unfold failed; rewrite Hget; done).
      assert (decoded dataView i = int16 # 32768) as Hd
        by (unfold decoded; rewrite Hget; done).
      rewrite Hf.
      destruct (IH (<[i:=int16 # 32768]> arr) c) as (Hlen & Hval & Hcnt).
      rewrite length_insert in Hlen. split; [done|]. split; [|done].
      intros j. rewrite Hval.
      destruct (decide (j = i)) as [->|Hne].
      * rewrite (decide_False (P := S i <= i < _ /\ _)) by lia.
        rewrite decide_True by (split; [lia|done]).
        rewrite Hd.
        destruct (decide (i < length arr)).
        -- rewrite list_lookup_insert_eq by done.
           destruct (lookup_lt_is_Some_2 arr i) as [x ->]; done.
        -- rewrite list_insert_ge by lia. rewrite lookup_ge_None_2 by lia. done.
      * rewrite list_lookup_insert_ne by done.
        decide_ranges.
    + assert (decodeStep dataView i (arr, c) = (arr, S c))
        as -> by (unfold decodeStep; rewrite Hget; done).
      assert (failed dataView i = true) as Hf
        by (unfold failed; rewrite Hget; done).
      rewrite Hf.
      destruct (IH arr (S c)) as (Hlen & Hval & Hcnt).
      split; [done|]. split; [|cbn [length]; lia].
      intros j. rewrite Hval.
      destruct (decide (j = i)) as [->|Hne].
      * rewrite (decide_False (P := S i <= i < _ /\ _)) by lia.
        rewrite decide_False; [done|]. rewrite Hf. intros [_ ?]. done.
      * decide_ranges.
Qed.

Lemma iterations_le chunk : iterations chunk <= S (Uint8Array.length chunk).
Proof.
  unfold iterations.
  pose proof (Nat.div_mod_eq (Uint8Array.length chunk + 1) 2). lia.
Qed.

Lemma half_le_iterations chunk :
  Uint8Array.length chunk / 2 <= iterations chunk.
Proof.
  destruct (decide (Uint8Array.length chunk / 2 <= iterations chunk)) as [|Hn];
    [done|].
  assert (iterations chunk < Uint8Array.length chunk / 2) as H by lia.
  apply half_lt in H.
  assert (~ iterations chunk < iterations chunk) as H' by lia.
  rewrite iterations_lt in H'. lia.
Qed.

(** The decoder as a whole: the array it returns and what it logs. *)
Lemma processPCM16Chunk_spec chunk c :
  let res := _processPCM16Chunk chunk c in
  length (fst res) = Uint8Array.length chunk / 2 /\
  (forall j, j < Uint8Array.length chunk / 2 ->
     fst res !! j = Some (decoded (Uint8Array.buffer chunk) j)) /\
  snd res =
    c + length (List.filter (failed (Uint8Array.buffer chunk))
                  (seq 0 (iterations chunk))).
Proof.
  unfold _processPCM16Chunk.
  rewrite decodeLoop_fold by (pose proof (iterations_le chunk); lia).
  rewrite Nat.sub_0_r.
  destruct (decode_fold_spec (Uint8Array.buffer chunk) (iterations chunk) 0
              (replicate (Uint8Array.length chunk / 2) 0%Q) c)
    as (Hlen & Hval & Hcnt).
  rewrite length_replicate in Hlen.
  split; [done|]. split; [|done].
  intros j Hj. rewrite Hval, lookup_replicate_2 by done.
  case_decide as Hcase; [done|].
  assert (failed (Uint8Array.buffer chunk) j = true) as Hf.
  { destruct (failed (Uint8Array.buffer chunk) j) eqn:E; [done|].
    exfalso. apply Hcase. pose proof (half_le_iterations chunk).
    split; [lia|done]. }
  unfold failed in Hf. unfold decoded.
  destruct (DataView.getInt16 (Uint8Array.buffer chunk) (j * 2)); done.
Qed.

Lemma processPCM16Chunk_fst chunk c :
  fst (_processPCM16Chunk chunk c) = samples chunk.
Proof.
  unfold samples.
  destruct (processPCM16Chunk_spec chunk c) as (Hlen & Hval & _).
  destruct (processPCM16Chunk_spec chunk 0) as (Hlen0 & Hval0 & _).
  apply list_eq. intros j.
  destruct (decide (j < Uint8Array.length chunk / 2)).
  - rewrite Hval, Hval0 by done. done.
  - rewrite !lookup_ge_None_2 by lia. done.
Qed.

Lemma samples_length chunk :
  length (samples chunk) = Uint8Array.length chunk / 2.
Proof. apply (processPCM16Chunk_spec chunk 0). Qed.

(** *** The reference decoding *)

Lemma list_pair_ind {A} (P : list A -> Prop) :
  P [] -> (forall a, P [a]) -> (forall a b l, P l -> P (a :: b :: l)) ->
  forall l, P l.
Proof.
  intros Hnil Hone Hstep l.
  assert (P l /\ forall a, P (a :: l)) as [H _]; [|done].
  induction l as [|b l [IH1 IH2]]; [by split|].
  split; [apply IH2|]. intros a. by apply Hstep.
Qed.

Lemma half_succ_succ n : S (S n) / 2 = S (n / 2).
Proof.
  replace (S (S n)) with (n + 1 * 2) by lia.
  rewrite Nat.div_add by lia. lia.
Qed.

Lemma pcm16_to_float_length bs :
  length (pcm16_to_float bs) = length bs / 2.
Proof.
  induction bs as [|a|a b l IH] using list_pair_ind; [done..|].
  cbn [pcm16_to_float length]. rewrite half_succ_succ, IH. done.
Qed.

Lemma pcm16_to_float_lookup bs j lo hi :
  bs !! (j * 2) = Some lo -> bs !! (j * 2 + 1) = Some hi ->
  pcm16_to_float bs !! j = Some (int16_of_bytes lo hi # 32768).
Proof.
  revert bs. induction j as [|j IH]; intros [|a [|b rest]] Hlo Hhi;
    try done.
  - cbn in Hlo, Hhi. by simplify_eq.
  - cbn [pcm16_to_float]. apply (IH rest); [exact Hlo|exact Hhi].
Qed.

Lemma pcm16_to_float_app a b :
  Nat.Even (length a) ->
  pcm16_to_float (a ++ b) = pcm16_to_float a ++ pcm16_to_float b.
Proof.
  induction a as [|x|x y l IH] using list_pair_ind; intros Heven.
  - done.
  - destruct Heven as [k Hk]. cbn in Hk. lia.
  - cbn [app pcm16_to_float]. f_equal. apply IH.
    cbn [length] in Heven. by apply Nat.Even_succ_succ.
Qed.

Lemma filter_all_false {A} (f : A -> bool) l :
  (forall x, In x l -> f x = false) -> List.filter f l = [].
Proof.
  induction l as [|x l IH]; [done|]. intros H. cbn.
  rewrite (H x) by (by left). apply IH. intros y Hy. apply H. by right.
Qed.

(** For a window that starts at the beginning of its buffer, each slot
    receives the reference decoding of the window's own bytes. *)
Lemma samples_offset_0 chunk :
  Uint8Array.byteOffset chunk = 0 -> Uint8Array.wf chunk ->
  samples chunk = pcm16_to_float (Uint8Array.bytes chunk).
Proof.
  intros Hoff Hwf. unfold Uint8Array.wf in Hwf. rewrite Hoff in Hwf.
  assert (length (Uint8Array.bytes chunk) = Uint8Array.length chunk) as Hlb.
  { unfold Uint8Array.bytes. rewrite Hoff, drop_0, length_take. lia. }
  destruct (processPCM16Chunk_spec chunk 0) as (Hlen & Hval & _).
  fold (samples chunk) in Hlen, Hval.
  apply list_eq. intros j.
  destruct (decide (j < Uint8Array.length chunk / 2)) as [Hj|Hj].
  - rewrite Hval by done. apply half_lt in Hj.
    destruct (lookup_lt_is_Some_2 (Uint8Array.buffer chunk) (j * 2))
      as [lo Hlo]; [lia|].
    destruct (lookup_lt_is_Some_2 (Uint8Array.buffer chunk) (j * 2 + 1))
      as [hi Hhi]; [lia|].
    unfold decoded, DataView.getInt16. rewrite Hlo, Hhi. symmetry.
    apply pcm16_to_float_lookup; unfold Uint8Array.bytes;
      rewrite Hoff, drop_0, lookup_take_lt by lia; done.
  - rewrite !lookup_ge_None_2; [done| |lia].
    rewrite pcm16_to_float_length, Hlb. lia.
Qed.

(** Such a window of even length is decoded without any logged error. *)
Lemma processPCM16Chunk_no_error chunk c :
  Uint8Array.wf chunk -> Nat.Even (Uint8Array.length chunk) ->
  snd (_processPCM16Chunk chunk c) = c.
Proof.
  intros Hwf [k Hk]. unfold Uint8Array.wf in Hwf.
  destruct (processPCM16Chunk_spec chunk c) as (_ & _ & ->).
  rewrite filter_all_false; [cbn; lia|].
  intros i [_ Hi]%in_seq. cbn in Hi. apply iterations_lt in Hi.
  destruct (lookup_lt_is_Some_2 (Uint8Array.buffer chunk) (i * 2))
    as [lo Hlo]; [lia|].
  destruct (lookup_lt_is_Some_2 (Uint8Array.buffer chunk) (i * 2 + 1))
    as [hi Hhi]; [lia|].
  unfold failed, DataView.getInt16. rewrite Hlo, Hhi. done.
Qed.

(** * Properties of the block splitter *)

Section Split.
Variable size : nat.
Hypothesis size_pos : 0 < size.

Lemma div_size_step n : size <= n -> n / size = S ((n - size) / size).
Proof.
  intros Hle. replace n with ((n - size) + 1 * size) at 1 by lia.
  rewrite Nat.div_add by lia. lia.
Qed.

Lemma length_concat_uniform (blocks : list (list Q)) :
  Forall (fun b => length b = size) blocks ->
  length (concat blocks) = size * length blocks.
Proof.
  induction 1 as [|b blocks Hb _ IH]; cbn [concat length]; [lia|].
  rewrite length_app, IH, Hb. lia.
Qed.

(** With one unit of fuel per sample the loop always leaves through its
    guard: what remains is shorter than a block. *)
Lemma splitLoop_spec fuel (pb : list Q) (queue : list (list Q)) :
  length pb / size <= fuel ->
  exists blocks rest,
    splitLoop fuel size pb queue = (rest, queue ++ blocks) /\
    concat blocks ++ rest = pb /\
    Forall (fun b => length b = size) blocks /\
    length rest < size.
Proof.
  revert pb queue. induction fuel as [|fuel IH]; intros pb queue Hfuel;
    cbn [splitLoop].
  - exists [], pb. rewrite app_nil_r.
    split; [done|]. split; [done|]. split; [constructor|].
    destruct (decide (length pb < size)) as [|Hge]; [done|].
    rewrite div_size_step in Hfuel by lia. lia.
  - destruct (Nat.leb_spec size (length pb)) as [Hle|Hlt].
    + destruct (IH (drop size pb) (queue ++ [take size pb]))
        as (blocks & rest & Heq & Hcat & Hall & Hrest).
      { rewrite length_drop. rewrite div_size_step in Hfuel by done. lia. }
      exists (take size pb :: blocks), rest.
      rewrite Heq, <- app_assoc. cbn [app concat].
      split; [done|]. split; [|split; [|done]].
      * rewrite <- app_assoc, Hcat. apply take_drop.
      * constructor; [by rewrite length_take_le|done].
    + exists [], pb. rewrite app_nil_r.
      split; [done|]. split; [done|]. split; [constructor|done].
Qed.
End Split.

Lemma bufferSize_pos : 0 < bufferSize.
Proof. unfold bufferSize. lia. Qed.

Lemma enqueue_blocks (pb : list Q) (queue : list (list Q)) :
  exists blocks rest,
    enqueue pb queue =
      queue ++ blocks ++ (if 0 <? length rest then [rest] else []) /\
    concat blocks ++ rest = pb /\
    Forall (fun b => length b = bufferSize) blocks /\
    length rest < bufferSize.
Proof.
  destruct (splitLoop_spec bufferSize bufferSize_pos (length pb) pb queue)
    as (blocks & rest & Heq & Hcat & Hall & Hrest).
  { apply Nat.Div0.div_le_upper_bound. pose proof bufferSize_pos. nia. }
  exists blocks, rest. unfold enqueue. rewrite Heq.
  split; [|done].
  destruct (0 <? length rest); [by rewrite app_assoc|by rewrite app_nil_r].
Qed.

Lemma enqueue_app (pb : list Q) (queue : list (list Q)) :
  enqueue pb queue = queue ++ blocksOf pb.
Proof.
  unfold blocksOf.
  destruct (enqueue_blocks pb queue) as (b1 & r1 & H1 & C1 & F1 & L1).
  destruct (enqueue_blocks pb []) as (b2 & r2 & H2 & C2 & F2 & L2).
  rewrite H1, H2. cbn [app]. f_equal.
  (* both decompositions of [pb] into full blocks and a short rest agree *)
  assert (forall (x y : list (list Q)) (rx ry : list Q),
    Forall (fun b => length b = bufferSize) x ->
    Forall (fun b => length b = bufferSize) y ->
    length rx < bufferSize -> length ry < bufferSize ->
    concat x ++ rx = concat y ++ ry -> x = y /\ rx = ry) as Huniq.
  { clear. induction x as [|a x IH]; intros [|b y] rx ry Hx Hy Lx Ly Heq.
    - cbn in Heq. by subst.
    - inversion Hy; subst. cbn in Heq. subst rx.
      rewrite !length_app in Lx. lia.
    - inversion Hx; subst. cbn in Heq. subst ry.
      rewrite !length_app in Ly. lia.
    - inversion Hx as [|? ? Ha Hx']; inversion Hy as [|? ? Hb Hy']; subst.
      cbn [concat] in Heq. rewrite <- !app_assoc in Heq.
      apply app_inj_1 in Heq as [-> Heq]; [|congruence].
      destruct (IH y rx ry Hx' Hy' Lx Ly Heq) as [-> ->]. done. }
  destruct (Huniq b1 b2 r1 r2) as [-> ->]; [done..|congruence|done].
Qed.

(** Shape of the blocks of one call: they partition the decoded run in
    order, there are [ceil (N / bufferSize)] of them, all but the last
    are full, the last holds the remainder (a full block when there is
    none), and none is empty. *)
Lemma blocksOf_spec (pb : list Q) :
  let N := length pb in
  let blocks := blocksOf pb in
  concat blocks = pb /\
  length blocks = (N + bufferSize - 1) / bufferSize /\
  (forall i b, blocks !! i = Some b -> S i < length blocks ->
     length b = bufferSize) /\
  (forall b, last blocks = Some b ->
     length b =
       if N mod bufferSize =? 0 then bufferSize else N mod bufferSize) /\
  Forall (fun b => 0 < length b) blocks.
Proof.
  cbv zeta. unfold blocksOf.
  destruct (enqueue_blocks pb []) as (full & rest & -> & Hcat & Hfull & Hrest).
  cbn [app]. pose proof bufferSize_pos as Hpos.
  pose proof (length_concat_uniform bufferSize Hpos full Hfull) as Hlen.
  assert (length pb = bufferSize * length full + length rest) as HN.
  { rewrite <- Hcat at 1. rewrite length_app. lia. }
  assert (length pb mod bufferSize = length rest) as Hmod.
  { symmetry. apply (Nat.mod_unique _ _ (length full)); done. }
  rewrite Hmod.
  assert (forall b, b ∈ full -> length b = bufferSize) as Hin
    by (by apply Forall_forall).
  destruct (Nat.ltb_spec 0 (length rest)) as [Hr|Hr].
  - assert ((length rest =? 0) = false) as -> by (apply Nat.eqb_neq; lia).
    split; [by rewrite concat_app; cbn; rewrite app_nil_r|].
    split; [|split; [|split]].
    + rewrite length_app. cbn [length].
      apply (Nat.div_unique _ _ _ (length rest - 1)); [lia|nia].
    + intros i b Hi Hlt. rewrite length_app in Hlt. cbn [length] in Hlt.
      rewrite lookup_app_l in Hi by lia.
      apply Hin. by eapply list_elem_of_lookup_2.
    + intros b. rewrite last_snoc. by intros [= <-].
    + apply Forall_app. split.
      * eapply Forall_impl; [exact Hfull|]. cbn. intros b ->. done.
      * constructor; [done|constructor].
  - assert (rest = []) as -> by (destruct rest; [done|cbn in Hr; lia]).
    rewrite !app_nil_r in *. cbn [length] in *. rewrite Nat.eqb_refl.
    split; [done|]. split; [|split; [|split]].
    + apply (Nat.div_unique _ _ _ (bufferSize - 1)); [lia|nia].
    + intros i b Hi _. apply Hin. by eapply list_elem_of_lookup_2.
    + intros b Hb. apply Hin. by eapply last_Some_elem_of.
    + eapply Forall_impl; [exact Hfull|]. cbn. intros b ->. done.
Qed.

(** * Properties of the scheduler *)

Lemma Qltb_lt a b : Qltb a b = true <-> (a < b)%Q.
Proof.
  unfold Qltb. rewrite negb_true_iff. split.
  - intros H. apply Qnot_le_lt. intros Hle.
    apply Qle_bool_iff in Hle. congruence.
  - intros H. destruct (Qle_bool b a) eqn:E; [|done].
    apply Qle_bool_iff in E. exfalso. by apply (Qlt_not_le a b).
Qed.

Lemma duration_nonneg audioData : (0 <= duration audioData)%Q.
Proof. unfold duration, Qle. cbn. lia. Qed.

Lemma scheduledAt_insert ns i j node :
  scheduledAt (<[ i := node ]> ns) j =
  if decide (i = j)
  then t ← src_start node; Some (src_buffer node, t)
  else scheduledAt ns j.
Proof.
  unfold scheduledAt. rewrite lookup_insert. by case_decide.
Qed.

Lemma scheduledAt_alter f ns i j :
  (forall n, src_start (f n) = src_start n) ->
  (forall n, src_buffer (f n) = src_buffer n) ->
  scheduledAt (alter f i ns) j = scheduledAt ns j.
Proof.
  intros Hs Hb. unfold scheduledAt. rewrite lookup_alter.
  case_decide; [subst|done].
  destruct (ns !! j) as [n|]; cbn; [|done]. by rewrite Hs, Hb.
Qed.

Lemma stopSource_start n : src_start (stopSource n) = src_start n.
Proof. unfold stopSource. by destruct (src_start n) eqn:E. Qed.

Lemma stopSource_buffer n : src_buffer (stopSource n) = src_buffer n.
Proof. unfold stopSource. by destruct (src_start n). Qed.

Lemma scheduledBlocks_ext from to ns ns' :
  (forall i, from <= i < to -> scheduledAt ns' i = scheduledAt ns i) ->
  scheduledBlocks from to ns' = scheduledBlocks from to ns.
Proof.
  intros H. unfold scheduledBlocks.
  assert (forall l : list nat, (forall i, i ∈ l -> from <= i < to) ->
    omap (fun i => fst <$> scheduledAt ns' i) l =
    omap (fun i => fst <$> scheduledAt ns i) l) as Hl.
  { induction l as [|i l IH]; intros Hin; [done|]. cbn.
    rewrite H by (apply Hin; left). rewrite IH; [done|].
    intros k Hk. apply Hin. by right. }
  apply Hl. intros i Hi. apply elem_of_seq in Hi. lia.
Qed.

Lemma scheduledBlocks_snoc from n ns block t :
  from <= n -> scheduledAt ns n = Some (block, t) ->
  scheduledBlocks from (S n) ns = scheduledBlocks from n ns ++ [block].
Proof.
  intros Hle Hn. unfold scheduledBlocks.
  replace (S n - from) with ((n - from) + 1) by lia.
  rewrite seq_app, omap_app. cbn.
  replace (from + (n - from)) with n by lia. by rewrite Hn.
Qed.

Lemma scheduledBlocks_nil n ns : scheduledBlocks n n ns = [].
Proof. unfold scheduledBlocks. by rewrite Nat.sub_diag. Qed.

(** *** One iteration of the loop *)

Section Body.
Variables (now : Q) (s : State) (audioData : list Q) (rest : list (list Q)).
Hypothesis Hqueue : audioQueue s = audioData :: rest.

Local Abbreviation s' := (scheduleBody now s).

Local Ltac body :=
  unfold scheduleBody, disarmed, handlerFor; rewrite Hqueue; cbn;
  destruct rest; cbn; [destruct (endOfQueueAudioSource s)|]; reflexivity.

Lemma body_audioQueue : audioQueue s' = rest.
Proof. body. Qed.
Lemma body_nextNode : nextNode s' = S (nextNode s).
Proof. body. Qed.
Lemma body_scheduledTime :
  scheduledTime s' = (Qmax (scheduledTime s) now + duration audioData)%Q.
Proof. body. Qed.
Lemma body_activeSources :
  activeSources s' = {[ nextNode s ]} ∪ activeSources s.
Proof. body. Qed.
Lemma body_endOfQueueAudioSource :
  endOfQueueAudioSource s' =
  match rest with [] => Some (nextNode s) | _ => endOfQueueAudioSource s end.
Proof. body. Qed.
Lemma body_nodes :
  nodes s' =
  <[ nextNode s :=
       mkSource audioData (handlerFor rest)
         (Some (Qmax (scheduledTime s) now)) false ]> (disarmed rest s).
Proof. body. Qed.
Lemma body_isPlaying : isPlaying s' = isPlaying s.
Proof. body. Qed.
Lemma body_isStreamComplete : isStreamComplete s' = isStreamComplete s.
Proof. body. Qed.
Lemma body_checkInterval : checkInterval s' = checkInterval s.
Proof. body. Qed.
Lemma body_intervals : intervals s' = intervals s.
Proof. body. Qed.
Lemma body_nextTimer : nextTimer s' = nextTimer s.
Proof. body. Qed.
Lemma body_timeouts : timeouts s' = timeouts s.
Proof. body. Qed.
Lemma body_completions : completions s' = completions s.
Proof. body. Qed.
Lemma body_console : console s' = console s.
Proof. body. Qed.
Lemma body_gainNode : gainNode s' = gainNode s.
Proof. body. Qed.
Lemma body_keepAliveOscillator :
  keepAliveOscillator s' = keepAliveOscillator s.
Proof. body. Qed.
Lemma body_padGain : padGain s' = padGain s.
Proof. body. Qed.
Lemma body_padOscillators : padOscillators s' = padOscillators s.
Proof. body. Qed.
Lemma body_padFilter : padFilter s' = padFilter s.
Proof. body. Qed.
Lemma body_padTimeouts : padTimeouts s' = padTimeouts s.
Proof. body. Qed.

Lemma body_scheduledAt_old i :
  i <> nextNode s -> scheduledAt (nodes s') i = scheduledAt (nodes s) i.
Proof.
  intros Hne. rewrite body_nodes, scheduledAt_insert.
  rewrite decide_False by done. unfold disarmed.
  destruct rest; [|done].
  destruct (endOfQueueAudioSource s); [|done].
  by apply scheduledAt_alter.
Qed.

Lemma body_scheduledAt_new :
  scheduledAt (nodes s') (nextNode s) =
  Some (audioData, Qmax (scheduledTime s) now).
Proof.
  rewrite body_nodes, scheduledAt_insert. by rewrite decide_True.
Qed.
End Body.

(** *** The loop *)

(** Anything an iteration preserves, the loop preserves. *)
Lemma scheduleLoop_preserves (R : State -> Prop) now :
  (forall s audioData rest,
     audioQueue s = audioData :: rest -> R s -> R (scheduleBody now s)) ->
  forall fuel s, R s -> R (scheduleLoop fuel now s).
Proof.
  intros Hbody. induction fuel as [|fuel IH]; intros s HR; cbn; [done|].
  destruct (audioQueue s) as [|audioData rest] eqn:Hq; [done|].
  destruct (Qltb _ _); [|done]. apply IH. by eapply Hbody.
Qed.


(** *** Operations that leave the schedule alone *)

Local Ltac crush_op :=
  repeat match goal with
         | |- context [match ?x with _ => _ end] => destruct x eqn:?
         end;
  cbn; repeat split; intros; try reflexivity; try congruence.

Lemma rearm_same_schedule s : same_schedule s (rearm s).
Proof. unfold same_schedule, rearm. crush_op. Qed.

Lemma complete_same_schedule s : same_schedule s (complete s).
Proof. unfold same_schedule, complete. crush_op. Qed.

Lemma onended_same_schedule source s : same_schedule s (onended source s).
Proof. unfold same_schedule, onended. crush_op. Qed.

Lemma startPad_same_schedule volume now random s :
  same_schedule s (startPad volume now random s).
Proof. unfold same_schedule, startPad. crush_op. Qed.

Lemma setPadVolume_same_schedule volume now s :
  same_schedule s (setPadVolume volume now s).
Proof. unfold same_schedule, setPadVolume. crush_op. Qed.

Lemma stopPad_same_schedule now s : same_schedule s (stopPad now s).
Proof. unfold same_schedule, stopPad. crush_op. Qed.

Lemma padTeardown_same_schedule s : same_schedule s (padTeardown s).
Proof. unfold same_schedule, padTeardown. crush_op. Qed.

Lemma same_schedule_refl s : same_schedule s s.
Proof. by repeat split. Qed.

Lemma same_schedule_trans s1 s2 s3 :
  same_schedule s1 s2 -> same_schedule s2 s3 -> same_schedule s1 s3.
Proof.
  intros (A1 & B1 & C1 & D1) (A2 & B2 & C2 & D2).
  repeat split; [congruence..|]. intros i. by rewrite D2, D1.
Qed.

(** *** Conservation of blocks *)

Lemma pending_ext base s s' :
  nextNode s' = nextNode s -> audioQueue s' = audioQueue s ->
  (forall i, scheduledAt (nodes s') i = scheduledAt (nodes s) i) ->
  pending base s' = pending base s.
Proof.
  intros Hn Hq Hat. unfold pending. rewrite Hn, Hq. f_equal.
  apply scheduledBlocks_ext. intros i _. apply Hat.
Qed.

Lemma pending_same_schedule base s s' :
  same_schedule s s' -> pending base s' = pending base s.
Proof. intros (Hn & _ & Hq & Hat). by apply pending_ext. Qed.

Lemma scheduleBody_pending base now s audioData rest :
  audioQueue s = audioData :: rest -> base <= nextNode s ->
  pending base (scheduleBody now s) = pending base s.
Proof.
  intros Hq Hbase. unfold pending.
  rewrite (body_audioQueue now s _ _ Hq), (body_nextNode now s _ _ Hq), Hq.
  rewrite (scheduledBlocks_snoc base (nextNode s) _ audioData
             (Qmax (scheduledTime s) now)); [|done|].
  - rewrite <- app_assoc. cbn. f_equal. apply scheduledBlocks_ext.
    intros i Hi. apply (body_scheduledAt_old now s _ _ Hq). lia.
  - apply (body_scheduledAt_new now s _ _ Hq).
Qed.

Lemma scheduleLoop_pending base fuel now s :
  base <= nextNode s ->
  let s' := scheduleLoop fuel now s in
  nextNode s <= nextNode s' /\ pending base s' = pending base s.
Proof.
  intros Hbase.
  apply (scheduleLoop_preserves
           (fun s' => nextNode s <= nextNode s' /\
                      pending base s' = pending base s)); [|by split].
  intros s1 audioData rest Hq [Hle Hp].
  rewrite (body_nextNode now s1 _ _ Hq). split; [lia|].
  rewrite <- Hp. eapply scheduleBody_pending; [done|lia].
Qed.

Lemma scheduleNextBuffer_pending base now s :
  base <= nextNode s ->
  let s' := scheduleNextBuffer now s in
  nextNode s <= nextNode s' /\ pending base s' = pending base s.
Proof.
  intros Hbase. unfold scheduleNextBuffer. cbv zeta.
  destruct (scheduleLoop_pending base (S (length (audioQueue s))) now s Hbase)
    as [Hle Hp].
  pose proof (rearm_same_schedule
                (scheduleLoop (S (length (audioQueue s))) now s)) as Hsame.
  rewrite (pending_same_schedule base _ _ Hsame).
  destruct Hsame as (-> & _). done.
Qed.

(** *** Ingest *)

Lemma addPCM16_unfold chunk now s :
  addPCM16 chunk now s =
  let s1 :=
    set_audioQueue (audioQueue s ++ blocksOf (samples chunk))
      (set_console (snd (_processPCM16Chunk chunk (console s)))
         (set_isStreamComplete false s)) in
  if isPlaying s then s1
  else scheduleNextBuffer now
         (set_scheduledTime (now + initialBufferTime)
            (set_isPlaying true s1)).
Proof.
  unfold addPCM16. cbn [console set_isStreamComplete].
  pose proof (processPCM16Chunk_fst chunk (console s)) as Hfst.
  destruct (_processPCM16Chunk chunk (console s)) as [pb errors].
  cbn in Hfst. subst pb. cbn. by rewrite enqueue_app.
Qed.

Lemma addPCM16_pending base chunk now s :
  base <= nextNode s ->
  let s' := addPCM16 chunk now s in
  nextNode s <= nextNode s' /\
  pending base s' = pending base s ++ blocksOf (samples chunk).
Proof.
  intros Hbase. cbv zeta. rewrite addPCM16_unfold. cbv zeta.
  destruct (isPlaying s).
  - split; [done|]. unfold pending. cbn. by rewrite app_assoc.
  - match goal with |- context [scheduleNextBuffer now ?x] => set (s2 := x) end.
    destruct (scheduleNextBuffer_pending base now s2 Hbase) as [Hle ->].
    split; [exact Hle|]. unfold pending. cbn. by rewrite app_assoc.
Qed.

Lemma step_pending base s op :
  base <= nextNode s -> isStop op = false ->
  nextNode s <= nextNode (step s op) /\
  pending base (step s op) = pending base s ++ ingestedBy op.
Proof.
  intros Hbase Hstop.
  assert (forall s', same_schedule s s' ->
    nextNode s <= nextNode s' /\ pending base s' = pending base s ++ [])
    as Hsame.
  { intros s' H. rewrite (pending_same_schedule base s s' H), app_nil_r.
    destruct H as (-> & _). done. }
  destruct op; cbn [step ingestedBy]; try done.
  - by apply addPCM16_pending.
  - rewrite app_nil_r. split; [done|]. by apply pending_ext.
  - apply Hsame, complete_same_schedule.
  - apply Hsame, startPad_same_schedule.
  - apply Hsame, setPadVolume_same_schedule.
  - apply Hsame, stopPad_same_schedule.
  - apply Hsame, onended_same_schedule.
  - case_decide; [|apply Hsame, same_schedule_refl].
    unfold onInterval.
    destruct (audioQueue s) eqn:Hq; [apply Hsame, same_schedule_refl|].
    rewrite app_nil_r. by apply scheduleNextBuffer_pending.
  - destruct (timeouts s) as [|n] eqn:Ht; [apply Hsame, same_schedule_refl|].
    rewrite app_nil_r.
    destruct (scheduleNextBuffer_pending base now (set_timeouts n s) Hbase)
      as [Hle ->].
    split; [exact Hle|]. by apply pending_ext.
  - destruct (padTimeouts s) as [|n]; [apply Hsame, same_schedule_refl|].
    apply Hsame.
    apply (same_schedule_trans _ (set_padTimeouts n s));
      [by repeat split|apply padTeardown_same_schedule].
Qed.

Lemma run_pending base ops s :
  base <= nextNode s -> Forall (fun op => isStop op = false) ops ->
  nextNode s <= nextNode (run s ops) /\
  pending base (run s ops) = pending base s ++ concat (map ingestedBy ops).
Proof.
  intros Hbase Hops. revert s Hbase.
  induction Hops as [|op ops Hop _ IH]; intros s Hbase; cbn.
  - by rewrite app_nil_r.
  - destruct (step_pending base s op Hbase Hop) as [Hle Hstep].
    destruct (IH (step s op)) as [Hle' Hrun]; [lia|].
    fold (run (step s op) ops). split; [lia|].
    rewrite Hrun, Hstep. by rewrite app_assoc.
Qed.

(** *** Start times between two re-primings of the cursor *)

Lemma ordered_ext base s s' :
  nextNode s' = nextNode s -> scheduledTime s' = scheduledTime s ->
  (forall i, scheduledAt (nodes s') i = scheduledAt (nodes s) i) ->
  ordered base s -> ordered base s'.
Proof.
  intros Hn Ht Hat [Hmono Hend]. split.
  - intros i j bi ti bj tj Hi Hij Hj. rewrite !Hat, Hn in *. by eapply Hmono.
  - intros i bi ti Hi Hlt. rewrite Hat, Hn, Ht in *. by eapply Hend.
Qed.

Lemma ordered_same_schedule base s s' :
  same_schedule s s' -> ordered base s -> ordered base s'.
Proof. intros (Hn & Ht & _ & Hat). by apply ordered_ext. Qed.

Lemma scheduleBody_ordered base now s audioData rest :
  audioQueue s = audioData :: rest ->
  ordered base s -> ordered base (scheduleBody now s).
Proof.
  intros Hq [Hmono Hend].
  pose proof (body_scheduledAt_new now s _ _ Hq) as Hnew.
  pose proof (body_scheduledAt_old now s _ _ Hq) as Hold.
  pose proof (Q.le_max_l (scheduledTime s) now) as Hmax.
  pose proof (duration_nonneg audioData) as Hdur.
  split.
  - intros i j bi ti bj tj Hi Hij Hj Hati Hatj.
    rewrite (body_nextNode now s _ _ Hq) in Hj.
    destruct (decide (j = nextNode s)) as [->|Hjn].
    + rewrite Hnew in Hatj. simplify_eq.
      destruct (decide (i = nextNode s)) as [->|Hin].
      * rewrite Hnew in Hati. simplify_eq. apply Qle_refl.
      * rewrite Hold in Hati by done.
        pose proof (Hend i bi ti Hi ltac:(lia) Hati).
        pose proof (duration_nonneg bi). lra.
    + rewrite Hold in Hati, Hatj by lia.
      eapply (Hmono i j); [done..|lia|done|done].
  - intros i bi ti Hi Hlt Hati.
    rewrite (body_nextNode now s _ _ Hq) in Hlt.
    rewrite (body_scheduledTime now s _ _ Hq).
    destruct (decide (i = nextNode s)) as [->|Hin].
    + rewrite Hnew in Hati. simplify_eq. apply Qle_refl.
    + rewrite Hold in Hati by done.
      pose proof (Hend i bi ti Hi ltac:(lia) Hati). lra.
Qed.

Lemma scheduleNextBuffer_ordered base now s :
  ordered base s -> ordered base (scheduleNextBuffer now s).
Proof.
  intros Hord. unfold scheduleNextBuffer.
  eapply ordered_same_schedule; [apply rearm_same_schedule|].
  apply scheduleLoop_preserves; [|done].
  intros s1 audioData rest Hq H1. by eapply scheduleBody_ordered.
Qed.

Lemma step_ordered base s op :
  reprimes s op = false -> ordered base s -> ordered base (step s op).
Proof.
  intros Hre Hord. destruct op; cbn [step].
  - cbn in Hre. apply negb_false_iff in Hre.
    rewrite addPCM16_unfold. cbv zeta. rewrite Hre.
    by eapply ordered_ext; [..|exact Hord].
  - done.
  - done.
  - eapply ordered_same_schedule; [apply complete_same_schedule|done].
  - eapply ordered_same_schedule; [apply startPad_same_schedule|done].
  - eapply ordered_same_schedule; [apply setPadVolume_same_schedule|done].
  - eapply ordered_same_schedule; [apply stopPad_same_schedule|done].
  - eapply ordered_same_schedule; [apply onended_same_schedule|done].
  - case_decide; [|done]. unfold onInterval.
    destruct (audioQueue s); [done|]. by apply scheduleNextBuffer_ordered.
  - destruct (timeouts s) as [|n]; [done|].
    apply scheduleNextBuffer_ordered. by eapply ordered_ext; [..|exact Hord].
  - destruct (padTimeouts s) as [|n]; [done|].
    eapply ordered_same_schedule; [apply padTeardown_same_schedule|].
    by eapply ordered_ext; [..|exact Hord].
Qed.

Lemma run_ordered base ops s :
  steady s ops -> ordered base s -> ordered base (run s ops).
Proof.
  revert s. induction ops as [|op ops IH]; intros s Hsteady Hord; [done|].
  destruct Hsteady as [Hre Hsteady]. cbn. apply IH; [done|].
  by apply step_ordered.
Qed.

Lemma ordered_fresh s : ordered (nextNode s) s.
Proof. split; intros; lia. Qed.

(** * Properties of [stop] *)

(** The [forEach] of [stop] calls [stop()] on exactly the nodes of the
    set. *)
Lemma stop_all_lookup (X : gset nat) (ns : gmap nat AudioBufferSourceNode) id :
  set_fold (fun source r => alter stopSource source r) ns X !! id =
  if decide (id ∈ X) then stopSource <$> ns !! id else ns !! id.
Proof.
  revert id.
  pose proof (set_fold_ind_L
           (fun r (Y : gset nat) => forall id,
              r !! id =
              if decide (id ∈ Y) then stopSource <$> ns !! id else ns !! id)
           (fun source r => alter stopSource source r) ns) as Hind.
  cbv beta in Hind. apply Hind; clear Hind.
  - intros id. by rewrite decide_False by set_solver.
  - intros x Y r Hx IH id. rewrite lookup_alter.
    destruct (decide (x = id)) as [->|Hne].
    + rewrite decide_True by set_solver.
      rewrite IH, decide_False by done. done.
    + rewrite IH.
      destruct (decide (id ∈ Y)), (decide (id ∈ {[x]} ∪ Y)); try done;
        set_solver.
Qed.

Section Stop.
Variables (now : Q) (s : State).
Local Abbreviation s' := (stop now s).

Local Ltac stop_field :=
  unfold stop; state_simpl; destruct (checkInterval s) eqn:E; state_simpl;
  rewrite ?E; reflexivity.

Lemma stop_isPlaying : isPlaying s' = false.
Proof. stop_field. Qed.
Lemma stop_isStreamComplete : isStreamComplete s' = true.
Proof. stop_field. Qed.
Lemma stop_audioQueue : audioQueue s' = [].
Proof. stop_field. Qed.
Lemma stop_activeSources : activeSources s' = ∅.
Proof. stop_field. Qed.
Lemma stop_scheduledTime : scheduledTime s' = now.
Proof. stop_field. Qed.
Lemma stop_checkInterval : checkInterval s' = None.
Proof. stop_field. Qed.
Lemma stop_intervals :
  intervals s' =
  match checkInterval s with
  | Some id => intervals s ∖ {[ id ]}
  | None => intervals s
  end.
Proof. stop_field. Qed.
Lemma stop_nodes :
  nodes s' =
  set_fold (fun source r => alter stopSource source r)
    (nodes s) (activeSources s).
Proof. stop_field. Qed.
Lemma stop_gainNode : gainNode s' = gainNode s.
Proof. stop_field. Qed.
Lemma stop_keepAliveOscillator :
  keepAliveOscillator s' = keepAliveOscillator s.
Proof. stop_field. Qed.
Lemma stop_padGain : padGain s' = padGain s.
Proof. stop_field. Qed.
Lemma stop_padOscillators : padOscillators s' = padOscillators s.
Proof. stop_field. Qed.
Lemma stop_padFilter : padFilter s' = padFilter s.
Proof. stop_field. Qed.
Lemma stop_padTimeouts : padTimeouts s' = padTimeouts s.
Proof. stop_field. Qed.
Lemma stop_endOfQueueAudioSource :
  endOfQueueAudioSource s' = endOfQueueAudioSource s.
Proof. stop_field. Qed.
Lemma stop_nextNode : nextNode s' = nextNode s.
Proof. stop_field. Qed.
Lemma stop_nextTimer : nextTimer s' = nextTimer s.
Proof. stop_field. Qed.
Lemma stop_timeouts : timeouts s' = timeouts s.
Proof. stop_field. Qed.
Lemma stop_completions : completions s' = completions s.
Proof. stop_field. Qed.
Lemma stop_console : console s' = console s.
Proof. stop_field. Qed.

Lemma stop_scheduledAt i :
  scheduledAt (nodes s') i = scheduledAt (nodes s) i.
Proof.
  rewrite stop_nodes. unfold scheduledAt. rewrite stop_all_lookup.
  case_decide; [|done].
  destruct (nodes s !! i) as [n|]; cbn; [|done].
  by rewrite stopSource_start, stopSource_buffer.
Qed.
End Stop.

(** * Invariants of reachable states *)

Lemma Inv_init : Inv init.
Proof.
  split; [|split].
  - intros id Hid. cbn in Hid. set_solver.
  - done.
  - constructor.
Qed.

Lemma scheduleBody_Inv now s audioData rest :
  audioQueue s = audioData :: rest -> Inv s -> Inv (scheduleBody now s).
Proof.
  intros Hq (Hst & Hint & Hne). split; [|split].
  - intros id. rewrite (body_activeSources now s _ _ Hq).
    destruct (decide (id = nextNode s)) as [->|Hid].
    + intros _. by rewrite (body_scheduledAt_new now s _ _ Hq).
    + intros Hin. rewrite (body_scheduledAt_old now s _ _ Hq) by done.
      apply Hst. set_solver.
  - unfold one_interval.
    by rewrite (body_intervals now s _ _ Hq), (body_checkInterval now s _ _ Hq).
  - unfold blocks_nonempty in *. rewrite (body_audioQueue now s _ _ Hq).
    rewrite Hq in Hne. by inversion Hne.
Qed.

Lemma rearm_activeSources s : activeSources (rearm s) = activeSources s.
Proof.
  unfold rearm.
  destruct (audioQueue s); [destruct (isStreamComplete s)|];
    destruct (checkInterval s) eqn:Hc; state_simpl; rewrite ?Hc; reflexivity.
Qed.

Lemma rearm_one_interval s : one_interval s -> one_interval (rearm s).
Proof.
  unfold one_interval, rearm. intros Hint.
  destruct (audioQueue s); [destruct (isStreamComplete s)|];
    destruct (checkInterval s) eqn:Hc; state_simpl; rewrite ?Hc, ?Hint;
    try done; set_solver.
Qed.

Lemma rearm_Inv s : Inv s -> Inv (rearm s).
Proof.
  intros (Hst & Hint & Hne).
  destruct (rearm_same_schedule s) as (_ & _ & Hq & Hat).
  split; [|split].
  - intros id. rewrite rearm_activeSources, Hat. apply Hst.
  - by apply rearm_one_interval.
  - unfold blocks_nonempty. by rewrite Hq.
Qed.

Lemma scheduleNextBuffer_Inv now s : Inv s -> Inv (scheduleNextBuffer now s).
Proof.
  intros H. unfold scheduleNextBuffer. apply rearm_Inv.
  apply scheduleLoop_preserves; [|done].
  intros s1 audioData rest Hq H1. by eapply scheduleBody_Inv.
Qed.

Lemma step_Inv s op : Inv s -> Inv (step s op).
Proof.
  intros HI. pose proof HI as (Hst & Hint & Hne).
  destruct op; cbn [step].
  - rewrite addPCM16_unfold. cbv zeta.
    assert (forall s1, activeSources s1 = activeSources s ->
              nodes s1 = nodes s -> intervals s1 = intervals s ->
              checkInterval s1 = checkInterval s ->
              audioQueue s1 = audioQueue s ++ blocksOf (samples chunk) ->
              Inv s1) as Hs1.
    { intros s1 Ha Hn Hi Hc Hq. split; [|split].
      - intros id. rewrite Ha, Hn. apply Hst.
      - unfold one_interval. by rewrite Hi, Hc.
      - unfold blocks_nonempty. rewrite Hq. apply Forall_app. split; [done|].
        apply blocksOf_spec. }
    destruct (isPlaying s); [by apply Hs1|].
    apply scheduleNextBuffer_Inv. by apply Hs1.
  - split; [|split].
    + intros id. rewrite stop_activeSources. set_solver.
    + unfold one_interval. rewrite stop_intervals, stop_checkInterval.
      unfold one_interval in Hint.
      destruct (checkInterval s); rewrite Hint; set_solver.
    + unfold blocks_nonempty. rewrite stop_audioQueue. constructor.
  - exact HI.
  - exact HI.
  - unfold startPad. destruct (padGain s); exact HI.
  - unfold setPadVolume. destruct (padGain s); exact HI.
  - unfold stopPad. destruct (padGain s); exact HI.
  - unfold onended.
    destruct (src_onended <$> nodes s !! source) as [[| |]|]; try exact HI.
    + assert (Inv (set_activeSources (activeSources s ∖ {[source]}) s)) as HI'.
      { split; [|done]. intros id Hid. apply Hst. cbn in Hid. set_solver. }
      cbn. destruct (audioQueue s); [|exact HI'].
      case_decide; exact HI'.
    + split; [|done]. intros id Hid. apply Hst. cbn in Hid. set_solver.
  - case_decide; [|done]. unfold onInterval.
    destruct (audioQueue s); [done|]. by apply scheduleNextBuffer_Inv.
  - destruct (timeouts s); [done|]. by apply scheduleNextBuffer_Inv.
  - destruct (padTimeouts s); exact HI.
Qed.

Lemma run_Inv ops s : Inv s -> Inv (run s ops).
Proof.
  revert s. induction ops as [|op ops IH]; intros s HI; [done|].
  cbn. apply IH. by apply step_Inv.
Qed.

(** * What a scheduling pass leaves alone *)

Lemma scheduleLoop_frame fuel now s :
  frame (scheduleLoop fuel now s) = frame s.
Proof.
  apply (scheduleLoop_preserves (fun s' => frame s' = frame s)); [|done].
  intros s1 audioData rest Hq <-. unfold frame.
  rewrite (body_isPlaying now s1 _ _ Hq), (body_isStreamComplete now s1 _ _ Hq),
    (body_checkInterval now s1 _ _ Hq), (body_intervals now s1 _ _ Hq),
    (body_nextTimer now s1 _ _ Hq), (body_timeouts now s1 _ _ Hq),
    (body_completions now s1 _ _ Hq), (body_console now s1 _ _ Hq),
    (body_gainNode now s1 _ _ Hq), (body_keepAliveOscillator now s1 _ _ Hq),
    (body_padGain now s1 _ _ Hq), (body_padOscillators now s1 _ _ Hq),
    (body_padFilter now s1 _ _ Hq), (body_padTimeouts now s1 _ _ Hq).
  done.
Qed.

Lemma rearm_passive s : passive (rearm s) = passive s.
Proof.
  unfold rearm, passive.
  destruct (audioQueue s); [destruct (isStreamComplete s) eqn:E|];
    destruct (checkInterval s) eqn:Hc; state_simpl; rewrite ?Hc;
    state_simpl; rewrite ?E; reflexivity.
Qed.

Lemma scheduleNextBuffer_passive now s :
  passive (scheduleNextBuffer now s) = passive s.
Proof.
  unfold scheduleNextBuffer. rewrite rearm_passive.
  pose proof (scheduleLoop_frame (S (length (audioQueue s))) now s) as H.
  unfold frame in H. unfold passive. injection H; intros; congruence.
Qed.

(** A pass started on a stream that is not complete leaves the loop
    running. *)
Lemma scheduleNextBuffer_isPlaying now s :
  isStreamComplete s = false ->
  isPlaying (scheduleNextBuffer now s) = isPlaying s.
Proof.
  intros Hc. unfold scheduleNextBuffer.
  pose proof (scheduleLoop_frame (S (length (audioQueue s))) now s) as H.
  unfold frame in H.
  set (s1 := scheduleLoop (S (length (audioQueue s))) now s) in *.
  assert (isPlaying s1 = isPlaying s) as <-
    by (injection H; intros; congruence).
  assert (isStreamComplete s1 = false) as Hc1
    by (injection H; intros; congruence).
  unfold rearm. rewrite Hc1.
  destruct (audioQueue s1); [destruct (checkInterval s1)|]; reflexivity.
Qed.

(** * Main results *)

(** ** Lifecycle: [stop] *)

(** C6.  After [stop()] called at time [now] in any reachable state:
    [isPlaying] is false, [isStreamComplete] is true, the queue is empty,
    [stop()] has taken effect on every node that was in the active set,
    the active set is empty, the cursor equals [now], [checkInterval] is
    null and no interval timer is left running.  (A one-shot timer armed
    by an earlier pass is not a recheck timer; it stays pending.) *)
Theorem stop_postconditions (ops : list Op) (now : Q) :
  let s := run init ops in
  let s' := stop now s in
  isPlaying s' = false /\
  isStreamComplete s' = true /\
  audioQueue s' = [] /\
  (forall id, id ∈ activeSources s ->
     exists n, nodes s' !! id = Some n /\ src_stopped n = true) /\
  activeSources s' = ∅ /\
  scheduledTime s' = now /\
  checkInterval s' = None /\
  intervals s' = ∅.
Proof.
  cbv zeta. destruct (run_Inv ops init Inv_init) as (Hst & Hint & _).
  set (s := run init ops) in *.
  split; [apply stop_isPlaying|]. split; [apply stop_isStreamComplete|].
  split; [apply stop_audioQueue|]. split; [|split; [apply stop_activeSources|]].
  - intros id Hid. rewrite stop_nodes, stop_all_lookup, decide_True by done.
    destruct (Hst id Hid) as [[b t] Hat]. unfold scheduledAt in Hat.
    destruct (nodes s !! id) as [n|]; [|done]. cbn in Hat.
    destruct (src_start n) as [t'|] eqn:Hstart; [|done].
    exists (stopSource n). split; [done|].
    unfold stopSource. by rewrite Hstart.
  - split; [apply stop_scheduledTime|]. split; [apply stop_checkInterval|].
    rewrite stop_intervals. unfold one_interval in Hint.
    destruct (checkInterval s); rewrite Hint; set_solver.
Qed.

(** C7.  [stop()] changes nothing of the ambient pad (its gain node with
    the ramps scheduled on it, its oscillators, its filter, a pending
    teardown) nor of the shared gain stage and the keep-alive oscillator.
    Besides the queue, the active set, the two flags, the cursor and the
    recheck timer, the only thing it touches is the nodes of the active
    set, on which it calls [stop()]. *)
Theorem stop_frame (now : Q) (s : State) :
  let s' := stop now s in
  padGain s' = padGain s /\
  padOscillators s' = padOscillators s /\
  padFilter s' = padFilter s /\
  padTimeouts s' = padTimeouts s /\
  gainNode s' = gainNode s /\
  keepAliveOscillator s' = keepAliveOscillator s /\
  endOfQueueAudioSource s' = endOfQueueAudioSource s /\
  nextNode s' = nextNode s /\
  nextTimer s' = nextTimer s /\
  timeouts s' = timeouts s /\
  completions s' = completions s /\
  console s' = console s /\
  (forall id, nodes s' !! id =
     if decide (id ∈ activeSources s)
     then stopSource <$> nodes s !! id else nodes s !! id).
Proof.
  cbv zeta.
  repeat match goal with |- _ /\ _ => split end;
    first [ apply stop_padGain | apply stop_padOscillators
          | apply stop_padFilter | apply stop_padTimeouts
          | apply stop_gainNode | apply stop_keepAliveOscillator
          | apply stop_endOfQueueAudioSource | apply stop_nextNode
          | apply stop_nextTimer | apply stop_timeouts
          | apply stop_completions | apply stop_console | idtac ].
  intros id. rewrite stop_nodes. apply stop_all_lookup.
Qed.

(** ** Ambient pad *)

Lemma startPad_running volume now random s :
  padGain s <> None -> startPad volume now random s = s.
Proof. unfold startPad. by destruct (padGain s). Qed.

Lemma startPad_starts volume now random s :
  padGain (startPad volume now random s) <> None.
Proof.
  unfold startPad. by destruct (padGain s) eqn:E; state_simpl; rewrite ?E.
Qed.

(** C9.  In a state where the pad is running, [startPad] returns the
    state it was given: no gain node, filter or oscillator is created and
    no ramp is scheduled.  Hence a second [startPad] right after a first
    one has no effect, whatever the two volumes are. *)
Theorem startPad_idempotent (s : State) (v1 n1 : Q) (r1 : nat -> Q)
    (v2 n2 : Q) (r2 : nat -> Q) :
  (padGain s <> None -> startPad v2 n2 r2 s = s) /\
  startPad v2 n2 r2 (startPad v1 n1 r1 s) = startPad v1 n1 r1 s.
Proof.
  split; [apply startPad_running|].
  apply startPad_running, startPad_starts.
Qed.

Lemma startPad_idempotent_witness :
  padGain padStarted <> None /\
  length (padOscillators padStarted) = 3 /\
  startPad (1 # 10) 1 (fun _ => 0%Q) padStarted = padStarted.
Proof.
  split; [discriminate|]. split; [reflexivity|].
  apply (proj1 (startPad_idempotent padStarted 0 0 (fun _ => 0%Q)
                  (1 # 10) 1 (fun _ => 0%Q))).
  discriminate.
Defined.

(** ** The completion callback *)

Lemma scheduleNextBuffer_completions now s :
  completions (scheduleNextBuffer now s) = completions s.
Proof.
  pose proof (scheduleNextBuffer_passive now s) as H.
  unfold passive in H. state_simpl_in H. injection H; intros; congruence.
Qed.

Lemma addPCM16_completions chunk now s :
  completions (addPCM16 chunk now s) = completions s.
Proof.
  rewrite addPCM16_unfold. cbv zeta. destruct (isPlaying s); [done|].
  by rewrite scheduleNextBuffer_completions.
Qed.

(** C1, as stated, fails.  After two ingests (the second while the first
    block is playing) one block is still queued and node 0 is in the
    active set, started and not stopped; [complete()] invokes
    [onComplete] all the same. *)
Lemma complete_fires_during_playback :
  let s := run init [OpAddPCM16 chunk3 0; OpAddPCM16 chunk3 (1 # 100)] in
  audioQueue s = [samples chunk3] /\
  activeSources s = {[ 0 ]} /\
  src_stopped <$> nodes s !! 0 = Some false /\
  completions s = 0 /\
  completions (step s OpComplete) = 1.
Proof. vm_compute. repeat split. Qed.

(** C1, amended.  [onComplete] is invoked by exactly two things: every
    [complete()] call, unconditionally; and the [ended] notification of
    the node that is the current end-of-queue marker and still carries
    the end-of-queue hook, when the queue is empty.  Each invokes it
    once.  Nothing else does: not [stop()], not an ingest, not
    [resume()], not a pad operation, not a timer callback, not the
    [ended] notification of any other node or with a non-empty queue. *)
Theorem onComplete_sources (s : State) (op : Op) :
  let fires :=
    op = OpComplete \/
    exists source,
      op = OpEnded source /\ audioQueue s = [] /\
      endOfQueueAudioSource s = Some source /\
      src_onended <$> nodes s !! source = Some HEndOfQueue in
  (fires -> completions (step s op) = S (completions s)) /\
  (~ fires -> completions (step s op) = completions s).
Proof.
  cbv zeta. split.
  - intros [->|(source & -> & Hq & Hmark & Hh)]; cbn [step]; [done|].
    unfold onended. rewrite Hh. state_simpl. rewrite Hq.
    by rewrite decide_True.
  - intros Hno. destruct op; cbn [step].
    + apply addPCM16_completions.
    + apply stop_completions.
    + done.
    + exfalso. apply Hno. by left.
    + unfold startPad. by destruct (padGain s).
    + unfold setPadVolume. by destruct (padGain s).
    + unfold stopPad. by destruct (padGain s).
    + unfold onended.
      destruct (src_onended <$> nodes s !! source) as [[| |]|] eqn:Hh;
        try done.
      state_simpl. destruct (audioQueue s) eqn:Hq; [|done].
      case_decide as Hmark; [|done].
      exfalso. apply Hno. right. by exists source.
    + case_decide; [|done]. unfold onInterval.
      destruct (audioQueue s); [done|]. apply scheduleNextBuffer_completions.
    + destruct (timeouts s); [done|]. by rewrite scheduleNextBuffer_completions.
    + by destruct (padTimeouts s).
Qed.

Lemma onComplete_sources_witness :
  let s := run init [OpAddPCM16 chunk3 0] in
  endOfQueueAudioSource s = Some 0 /\
  completions (step s (OpEnded 0)) = S (completions s) /\
  completions (step s (OpStop 1)) = completions s.
Proof.
  cbv zeta. split; [reflexivity|]. split.
  - apply (proj1 (onComplete_sources _ (OpEnded 0))).
    right. exists 0. by vm_compute.
  - apply (proj2 (onComplete_sources _ (OpStop 1))).
    intros [?|(source & ? & _)]; discriminate.
Defined.

(** ** The active set *)

(** C2, the code evaluated where it departs from the claim.  Two chunks
    are ingested, the second while the first block plays; the recheck
    timer schedules the second block, whose node 1 replaces node 0 as
    end-of-queue marker and clears node 0's hook.  When node 0 then
    finishes, nothing removes it from the active set: it is still there
    after both nodes have finished and [onComplete] has fired. *)
Theorem superseded_marker_stays_active :
  let s :=
    run init [OpAddPCM16 chunk3 0; OpAddPCM16 chunk3 (1 # 100);
              OpInterval 1 (1 # 10)] in
  endOfQueueAudioSource s = Some 1 /\
  src_onended <$> nodes s !! 0 = Some HNull /\
  activeSources s = {[ 0; 1 ]} /\
  activeSources (step s (OpEnded 0)) = {[ 0; 1 ]} /\
  activeSources (run s [OpEnded 0; OpEnded 1]) = {[ 0 ]} /\
  completions (run s [OpEnded 0; OpEnded 1]) = 1.
Proof. vm_compute. repeat split. Qed.

(** ** Decoding *)

(** C3, the code evaluated where it departs from the claim.  The chunk
    is the two-byte window [02 00] at offset 2 of the buffer
    [01 00 02 00], as [subarray] makes it.  Its own bytes read 2 / 32768;
    the decoder, which builds its [DataView] on the whole buffer, returns
    1 / 32768, and that is the block that gets scheduled. *)
Theorem subarray_chunk_decodes_buffer_start :
  let chunk :=
    Uint8Array.subarray (Uint8Array.of_buffer [x01; x00; x02; x00]) 2 in
  Uint8Array.byteOffset chunk = 2 /\
  Uint8Array.length chunk = 2 /\
  Uint8Array.bytes chunk = [x02; x00] /\
  pcm16_to_float (Uint8Array.bytes chunk) = [2 # 32768] /\
  samples chunk = [1 # 32768] /\
  pending 0 (addPCM16 chunk 0 init) = [[1 # 32768]].
Proof. vm_compute. repeat split. Qed.

(** ** Ingest *)

Lemma pending_fresh s : pending (nextNode s) s = audioQueue s.
Proof. unfold pending. by rewrite scheduledBlocks_nil. Qed.

Lemma addPCM16_passive chunk now s :
  passive (addPCM16 chunk now s) =
  passive (set_console (snd (_processPCM16Chunk chunk (console s)))
             (set_isStreamComplete false s)).
Proof.
  rewrite addPCM16_unfold. cbv zeta. destruct (isPlaying s); [done|].
  by rewrite scheduleNextBuffer_passive.
Qed.

Lemma addPCM16_console chunk now s :
  console (addPCM16 chunk now s) = snd (_processPCM16Chunk chunk (console s)).
Proof.
  pose proof (addPCM16_passive chunk now s) as H.
  unfold passive in H. state_simpl_in H. injection H; intros; congruence.
Qed.

Lemma addPCM16_isStreamComplete chunk now s :
  isStreamComplete (addPCM16 chunk now s) = false.
Proof.
  pose proof (addPCM16_passive chunk now s) as H.
  unfold passive in H. state_simpl_in H. injection H; intros; congruence.
Qed.

Lemma addPCM16_isPlaying chunk now s :
  isPlaying (addPCM16 chunk now s) = true.
Proof.
  rewrite addPCM16_unfold. cbv zeta. destruct (isPlaying s) eqn:E; [done|].
  by rewrite scheduleNextBuffer_isPlaying.
Qed.

(** C4.  One [addPCM16] call whose chunk decodes to [N] samples
    appends, behind what was queued, the blocks [blocksOf (samples chunk)]
    (the pass it may start moves blocks from the head of the queue to
    nodes, in order).  These blocks partition the decoded run in order;
    there are [ceil (N / bufferSize)] of them, at least one when [N > 0];
    every block but the last has [bufferSize] samples; the last has
    [N mod bufferSize], or [bufferSize] when that is zero; none is empty.
    A following call appends its own blocks behind them: no block holds
    samples of two calls. *)
Theorem ingest_blocks (chunk : Uint8Array.t) (now : Q) (s : State) :
  let N := length (samples chunk) in
  let blocks := blocksOf (samples chunk) in
  let s' := addPCM16 chunk now s in
  pending (nextNode s) s' = audioQueue s ++ blocks /\
  (isPlaying s = true -> audioQueue s' = audioQueue s ++ blocks) /\
  concat blocks = samples chunk /\
  length blocks = (N + bufferSize - 1) / bufferSize /\
  (0 < N -> 0 < length blocks) /\
  (forall i b, blocks !! i = Some b -> S i < length blocks ->
     length b = bufferSize) /\
  (forall b, last blocks = Some b ->
     length b =
       if N mod bufferSize =? 0 then bufferSize else N mod bufferSize) /\
  Forall (fun b => 0 < length b) blocks /\
  (forall chunk2 now2,
     pending (nextNode s) (addPCM16 chunk2 now2 s') =
     audioQueue s ++ blocks ++ blocksOf (samples chunk2) /\
     concat (blocksOf (samples chunk2)) = samples chunk2).
Proof.
  cbv zeta.
  destruct (addPCM16_pending (nextNode s) chunk now s) as [Hle Hp]; [done|].
  rewrite pending_fresh in Hp.
  destruct (blocksOf_spec (samples chunk)) as (Hcat & Hlen & Hfull & Hlast & Hne).
  split; [done|]. split.
  { intros Hplay. rewrite addPCM16_unfold. cbv zeta. by rewrite Hplay. }
  split; [done|]. split; [done|]. split.
  { intros HN. destruct (blocksOf (samples chunk)); [|cbn; lia].
    cbn in Hcat. rewrite <- Hcat in HN. cbn in HN. lia. }
  split; [done|]. split; [done|]. split; [done|].
  intros chunk2 now2. split; [|apply blocksOf_spec].
  destruct (addPCM16_pending (nextNode s) chunk2 now2 (addPCM16 chunk now s))
    as [_ ->]; [done|].
  by rewrite Hp, app_assoc.
Qed.

Lemma ingest_blocks_witness :
  pending 0 (addPCM16 chunk1 0 init) = [[1 # 32768]] /\
  0 < length (blocksOf (samples chunk1)).
Proof.
  destruct (ingest_blocks chunk1 0 init) as (H & _ & _ & _ & Hpos & _).
  split; [exact H|]. apply Hpos. vm_compute. lia.
Defined.

(** ** Scheduling order *)

(** C5.  (1) An iteration of the scheduling loop takes the head of the
    queue, gives it to the next node with start time
    [max (scheduledTime, now)], and moves the cursor to that start time
    plus the block's duration.  (2) Over any run without [stop()], the
    blocks given to nodes, in node order, followed by the queue, are the
    blocks that were queued followed by those ingested, in order: nodes
    receive blocks first in, first out.  (3) Over any run that does not
    re-prime the cursor, the start times of the nodes created during the
    run do not decrease with the node number. *)
Theorem schedule_order :
  (forall now s audioData rest,
     audioQueue s = audioData :: rest ->
     let s' := scheduleBody now s in
     audioQueue s' = rest /\
     nextNode s' = S (nextNode s) /\
     scheduledAt (nodes s') (nextNode s) =
       Some (audioData, Qmax (scheduledTime s) now) /\
     scheduledTime s' =
       (Qmax (scheduledTime s) now + duration audioData)%Q) /\
  (forall s ops,
     Forall (fun op => isStop op = false) ops ->
     let s' := run s ops in
     scheduledBlocks (nextNode s) (nextNode s') (nodes s') ++ audioQueue s' =
     audioQueue s ++ concat (map ingestedBy ops)) /\
  (forall s ops,
     steady s ops ->
     let s' := run s ops in
     forall i j bi ti bj tj,
       nextNode s <= i -> i <= j -> j < nextNode s' ->
       scheduledAt (nodes s') i = Some (bi, ti) ->
       scheduledAt (nodes s') j = Some (bj, tj) ->
       (ti <= tj)%Q).
Proof.
  split; [|split].
  - intros now s audioData rest Hq. cbv zeta.
    split; [apply (body_audioQueue now s _ _ Hq)|].
    split; [apply (body_nextNode now s _ _ Hq)|].
    split; [apply (body_scheduledAt_new now s _ _ Hq)|].
    apply (body_scheduledTime now s _ _ Hq).
  - intros s ops Hops. cbv zeta.
    destruct (run_pending (nextNode s) ops s) as [_ Hp]; [done..|].
    rewrite pending_fresh in Hp. exact Hp.
  - intros s ops Hsteady. cbv zeta.
    destruct (run_ordered (nextNode s) ops s Hsteady (ordered_fresh s))
      as [Hmono _].
    exact Hmono.
Qed.

Lemma schedule_order_witness :
  audioQueue queued1 = [[1 # 32768]] /\
  scheduledTime (scheduleBody (1 # 10) queued1) =
    (Qmax (scheduledTime queued1) (1 # 10) + duration [1 # 32768])%Q /\
  scheduledBlocks 1 3 (nodes (run playing1 ops1)) ++
    audioQueue (run playing1 ops1) = [[1 # 32768]; [1 # 32768]] /\
  steady playing1 ops1 /\
  (24030 # 240000 <= 2 # 10)%Q.
Proof.
  destruct schedule_order as (Hbody & Hfifo & Hmono).
  split; [reflexivity|]. split.
  { apply (Hbody (1 # 10) queued1 [1 # 32768] []). reflexivity. }
  split.
  { apply (Hfifo playing1 ops1). by repeat constructor. }
  assert (steady playing1 ops1) as Hsteady by (vm_compute; repeat split).
  split; [exact Hsteady|].
  apply (Hmono playing1 ops1 Hsteady 1 2
           [1 # 32768] (24030 # 240000) [1 # 32768] (2 # 10));
    [vm_compute; lia..|reflexivity|reflexivity].
Defined.

(** ** Decode failures *)

Lemma filter_length_pos {A} (f : A -> bool) (l : list A) x :
  In x l -> f x = true -> 0 < length (List.filter f l).
Proof.
  intros Hin Hf.
  assert (In x (List.filter f l)) as H by (apply filter_In; by split).
  destruct (List.filter f l); [destruct H|cbn; lia].
Qed.

(** C8.  If the read of sample [i], one of the indices the loop visits,
    fails, the failure is logged and the loop goes on: the array still
    has [floor (bytes / 2)] slots, every slot whose read succeeds holds
    [int16 / 32768], and a slot whose read fails keeps its initial 0.
    The ingest goes through: the console count of the call is stored,
    the loop is running, the stream is not complete, nothing queued
    before is lost and the decoded run is appended in blocks. *)
Theorem decode_failure_is_skipped (chunk : Uint8Array.t) (i : nat)
    (now : Q) (s : State) :
  i * 2 < Uint8Array.length chunk ->
  DataView.getInt16 (Uint8Array.buffer chunk) (i * 2) = None ->
  let res := _processPCM16Chunk chunk (console s) in
  let s' := addPCM16 chunk now s in
  length (fst res) = Uint8Array.length chunk / 2 /\
  console s < snd res /\
  (forall j int16,
     j < Uint8Array.length chunk / 2 ->
     DataView.getInt16 (Uint8Array.buffer chunk) (j * 2) = Some int16 ->
     fst res !! j = Some (int16 # 32768)) /\
  (forall j,
     j < Uint8Array.length chunk / 2 ->
     DataView.getInt16 (Uint8Array.buffer chunk) (j * 2) = None ->
     fst res !! j = Some 0%Q) /\
  console s' = snd res /\
  isPlaying s' = true /\
  isStreamComplete s' = false /\
  pending (nextNode s) s' = audioQueue s ++ blocksOf (fst res) /\
  concat (blocksOf (fst res)) = fst res.
Proof.
  intros Hi Hfail. cbv zeta.
  destruct (processPCM16Chunk_spec chunk (console s)) as (Hlen & Hval & Hcnt).
  split; [done|]. split.
  { rewrite Hcnt.
    assert (0 < length (List.filter (failed (Uint8Array.buffer chunk))
                          (seq 0 (iterations chunk)))); [|lia].
    apply (filter_length_pos _ _ i).
    - apply in_seq. apply iterations_lt in Hi. lia.
    - unfold failed. by rewrite Hfail. }
  split. { intros j int16 Hj Hget. rewrite Hval by done. unfold decoded.
           by rewrite Hget. }
  split. { intros j Hj Hget. rewrite Hval by done. unfold decoded.
           by rewrite Hget. }
  split; [apply addPCM16_console|]. split; [apply addPCM16_isPlaying|].
  split; [apply addPCM16_isStreamComplete|].
  rewrite processPCM16Chunk_fst. split; [|apply blocksOf_spec].
  destruct (addPCM16_pending (nextNode s) chunk now s) as [_ ->]; [done|].
  by rewrite pending_fresh.
Qed.

Lemma decode_failure_is_skipped_witness :
  DataView.getInt16 (Uint8Array.buffer chunkOdd) 2 = None /\
  length (fst (_processPCM16Chunk chunkOdd 0)) = 1 /\
  0 < snd (_processPCM16Chunk chunkOdd 0) /\
  isPlaying (addPCM16 chunkOdd 0 init) = true.
Proof.
  destruct (decode_failure_is_skipped chunkOdd 1 0 init)
    as (H1 & H2 & _ & _ & _ & H3 & _); [vm_compute; lia|reflexivity|].
  split; [reflexivity|]. split; [exact H1|]. split; [exact H2|exact H3].
Defined.

(** ** Odd-length input *)

(** C10, as stated, fails.  An ingest of three bytes while a block is
    playing raises nothing: the queue, empty before, holds the block of
    the one decoded sample afterwards, the read past the end of the
    buffer has been logged, and the stream-complete flag is cleared. *)
Lemma odd_chunk_is_ingested :
  Nat.Odd (Uint8Array.length chunkOdd) /\
  audioQueue playing1 = [] /\
  audioQueue (addPCM16 chunkOdd (1 # 100) playing1) = [[1 # 32768]] /\
  console (addPCM16 chunkOdd (1 # 100) playing1) = 1 /\
  isStreamComplete (addPCM16 chunkOdd (1 # 100) playing1) = false.
Proof. split; [by exists 1|]. vm_compute. repeat split. Qed.

Lemma iterations_odd chunk k :
  Uint8Array.length chunk = 2 * k + 1 -> iterations chunk = S k.
Proof.
  intros Hk. pose proof (iterations_lt chunk k) as H1.
  pose proof (iterations_lt chunk (S k)) as H2. lia.
Qed.

(** C10, amended.  An ingest of an odd number of bytes does not raise.
    The stream-complete flag is cleared; the sample array has
    [(length - 1) / 2] slots, each holding the decoding of its two
    bytes of the buffer (for a window at offset 0, the reference decoding
    of the window without its last byte); these samples are appended in
    blocks like any others; and the one extra read the loop attempts is
    logged when it runs past the end of the buffer, and is otherwise
    dropped by the out-of-range store. *)
Theorem odd_chunk_drops_last_byte (chunk : Uint8Array.t) (now : Q)
    (s : State) :
  Nat.Odd (Uint8Array.length chunk) -> Uint8Array.wf chunk ->
  let s' := addPCM16 chunk now s in
  isStreamComplete s' = false /\
  length (samples chunk) = (Uint8Array.length chunk - 1) / 2 /\
  (forall j, j < length (samples chunk) ->
     exists lo hi,
       Uint8Array.buffer chunk !! (j * 2) = Some lo /\
       Uint8Array.buffer chunk !! (j * 2 + 1) = Some hi /\
       samples chunk !! j = Some (int16_of_bytes lo hi # 32768)) /\
  (Uint8Array.byteOffset chunk = 0 ->
     samples chunk = pcm16_to_float (Uint8Array.bytes chunk)) /\
  pending (nextNode s) s' = audioQueue s ++ blocksOf (samples chunk) /\
  console s' =
    console s +
    (if decide (length (Uint8Array.buffer chunk) <= Uint8Array.length chunk)
     then 1 else 0).
Proof.
  intros [k Hk] Hwf. cbv zeta. unfold Uint8Array.wf in Hwf.
  assert (Uint8Array.length chunk / 2 = k) as Hhalf.
  { symmetry. apply (Nat.div_unique _ _ _ 1); lia. }
  assert ((Uint8Array.length chunk - 1) / 2 = k) as Hhalf'.
  { symmetry. apply (Nat.div_unique _ _ _ 0); lia. }
  split; [apply addPCM16_isStreamComplete|].
  split; [by rewrite samples_length, Hhalf, Hhalf'|].
  split.
  { intros j Hj. rewrite samples_length, Hhalf in Hj.
    destruct (lookup_lt_is_Some_2 (Uint8Array.buffer chunk) (j * 2))
      as [lo Hlo]; [lia|].
    destruct (lookup_lt_is_Some_2 (Uint8Array.buffer chunk) (j * 2 + 1))
      as [hi Hhi]; [lia|].
    exists lo, hi. split; [done|]. split; [done|].
    destruct (processPCM16Chunk_spec chunk 0) as (_ & Hval & _).
    fold (samples chunk) in Hval. rewrite Hval by lia.
    unfold decoded, DataView.getInt16. by rewrite Hlo, Hhi. }
  split; [intros Hoff; by apply samples_offset_0|].
  split.
  { destruct (addPCM16_pending (nextNode s) chunk now s) as [_ ->]; [done|].
    by rewrite pending_fresh. }
  rewrite addPCM16_console.
  destruct (processPCM16Chunk_spec chunk (console s)) as (_ & _ & ->).
  f_equal. rewrite (iterations_odd chunk k Hk), seq_S, List.filter_app.
  rewrite filter_all_false.
  - cbn [app List.filter Nat.add]. unfold failed, DataView.getInt16.
    destruct (lookup_lt_is_Some_2 (Uint8Array.buffer chunk) (k * 2))
      as [lo ->]; [lia|].
    case_decide as Hend.
    + rewrite lookup_ge_None_2 by lia. done.
    + destruct (lookup_lt_is_Some_2 (Uint8Array.buffer chunk) (k * 2 + 1))
        as [hi ->]; [lia|]. done.
  - intros i [_ Hi]%in_seq. cbn in Hi.
    destruct (lookup_lt_is_Some_2 (Uint8Array.buffer chunk) (i * 2))
      as [lo Hlo]; [lia|].
    destruct (lookup_lt_is_Some_2 (Uint8Array.buffer chunk) (i * 2 + 1))
      as [hi Hhi]; [lia|].
    unfold failed, DataView.getInt16. by rewrite Hlo, Hhi.
Qed.

Lemma odd_chunk_drops_last_byte_witness :
  Nat.Odd (Uint8Array.length chunkOdd) /\
  Uint8Array.wf chunkOdd /\
  length (samples chunkOdd) = 1 /\
  console (addPCM16 chunkOdd 0 init) = 1.
Proof.
  assert (Nat.Odd (Uint8Array.length chunkOdd)) as Hodd by (by exists 1).
  assert (Uint8Array.wf chunkOdd) as Hwf by (vm_compute; lia).
  destruct (odd_chunk_drops_last_byte chunkOdd 0 init Hodd Hwf)
    as (_ & H1 & _ & _ & _ & H2).
  split; [exact Hodd|]. split; [exact Hwf|]. split; [exact H1|exact H2].
Defined.

(** ** Further properties *)

Lemma bytes_length chunk :
  Uint8Array.wf chunk ->
  length (Uint8Array.bytes chunk) = Uint8Array.length chunk.
Proof.
  unfold Uint8Array.wf, Uint8Array.bytes. intros Hwf.
  rewrite length_take, length_drop. lia.
Qed.

Lemma concat_ingested (inputs : list (Uint8Array.t * Q)) :
  concat (concat (map ingestedBy
                    (map (fun '(c, now) => OpAddPCM16 c now) inputs))) =
  concat (map (fun '(c, _) => samples c) inputs).
Proof.
  induction inputs as [|[c now] inputs IH]; [done|].
  cbn [map concat ingestedBy]. rewrite concat_app, IH. f_equal.
  apply blocksOf_spec.
Qed.

(** X1.  Decoding is right for chunks that are windows at offset 0 of
    their buffer, as [new Uint8Array(arrayBuffer)] makes them: after any
    sequence of ingests of such chunks of even length, the samples given
    to nodes and queued since, concatenated in playback order, are those
    queued before followed by the reference decoding of the concatenated
    bytes of the chunks. *)
Theorem whole_buffer_chunks_decode_in_order
    (inputs : list (Uint8Array.t * Q)) (s : State) :
  Forall (fun '(c, _) =>
            Uint8Array.byteOffset c = 0 /\ Uint8Array.wf c /\
            Nat.Even (Uint8Array.length c)) inputs ->
  let s' := run s (map (fun '(c, now) => OpAddPCM16 c now) inputs) in
  concat (pending (nextNode s) s') =
  concat (audioQueue s) ++
  pcm16_to_float (concat (map (fun '(c, _) => Uint8Array.bytes c) inputs)).
Proof.
  intros Hall. cbv zeta.
  destruct (run_pending (nextNode s)
              (map (fun '(c, now) => OpAddPCM16 c now) inputs) s) as [_ ->].
  { done. }
  { apply Forall_forall. intros op Hop. apply list_elem_of_In, in_map_iff in Hop.
    by destruct Hop as ([c now] & <- & _). }
  rewrite pending_fresh, concat_app, concat_ingested. f_equal.
  induction Hall as [|[c now] inputs (Hoff & Hwf & Heven) _ IH]; [done|].
  cbn [map concat]. rewrite pcm16_to_float_app by (by rewrite bytes_length).
  by rewrite samples_offset_0, IH.
Qed.

Lemma whole_buffer_chunks_decode_in_order_witness :
  concat (pending 0 (run init [OpAddPCM16 chunk3 0; OpAddPCM16 chunk1 0])) =
  [1 # 32768; -1 # 32768; -32768 # 32768; 1 # 32768].
Proof.
  apply (whole_buffer_chunks_decode_in_order
           [(chunk3, 0%Q); (chunk1, 0%Q)] init).
  constructor.
  { split; [reflexivity|]. split; [vm_compute; lia|by exists 3]. }
  constructor; [|constructor].
  split; [reflexivity|]. split; [vm_compute; lia|by exists 1].
Defined.



(** X3.  In every state reachable from the constructor: every node of
    the active set has been started; at most one recheck interval is
    live, the one [checkInterval] names; and no queued block is empty. *)
Theorem reachable_invariant (ops : list Op) :
  let s := run init ops in
  (forall id, id ∈ activeSources s ->
     exists n t, nodes s !! id = Some n /\ src_start n = Some t) /\
  intervals s =
    match checkInterval s with Some id => {[ id ]} | None => ∅ end /\
  Forall (fun b => 0 < length b) (audioQueue s).
Proof.
  cbv zeta. destruct (run_Inv ops init Inv_init) as (Hst & Hint & Hne).
  split; [|by split].
  intros id Hid. destruct (Hst id Hid) as [[b t] Hat].
  unfold scheduledAt in Hat.
  destruct (nodes (run init ops) !! id) as [n|]; [|done]. cbn in Hat.
  destruct (src_start n) as [t'|] eqn:Hstart; [|done]. by exists n, t'.
Qed.

(** X4.  A chunk of [2 * bufferSize] bytes (15360 bytes, 7680 samples)
    makes exactly one block, the whole decoded run, and no remainder
    block. *)
Theorem exact_multiple_makes_one_block (chunk : Uint8Array.t) :
  Uint8Array.length chunk = 2 * bufferSize ->
  blocksOf (samples chunk) = [samples chunk] /\
  length (samples chunk) = bufferSize.
Proof.
  assert (forall B, 2 * B / 2 = B) as Hhalf.
  { intros B. replace (2 * B) with (B * 2) by lia. apply Nat.div_mul. lia. }
  assert (forall B, 0 < B -> (B + B - 1) / B = 1) as Hone.
  { intros B HB. symmetry. apply (Nat.div_unique _ _ _ (B - 1)); lia. }
  intros Hlen.
  assert (length (samples chunk) = bufferSize) as HN
    by (rewrite samples_length, Hlen; apply Hhalf).
  split; [|exact HN].
  destruct (blocksOf_spec (samples chunk)) as (Hcat & Hcount & _).
  rewrite HN, (Hone bufferSize bufferSize_pos) in Hcount.
  destruct (blocksOf (samples chunk)) as [|b [|b' l]]; try done.
  cbn in Hcat. rewrite app_nil_r in Hcat. by subst b.
Qed.

Lemma exact_multiple_makes_one_block_witness :
  length (blocksOf (samples silence15360)) = 1.
Proof.
  destruct (exact_multiple_makes_one_block silence15360) as [-> _].
  - unfold silence15360, Uint8Array.of_buffer, Uint8Array.length.
    apply length_replicate.
  - reflexivity.
Defined.


(** * Timing of the scheduled nodes *)

Lemma Qmax_left (x y : Q) : (y <= x)%Q -> Qmax x y = x.
Proof.
  intros Hle. unfold Qmax, GenericMinMax.gmax.
  destruct (x ?= y)%Q eqn:E; try reflexivity.
  apply Qlt_alt in E. lra.
Qed.


Lemma scheduleLoop_nextNode fuel now s :
  nextNode s <= nextNode (scheduleLoop fuel now s).
Proof.
  apply (scheduleLoop_preserves (fun s1 => nextNode s <= nextNode s1));
    [|done].
  intros s1 a r Hq H1. rewrite (body_nextNode now s1 _ _ Hq). lia.
Qed.

Lemma scheduleLoop_scheduledAt_old fuel now s i :
  i < nextNode s ->
  scheduledAt (nodes (scheduleLoop fuel now s)) i = scheduledAt (nodes s) i.
Proof.
  intros Hi.
  apply (scheduleLoop_preserves
           (fun s1 => nextNode s <= nextNode s1 /\
                      scheduledAt (nodes s1) i = scheduledAt (nodes s) i)).
  - intros s1 a r Hq [Hn H1]. rewrite (body_nextNode now s1 _ _ Hq).
    split; [lia|]. rewrite (body_scheduledAt_old now s1 _ _ Hq) by lia. done.
  - done.
Qed.

Lemma spaced_ext base s s' :
  nextNode s' = nextNode s ->
  (forall i, scheduledAt (nodes s') i = scheduledAt (nodes s) i) ->
  spaced base s -> spaced base s'.
Proof.
  intros Hn Hat Hsp i j bi ti bj tj Hi Hij Hj.
  rewrite !Hat. rewrite Hn in Hj. by apply Hsp.
Qed.

Lemma spaced_same_schedule base s s' :
  same_schedule s s' -> spaced base s -> spaced base s'.
Proof. intros (Hn & _ & _ & Hat). by apply spaced_ext. Qed.

Lemma scheduleBody_spaced base now s audioData rest :
  audioQueue s = audioData :: rest ->
  ordered base s -> spaced base s -> spaced base (scheduleBody now s).
Proof.
  intros Hq [_ Hend] Hsp i j bi ti bj tj Hi Hij Hj Hati Hatj.
  pose proof (body_scheduledAt_new now s _ _ Hq) as Hnew.
  pose proof (body_scheduledAt_old now s _ _ Hq) as Hold.
  pose proof (Q.le_max_l (scheduledTime s) now) as Hmax.
  rewrite (body_nextNode now s _ _ Hq) in Hj.
  rewrite Hold in Hati by lia.
  destruct (decide (j = nextNode s)) as [->|Hjn].
  - rewrite Hnew in Hatj. simplify_eq.
    pose proof (Hend i bi ti Hi ltac:(lia) Hati). lra.
  - rewrite Hold in Hatj by lia.
    eapply (Hsp i j); [done..|lia|done|done].
Qed.

Lemma scheduleNextBuffer_spaced base now s :
  ordered base s -> spaced base s ->
  spaced base (scheduleNextBuffer now s).
Proof.
  intros Hord Hsp. unfold scheduleNextBuffer.
  eapply spaced_same_schedule; [apply rearm_same_schedule|].
  apply (scheduleLoop_preserves
           (fun s1 => ordered base s1 /\ spaced base s1)); [|done].
  intros s1 audioData rest Hq [H1 H2].
  split; [by eapply scheduleBody_ordered|by eapply scheduleBody_spaced].
Qed.

Lemma step_spaced base s op :
  reprimes s op = false -> ordered base s -> spaced base s ->
  spaced base (step s op).
Proof.
  intros Hre Hord Hsp. destruct op; cbn [step].
  - cbn in Hre. apply negb_false_iff in Hre.
    rewrite addPCM16_unfold. cbv zeta. rewrite Hre.
    by eapply spaced_ext; [..|exact Hsp].
  - done.
  - done.
  - eapply spaced_same_schedule; [apply complete_same_schedule|done].
  - eapply spaced_same_schedule; [apply startPad_same_schedule|done].
  - eapply spaced_same_schedule; [apply setPadVolume_same_schedule|done].
  - eapply spaced_same_schedule; [apply stopPad_same_schedule|done].
  - eapply spaced_same_schedule; [apply onended_same_schedule|done].
  - case_decide; [|done]. unfold onInterval.
    destruct (audioQueue s); [done|]. by apply scheduleNextBuffer_spaced.
  - destruct (timeouts s) as [|n]; [done|].
    apply scheduleNextBuffer_spaced.
    + by eapply ordered_ext; [..|exact Hord].
    + by eapply spaced_ext; [..|exact Hsp].
  - destruct (padTimeouts s) as [|n]; [done|].
    eapply spaced_same_schedule; [apply padTeardown_same_schedule|].
    by eapply spaced_ext; [..|exact Hsp].
Qed.

Lemma run_spaced base ops s :
  steady s ops -> ordered base s -> spaced base s ->
  ordered base (run s ops) /\ spaced base (run s ops).
Proof.
  revert s. induction ops as [|op ops IH]; intros s Hsteady Hord Hsp; [done|].
  destruct Hsteady as [Hre Hsteady]. cbn. apply IH; [done|..].
  - by apply step_ordered.
  - by apply step_spaced.
Qed.

Lemma spaced_fresh s : spaced (nextNode s) s.
Proof. intros i j bi ti bj tj Hi Hij Hj. lia. Qed.

(** X6. Over any run that does not re-prime the cursor (no stop, no
    resume, no ingest while not playing), the nodes created during the run
    never overlap: a node starts no earlier than the instant every node
    created before it ends. *)
Theorem scheduled_nodes_never_overlap (s : State) (ops : list Op) :
  steady s ops ->
  let s' := run s ops in
  forall i j bi ti bj tj,
    nextNode s <= i -> i < j -> j < nextNode s' ->
    scheduledAt (nodes s') i = Some (bi, ti) ->
    scheduledAt (nodes s') j = Some (bj, tj) ->
    (ti + duration bi <= tj)%Q.
Proof.
  intros Hsteady. cbv zeta.
  destruct (run_spaced (nextNode s) ops s Hsteady (ordered_fresh s)
              (spaced_fresh s)) as [_ Hsp].
  exact Hsp.
Qed.

Lemma scheduled_nodes_never_overlap_witness :
  steady playing1 ops1 /\
  ((24030 # 240000) + duration [1 # 32768] <= 2 # 10)%Q.
Proof.
  assert (steady playing1 ops1) as Hsteady by (vm_compute; repeat split).
  split; [exact Hsteady|].
  apply (scheduled_nodes_never_overlap playing1 ops1 Hsteady 1 2
           [1 # 32768] (24030 # 240000) [1 # 32768] (2 # 10));
    [vm_compute; lia..|reflexivity|reflexivity].
Defined.

Lemma above_ext floor base s s' :
  nextNode s' = nextNode s -> scheduledTime s' = scheduledTime s ->
  (forall i, scheduledAt (nodes s') i = scheduledAt (nodes s) i) ->
  above floor base s -> above floor base s'.
Proof.
  intros Hn Hc Hat [H1 H2]. split; [by rewrite Hc|].
  intros i b t Hi Hlt. rewrite Hat. rewrite Hn in Hlt. by apply H2.
Qed.

Lemma above_same_schedule floor base s s' :
  same_schedule s s' -> above floor base s -> above floor base s'.
Proof. intros (Hn & Hc & _ & Hat). by apply above_ext. Qed.

Lemma scheduleBody_above floor base now s audioData rest :
  audioQueue s = audioData :: rest ->
  above floor base s -> above floor base (scheduleBody now s).
Proof.
  intros Hq [Hc Hnodes].
  pose proof (Q.le_max_l (scheduledTime s) now) as Hmax.
  pose proof (duration_nonneg audioData) as Hdur. split.
  - rewrite (body_scheduledTime now s _ _ Hq). lra.
  - intros i b t Hi Hlt Hat. rewrite (body_nextNode now s _ _ Hq) in Hlt.
    destruct (decide (i = nextNode s)) as [->|Hne].
    + rewrite (body_scheduledAt_new now s _ _ Hq) in Hat. simplify_eq. lra.
    + rewrite (body_scheduledAt_old now s _ _ Hq) in Hat by done.
      apply (Hnodes i b t); [done|lia|done].
Qed.

Lemma scheduleNextBuffer_above floor base now s :
  above floor base s -> above floor base (scheduleNextBuffer now s).
Proof.
  intros Ha. unfold scheduleNextBuffer.
  eapply above_same_schedule; [apply rearm_same_schedule|].
  apply scheduleLoop_preserves; [|done].
  intros s1 audioData rest Hq H1. by eapply scheduleBody_above.
Qed.

Lemma step_above floor base s op :
  reprimes s op = false -> above floor base s -> above floor base (step s op).
Proof.
  intros Hre Ha. destruct op; cbn [step].
  - cbn in Hre. apply negb_false_iff in Hre.
    rewrite addPCM16_unfold. cbv zeta. rewrite Hre.
    by eapply above_ext; [..|exact Ha].
  - done.
  - done.
  - eapply above_same_schedule; [apply complete_same_schedule|done].
  - eapply above_same_schedule; [apply startPad_same_schedule|done].
  - eapply above_same_schedule; [apply setPadVolume_same_schedule|done].
  - eapply above_same_schedule; [apply stopPad_same_schedule|done].
  - eapply above_same_schedule; [apply onended_same_schedule|done].
  - case_decide; [|done]. unfold onInterval.
    destruct (audioQueue s); [done|]. by apply scheduleNextBuffer_above.
  - destruct (timeouts s) as [|n]; [done|].
    apply scheduleNextBuffer_above. by eapply above_ext; [..|exact Ha].
  - destruct (padTimeouts s) as [|n]; [done|].
    eapply above_same_schedule; [apply padTeardown_same_schedule|].
    by eapply above_ext; [..|exact Ha].
Qed.

Lemma run_above floor base ops s :
  steady s ops -> above floor base s -> above floor base (run s ops).
Proof.
  revert s. induction ops as [|op ops IH]; intros s Hsteady Ha; [done|].
  destruct Hsteady as [Hre Hsteady]. cbn. apply IH; [done|].
  by apply step_above.
Qed.

(** X28. Between two re-primings the cursor never moves backwards and
    nothing is scheduled before it: over any run without stop, resume or
    ingest while not playing, the cursor at the end is no earlier than
    the cursor at the beginning, and every node created during the run
    starts no earlier than the cursor at the beginning.  So after
    [resume()] at time [now], every block scheduled until the next
    re-priming starts at [now + initialBufferTime] or later. *)
Theorem cursor_never_moves_back (s : State) (ops : list Op) :
  steady s ops ->
  let s' := run s ops in
  (scheduledTime s <= scheduledTime s')%Q /\
  (forall i b t,
     nextNode s <= i -> i < nextNode s' ->
     scheduledAt (nodes s') i = Some (b, t) -> (scheduledTime s <= t)%Q) /\
  (forall now0 s0, s = resume now0 s0 ->
     forall i b t,
       nextNode s <= i -> i < nextNode s' ->
       scheduledAt (nodes s') i = Some (b, t) ->
       (now0 + initialBufferTime <= t)%Q).
Proof.
  intros Hsteady. cbv zeta.
  assert (above (scheduledTime s) (nextNode s) s) as H0.
  { split; [apply Qle_refl|]. intros i b t Hi Hlt. lia. }
  destruct (run_above _ _ ops s Hsteady H0) as [Hc Hn].
  split; [done|]. split; [done|].
  intros now0 s0 Hs i b t Hi Hlt Hat.
  pose proof (Hn i b t Hi Hlt Hat) as Hle. by rewrite Hs in Hle at 1.
Qed.

Lemma cursor_never_moves_back_witness :
  steady playing1 ops1 /\
  (scheduledTime playing1 <= scheduledTime (run playing1 ops1))%Q.
Proof.
  assert (steady playing1 ops1) as Hsteady by (vm_compute; repeat split).
  split; [exact Hsteady|].
  generalize (cursor_never_moves_back playing1 ops1 Hsteady).
  cbv zeta. intros [H _]. exact H.
Defined.

(** ** One scheduling pass *)


Lemma scheduleLoop_contiguous fuel now s :
  contiguous (nextNode s) now (scheduleLoop fuel now s).
Proof.
  apply (scheduleLoop_preserves
           (fun s1 => nextNode s <= nextNode s1 /\
                      contiguous (nextNode s) now s1)).
  - intros s1 a r Hq [Hn [Hadj Hlast]].
    pose proof (body_scheduledAt_new now s1 _ _ Hq) as Hnew.
    pose proof (body_scheduledAt_old now s1 _ _ Hq) as Hold.
    pose proof (duration_nonneg a) as Hdur.
    pose proof (Q.le_max_r (scheduledTime s1) now) as Hmax.
    rewrite (body_nextNode now s1 _ _ Hq). split; [lia|]. split.
    + intros i bi ti bj tj Hi Hlt Hati Hatj.
      rewrite (body_nextNode now s1 _ _ Hq) in Hlt.
      rewrite Hold in Hati by lia.
      destruct (decide (S i = nextNode s1)) as [Heq|Hne].
      * rewrite Heq, Hnew in Hatj. simplify_eq.
        destruct Hlast as (Hnow & b & t & Hat & Hc); [lia|].
        replace (nextNode s1 - 1) with i in Hat by lia.
        rewrite Hati in Hat. simplify_eq.
        rewrite Qmax_left by done. done.
      * rewrite Hold in Hatj by done.
        apply (Hadj i bi ti bj tj); [done|lia|done|done].
    + intros _. rewrite (body_nextNode now s1 _ _ Hq),
        (body_scheduledTime now s1 _ _ Hq).
      split; [lra|]. exists a, (Qmax (scheduledTime s1) now).
      replace (S (nextNode s1) - 1) with (nextNode s1) by lia. done.
  - split; [done|]. split; [intros; lia|lia].
Qed.

Lemma scheduleLoop_first fuel now s audioData rest :
  audioQueue s = audioData :: rest ->
  (scheduledTime s < now + SCHEDULE_AHEAD_TIME)%Q ->
  scheduledAt (nodes (scheduleLoop (S fuel) now s)) (nextNode s) =
  Some (audioData, Qmax (scheduledTime s) now).
Proof.
  intros Hq Hg. cbn [scheduleLoop]. rewrite Hq.
  apply Qltb_lt in Hg. rewrite Hg.
  rewrite scheduleLoop_scheduledAt_old
    by (rewrite (body_nextNode now s _ _ Hq); lia).
  apply (body_scheduledAt_new now s _ _ Hq).
Qed.


(** X8. The nodes one scheduling pass creates play back to back: the
    first starts at max(cursor, now) with the block at the head of the
    queue, and each further one starts exactly when its predecessor ends,
    so that a pass leaves no gap and no overlap between its blocks. *)
Theorem pass_is_gapless (now : Q) (s : State) :
  let s' := scheduleNextBuffer now s in
  (forall audioData rest,
     audioQueue s = audioData :: rest ->
     (scheduledTime s < now + SCHEDULE_AHEAD_TIME)%Q ->
     scheduledAt (nodes s') (nextNode s) =
     Some (audioData, Qmax (scheduledTime s) now)) /\
  (forall i bi ti bj tj,
     nextNode s <= i -> S i < nextNode s' ->
     scheduledAt (nodes s') i = Some (bi, ti) ->
     scheduledAt (nodes s') (S i) = Some (bj, tj) ->
     tj = (ti + duration bi)%Q) /\
  (nextNode s < nextNode s' ->
     exists b t,
       scheduledAt (nodes s') (nextNode s' - 1) = Some (b, t) /\
       scheduledTime s' = (t + duration b)%Q).
Proof.
  cbv zeta. unfold scheduleNextBuffer.
  destruct (rearm_same_schedule
              (scheduleLoop (S (length (audioQueue s))) now s))
    as (Hn & Hc & _ & Hsame).
  destruct (scheduleLoop_contiguous (S (length (audioQueue s))) now s)
    as [Hadj Hlast].
  split; [|split].
  - intros audioData rest Hq Hg. rewrite Hsame.
    by eapply scheduleLoop_first.
  - intros i bi ti bj tj Hi Hlt. rewrite !Hsame. rewrite Hn in Hlt.
    by apply Hadj.
  - rewrite Hn, Hc. intros Hlt. destruct (Hlast Hlt) as (_ & b & t & H1 & H2).
    exists b, t. by rewrite Hsame.
Qed.


Lemma pass_is_gapless_witness :
  (scheduledTime queued2 < (1 # 10) + SCHEDULE_AHEAD_TIME)%Q /\
  scheduledAt (nodes (scheduleNextBuffer (1 # 10) queued2)) 1 =
  Some ([1 # 32768], Qmax (scheduledTime queued2) (1 # 10)).
Proof.
  assert (scheduledTime queued2 < (1 # 10) + SCHEDULE_AHEAD_TIME)%Q as Hg
    by (vm_compute; reflexivity).
  split; [exact Hg|].
  destruct (pass_is_gapless (1 # 10) queued2) as (Hfirst & _ & _).
  apply (Hfirst [1 # 32768] [[1 # 32768]]); [reflexivity|exact Hg].
Defined.

(** * More invariants of reachable states *)

Lemma rearm_playback s : playback (rearm s) = playback s.
Proof.
  unfold rearm, playback.
  destruct (audioQueue s) eqn:Hq; [destruct (isStreamComplete s) eqn:E|];
    destruct (checkInterval s) eqn:Hc; state_simpl; rewrite ?Hc;
    state_simpl; rewrite ?Hq; reflexivity.
Qed.

Lemma rearm_nodes s : nodes (rearm s) = nodes s.
Proof.
  pose proof (rearm_playback s) as H. unfold playback in H.
  injection H; intros; congruence.
Qed.

Lemma rearm_audioQueue s : audioQueue (rearm s) = audioQueue s.
Proof.
  pose proof (rearm_playback s) as H. unfold playback in H.
  injection H; intros; congruence.
Qed.

Lemma scheduleNextBuffer_preserves (R : State -> Prop) now :
  (forall s audioData rest,
     audioQueue s = audioData :: rest -> R s -> R (scheduleBody now s)) ->
  (forall s, R s -> R (rearm s)) ->
  forall s, R s -> R (scheduleNextBuffer now s).
Proof.
  intros Hbody Hrearm s HR. unfold scheduleNextBuffer.
  apply Hrearm. by apply scheduleLoop_preserves.
Qed.

(** ** The loop never sleeps on queued audio *)

Lemma rearm_awake s :
  (isPlaying s = false -> audioQueue s = []) -> awake (rearm s).
Proof.
  intros Hidle. unfold rearm, awake.
  destruct (audioQueue s) eqn:Hq; [destruct (isStreamComplete s) eqn:E|];
    [destruct (checkInterval s) eqn:Hc..|]; state_simpl;
    rewrite ?Hc; state_simpl; rewrite ?Hq.
  - split; [done|]. intros; congruence.
  - split; [done|]. intros; congruence.
  - split; [done|]. intros _. right. congruence.
  - split; [done|]. intros _. by right.
  - split; [|intros _; left; lia].
    intros Hp. specialize (Hidle Hp). congruence.
Qed.

Lemma scheduleNextBuffer_awake now s :
  (isPlaying s = false -> audioQueue s = []) ->
  awake (scheduleNextBuffer now s).
Proof.
  intros Hidle. unfold scheduleNextBuffer. apply rearm_awake.
  apply (scheduleLoop_preserves
           (fun s1 => isPlaying s1 = false -> audioQueue s1 = [])); [|done].
  intros s1 a r Hq H1. rewrite (body_isPlaying now s1 _ _ Hq).
  intros Hp. specialize (H1 Hp). congruence.
Qed.

Lemma awake_ext s s' :
  isPlaying s' = isPlaying s -> audioQueue s' = audioQueue s ->
  timeouts s' = timeouts s -> checkInterval s' = checkInterval s ->
  awake s -> awake s'.
Proof. unfold awake. by intros -> -> -> ->. Qed.

Lemma step_awake s op : awake s -> awake (step s op).
Proof.
  intros HA. pose proof HA as [Hidle Htimer]. destruct op; cbn [step].
  - rewrite addPCM16_unfold. cbv zeta.
    destruct (isPlaying s) eqn:Hp.
    + split; state_simpl; [congruence|]. intros _. by apply Htimer.
    + apply scheduleNextBuffer_awake. state_simpl. congruence.
  - split.
    + intros _. apply stop_audioQueue.
    + rewrite stop_isPlaying. congruence.
  - exact HA.
  - exact HA.
  - unfold startPad. destruct (padGain s); exact HA.
  - unfold setPadVolume. destruct (padGain s); exact HA.
  - unfold stopPad. destruct (padGain s); exact HA.
  - unfold onended.
    destruct (src_onended <$> nodes s !! source) as [[| |]|]; try exact HA.
    cbn. destruct (audioQueue s) eqn:Hq; [|exact HA].
    case_decide; [|exact HA].
    eapply awake_ext; [..|exact HA]; state_simpl; by rewrite ?Hq.
  - case_decide; [|done]. unfold onInterval.
    destruct (audioQueue s) eqn:Hq; [done|].
    apply scheduleNextBuffer_awake. intros Hp. by specialize (Hidle Hp).
  - destruct (timeouts s) as [|n]; [done|].
    apply scheduleNextBuffer_awake. intros Hp. by specialize (Hidle Hp).
  - destruct (padTimeouts s); exact HA.
Qed.

Lemma awake_init : awake init.
Proof. split; [done|]. cbn. congruence. Qed.

Lemma run_awake ops s : awake s -> awake (run s ops).
Proof.
  revert s. induction ops as [|op ops IH]; intros s HA; [done|].
  cbn. apply IH. by apply step_awake.
Qed.

(** X9. In every state reachable from the constructor by any sequence of
    operations and callbacks, queued audio is never stranded: whenever the
    queue is non-empty the loop is marked playing, and whenever the loop is
    marked playing the next scheduling pass is due, because a one-shot
    timer is pending or the recheck interval is armed and live. *)
Theorem queued_audio_is_never_stranded (ops : list Op) :
  let s := run init ops in
  (audioQueue s <> [] -> isPlaying s = true) /\
  (isPlaying s = true ->
     0 < timeouts s \/
     exists id, checkInterval s = Some id /\ id ∈ intervals s).
Proof.
  cbv zeta. destruct (run_awake ops init awake_init) as [Hidle Htimer].
  destruct (run_Inv ops init Inv_init) as (_ & Hint & _).
  split.
  - intros Hq. destruct (isPlaying (run init ops)); [done|].
    by destruct Hq; apply Hidle.
  - intros Hp. destruct (Htimer Hp) as [Ht|Hc]; [by left|right].
    unfold one_interval in Hint.
    destruct (checkInterval (run init ops)) as [id|]; [|done].
    exists id. split; [done|]. rewrite Hint. set_solver.
Qed.

(** ** Blocks and samples *)

Lemma int16_of_bytes_range lo hi :
  (-32768 <= int16_of_bytes lo hi < 32768)%Z.
Proof.
  unfold int16_of_bytes.
  pose proof (Byte.to_N_bounded lo). pose proof (Byte.to_N_bounded hi).
  cbv zeta. case_match; [apply Z.ltb_lt in H1|apply Z.ltb_ge in H1]; lia.
Qed.

Lemma decoded_ok dataView i : sample_ok (decoded dataView i).
Proof.
  unfold decoded, DataView.getInt16.
  destruct (dataView !! (i * 2)) as [lo|]; [|by split].
  destruct (dataView !! (i * 2 + 1)) as [hi|]; [|by split].
  pose proof (int16_of_bytes_range lo hi).
  split; unfold Qle, Qlt; cbn; lia.
Qed.

Lemma samples_ok chunk : Forall sample_ok (samples chunk).
Proof.
  apply Forall_lookup. intros j x Hj.
  destruct (processPCM16Chunk_spec chunk 0) as (Hlen & Hval & _).
  fold (samples chunk) in Hlen, Hval.
  apply lookup_lt_Some in Hj as Hlt. rewrite Hlen in Hlt.
  rewrite (Hval j Hlt) in Hj. simplify_eq. apply decoded_ok.
Qed.

Lemma Forall_concat_inv {A} (P : A -> Prop) (ls : list (list A)) :
  Forall P (concat ls) -> Forall (Forall P) ls.
Proof.
  induction ls as [|l ls IH]; cbn; [constructor|].
  intros [H1 H2]%Forall_app. constructor; auto.
Qed.

Lemma blocksOf_ok pb : Forall sample_ok pb -> Forall block_ok (blocksOf pb).
Proof.
  intros Hok. unfold blocksOf.
  destruct (enqueue_blocks pb []) as (blocks & rest & -> & Hcat & Hfull & Hrest).
  rewrite <- Hcat in Hok. apply Forall_app in Hok as [Hb Hr].
  apply Forall_concat_inv in Hb. pose proof bufferSize_pos.
  cbn [app]. apply Forall_app. split.
  - apply Forall_forall. intros b Hin.
    rewrite Forall_forall in Hfull, Hb.
    split; [rewrite (Hfull b Hin); lia|by apply Hb].
  - destruct (0 <? length rest) eqn:E; [|constructor].
    apply Nat.ltb_lt in E. constructor; [|constructor].
    split; [lia|done].
Qed.

Lemma scheduleBody_blocks_ok now s audioData rest :
  audioQueue s = audioData :: rest ->
  blocks_ok s -> blocks_ok (scheduleBody now s).
Proof.
  intros Hq [Hqueue Hnodes]. rewrite Hq in Hqueue.
  apply Forall_cons in Hqueue as [Ha Hrest]. split.
  - by rewrite (body_audioQueue now s _ _ Hq).
  - intros i n. rewrite (body_nodes now s _ _ Hq).
    destruct (decide (i = nextNode s)) as [->|Hne].
    + rewrite lookup_insert_eq. intros; by simplify_eq.
    + rewrite lookup_insert_ne by done. unfold disarmed.
      destruct rest; [destruct (endOfQueueAudioSource s) as [e|]|];
        try apply Hnodes.
      destruct (decide (i = e)) as [->|Hie].
      * rewrite lookup_alter_eq.
        destruct (nodes s !! e) as [m|] eqn:Hm; [|done].
        cbn. intros; simplify_eq. cbn. by eapply Hnodes.
      * rewrite lookup_alter_ne by done. apply Hnodes.
Qed.

Lemma blocks_ok_ext s s' :
  audioQueue s' = audioQueue s -> nodes s' = nodes s ->
  blocks_ok s -> blocks_ok s'.
Proof. unfold blocks_ok. by intros -> ->. Qed.

Lemma rearm_blocks_ok s : blocks_ok s -> blocks_ok (rearm s).
Proof. apply blocks_ok_ext; [apply rearm_audioQueue|apply rearm_nodes]. Qed.

Lemma step_blocks_ok s op : blocks_ok s -> blocks_ok (step s op).
Proof.
  intros HB. pose proof HB as [Hqueue Hnodes]. destruct op; cbn [step].
  - rewrite addPCM16_unfold. cbv zeta.
    assert (forall s1, nodes s1 = nodes s ->
              audioQueue s1 = audioQueue s ++ blocksOf (samples chunk) ->
              blocks_ok s1) as Hs1.
    { intros s1 Hn Hq. split.
      - rewrite Hq. apply Forall_app. split; [done|].
        apply blocksOf_ok, samples_ok.
      - by rewrite Hn. }
    destruct (isPlaying s); [by apply Hs1|].
    apply scheduleNextBuffer_preserves;
      [intros; by eapply scheduleBody_blocks_ok|apply rearm_blocks_ok|].
    by apply Hs1.
  - split.
    + rewrite stop_audioQueue. constructor.
    + intros i n. rewrite stop_nodes, stop_all_lookup.
      case_decide; [|apply Hnodes].
      destruct (nodes s !! i) as [m|] eqn:Hm; [|done].
      cbn. intros; simplify_eq. rewrite stopSource_buffer. by eapply Hnodes.
  - exact HB.
  - exact HB.
  - unfold startPad. destruct (padGain s); exact HB.
  - unfold setPadVolume. destruct (padGain s); exact HB.
  - unfold stopPad. destruct (padGain s); exact HB.
  - unfold onended.
    destruct (src_onended <$> nodes s !! source) as [[| |]|]; try exact HB.
    cbn. destruct (audioQueue s) eqn:Hq; [|exact HB].
    case_decide; [|exact HB].
    eapply blocks_ok_ext; [..|exact HB]; state_simpl; by rewrite ?Hq.
  - case_decide; [|done]. unfold onInterval.
    destruct (audioQueue s) eqn:Hq; [done|].
    apply scheduleNextBuffer_preserves;
      [intros; by eapply scheduleBody_blocks_ok|apply rearm_blocks_ok|].
    split; [by rewrite Hq|done].
  - destruct (timeouts s) as [|n]; [done|].
    apply scheduleNextBuffer_preserves;
      [intros; by eapply scheduleBody_blocks_ok|apply rearm_blocks_ok|done].
  - destruct (padTimeouts s); exact HB.
Qed.

Lemma run_blocks_ok ops s : blocks_ok s -> blocks_ok (run s ops).
Proof.
  revert s. induction ops as [|op ops IH]; intros s HB; [done|].
  cbn. apply IH. by apply step_blocks_ok.
Qed.

Lemma blocks_ok_init : blocks_ok init.
Proof.
  split; [constructor|]. intros i n Hn. cbn in Hn.
  by rewrite lookup_empty in Hn.
Qed.

(** X10. In every state reachable from the constructor, whatever bytes
    were ingested, every queued block and the buffer of every source node
    holds at least one and at most [bufferSize] (7680) samples, each
    sample lies in [-1, 1), and so no block lasts longer than 0.32 s. *)
Theorem blocks_are_bounded (ops : list Op) :
  let s := run init ops in
  let ok (b : list Q) :=
    0 < length b <= bufferSize /\
    Forall (fun x => (-1 <= x)%Q /\ (x < 1)%Q) b /\
    (duration b <= 32 # 100)%Q in
  Forall ok (audioQueue s) /\
  forall i n, nodes s !! i = Some n -> ok (src_buffer n).
Proof.
  cbv zeta. destruct (run_blocks_ok ops init blocks_ok_init) as [Hq Hn].
  assert (forall b, block_ok b ->
            0 < length b <= bufferSize /\
            Forall (fun x => (-1 <= x)%Q /\ (x < 1)%Q) b /\
            (duration b <= 32 # 100)%Q) as Hok.
  { intros b [Hlen Hs]. split; [done|]. split; [exact Hs|].
    unfold duration, Qle. cbn [Qnum Qden].
    assert (Z.of_nat (length b) <= Z.of_nat bufferSize)%Z as Hz by lia.
    change (Z.of_nat bufferSize) with 7680%Z in Hz.
    change (Z.pos sampleRate) with 24000%Z. lia. }
  split.
  - eapply Forall_impl; [exact Hq|]. exact Hok.
  - intros i n Hi. apply Hok. by eapply Hn.
Qed.

(** ** Starting from idle *)

Lemma blocksOf_head pb :
  0 < length pb ->
  exists rest, blocksOf pb = take bufferSize pb :: rest.
Proof.
  intros Hpos. pose proof bufferSize_pos as HB. unfold blocksOf.
  destruct (enqueue_blocks pb []) as (blocks & rest & -> & Hcat & Hfull & Hrest).
  cbn [app]. destruct blocks as [|b blocks].
  - cbn in Hcat. subst rest.
    apply Nat.ltb_lt in Hpos as ->. exists []. cbn [app].
    by rewrite take_ge by lia.
  - apply Forall_cons in Hfull as [Hb _]. eexists. cbn [app]. f_equal.
    rewrite <- Hcat. cbn [concat]. rewrite <- !app_assoc.
    rewrite take_app_length'; done.
Qed.

(** X11. When an ingest finds the loop not playing (in any state
    reachable from the constructor: a fresh streamer, after stop(), after
    a completed stream has drained) and decodes at least one sample, it
    starts playback: the first block, the first [bufferSize] samples of
    the chunk at most, is given to a new node that starts exactly
    [initialBufferTime] (0.1 s) after the time of the call. *)
Theorem idle_ingest_starts_after_initial_delay (ops : list Op)
    (chunk : Uint8Array.t) (now : Q) :
  let s := run init ops in
  let s' := addPCM16 chunk now s in
  isPlaying s = false -> 0 < length (samples chunk) ->
  isPlaying s' = true /\
  nextNode s < nextNode s' /\
  scheduledAt (nodes s') (nextNode s) =
    Some (take bufferSize (samples chunk), (now + (1 # 10))%Q).
Proof.
  cbv zeta. intros Hp Hpos.
  destruct (run_awake ops init awake_init) as [Hidle _].
  specialize (Hidle Hp). set (s := run init ops) in *.
  split; [apply addPCM16_isPlaying|].
  destruct (blocksOf_head (samples chunk) Hpos) as [rest Hblocks].
  rewrite addPCM16_unfold. cbv zeta. rewrite Hp, Hidle. cbn [app].
  set (s1 := set_scheduledTime _ _).
  assert (audioQueue s1 = take bufferSize (samples chunk) :: rest) as Hq
    by (subst s1; state_simpl; exact Hblocks).
  assert (scheduledTime s1 = (now + initialBufferTime)%Q) as Hc by done.
  assert (nextNode s1 = nextNode s) as Hn by done.
  assert (scheduledTime s1 < now + SCHEDULE_AHEAD_TIME)%Q as Hg
    by (rewrite Hc; unfold initialBufferTime, SCHEDULE_AHEAD_TIME; lra).
  unfold scheduleNextBuffer.
  destruct (rearm_same_schedule
              (scheduleLoop (S (length (audioQueue s1))) now s1))
    as (Hn' & _ & _ & Hsame).
  rewrite Hn', Hsame, <- Hn. split.
  - cbn [scheduleLoop]. rewrite Hq. apply Qltb_lt in Hg. rewrite Hg.
    pose proof (scheduleLoop_nextNode (length (audioQueue s1)) now
                  (scheduleBody now s1)) as Hle.
    rewrite Hq in Hle. rewrite (body_nextNode now s1 _ _ Hq) in Hle. lia.
  - rewrite (scheduleLoop_first _ now s1 _ _ Hq Hg), Hc.
    rewrite Qmax_left; [done|]. unfold initialBufferTime. lra.
Qed.

Lemma idle_ingest_starts_after_initial_delay_witness :
  scheduledAt (nodes (addPCM16 chunk1 5 (run init [OpStop 3]))) 0 =
  Some (take bufferSize (samples chunk1), (5 + (1 # 10))%Q).
Proof.
  apply (idle_ingest_starts_after_initial_delay [OpStop 3] chunk1 5);
    [reflexivity|vm_compute; lia].
Defined.

(** ** The graph built by the constructor *)




(** ** The ambient pad *)

Lemma pad_ok_ext s s' : pad s' = pad s -> pad_ok s -> pad_ok s'.
Proof.
  unfold pad, pad_ok. intros H. injection H as -> -> ->. done.
Qed.

Lemma passive_pad s s' : passive s' = passive s -> pad s' = pad s.
Proof. unfold passive, pad. intros H. injection H; intros; congruence. Qed.

Lemma startPad_pad_ok volume now random s :
  unit_random random -> pad_ok s -> pad_ok (startPad volume now random s).
Proof.
  intros Hr Hok. unfold startPad.
  destruct (padGain s) eqn:Hg; [done|].
  unfold pad_ok in *. rewrite Hg in Hok. destruct Hok as [_ Hosc].
  state_simpl. rewrite Hosc. cbn.
  split; [done|]. split; [done|]. split; [done|].
  repeat constructor; cbn;
    match goal with
    | |- context [random ?k] => destruct (Hr k); lra
    end.
Qed.

Lemma step_pad_ok s op : fair op -> pad_ok s -> pad_ok (step s op).
Proof.
  intros Hfair Hok. destruct op; cbn [step].
  - eapply pad_ok_ext; [|exact Hok].
    exact (passive_pad _ _ (addPCM16_passive chunk now s)).
  - eapply pad_ok_ext; [|exact Hok]. unfold pad.
    by rewrite stop_padGain, stop_padOscillators, stop_padFilter.
  - exact Hok.
  - exact Hok.
  - by apply startPad_pad_ok.
  - unfold setPadVolume. destruct (padGain s) eqn:Hg; [|done].
    unfold pad_ok in *. rewrite Hg in Hok. exact Hok.
  - unfold stopPad. destruct (padGain s) eqn:Hg; [|done].
    unfold pad_ok in *. rewrite Hg in Hok. exact Hok.
  - unfold onended.
    destruct (src_onended <$> nodes s !! source) as [[| |]|]; try exact Hok.
    cbn. destruct (audioQueue s); [|exact Hok]. case_decide; exact Hok.
  - case_decide; [|done]. unfold onInterval.
    destruct (audioQueue s); [done|].
    eapply pad_ok_ext; [|exact Hok].
    apply passive_pad, scheduleNextBuffer_passive.
  - destruct (timeouts s) as [|n]; [done|].
    eapply pad_ok_ext; [|exact Hok]. apply passive_pad.
    by rewrite scheduleNextBuffer_passive.
  - destruct (padTimeouts s); [done|]. by split.
Qed.

Lemma run_pad_ok ops s : Forall fair ops -> pad_ok s -> pad_ok (run s ops).
Proof.
  revert s. induction ops as [|op ops IH]; intros s Hfair Hok; [done|].
  apply Forall_cons in Hfair as [H1 H2]. cbn. apply IH; [done|].
  by apply step_pad_ok.
Qed.

(** X13. Provided every [Math.random()] result lies in [0, 1), in every
    reachable state the pad is either absent altogether (no gain stage, no
    filter, no oscillator) or complete and single: its gain stage is
    connected, the filter is the 400 Hz, Q = 1 low-pass, and there are
    exactly the three triangle oscillators at 146.83, 220 and 293.66 Hz,
    each detuned by at least -5 and less than 5 cents.  Oscillator sets
    are never duplicated. *)
Theorem pad_is_absent_or_complete (ops : list Op) :
  Forall fair ops ->
  let s := run init ops in
  match padGain s with
  | None => padFilter s = None /\ padOscillators s = []
  | Some g =>
      gain_connected g = true /\
      padFilter s = Some (mkFilter 400 1) /\
      length (padOscillators s) = 3 /\
      map osc_frequency (padOscillators s) = freqs /\
      Forall (fun o => osc_type o = triangle /\
                       (-5 <= osc_detune o)%Q /\ (osc_detune o < 5)%Q)
        (padOscillators s)
  end.
Proof.
  intros Hfair. cbv zeta.
  assert (pad_ok init) as H0 by (by split).
  pose proof (run_pad_ok ops init Hfair H0) as Hok. unfold pad_ok in Hok.
  destruct (padGain (run init ops)); [|done].
  destruct Hok as (H1 & H2 & H3 & H4). repeat split; try done.
  by rewrite <- (length_map osc_frequency), H3.
Qed.

Lemma pad_is_absent_or_complete_witness :
  Forall fair padOps /\ length (padOscillators (run init padOps)) = 3.
Proof.
  assert (Forall fair padOps) as Hfair by (repeat constructor; cbn; lra).
  split; [exact Hfair|].
  generalize (pad_is_absent_or_complete padOps Hfair).
  vm_compute. intros (_ & _ & H & _). exact H.
Defined.

Lemma stopPad_running now s g :
  padGain s = Some g ->
  stopPad now s =
  set_padTimeouts (S (padTimeouts s))
    (set_padGain (Some (rampTo 0 (now + 2) g)) s).
Proof. intros Hg. unfold stopPad. by rewrite Hg. Qed.

(** X14. A pad restart requested during the two-second fade-out is
    lost.  From any state with the pad running: [stopPad] followed by
    [startPad] leaves the oscillators and filter as they were and only
    records the fade-out ramp (the restart is a no-op), and when the
    teardown timer armed by [stopPad] then fires the pad is removed,
    although [startPad] was the last request.  Likewise the teardown armed
    by a second [stopPad] removes a pad that was started after the first
    teardown. *)
Theorem pad_restart_during_fade_out_is_lost (s : State) (g : GainNode)
    (now1 now2 now3 volume volume' : Q) (random random' : nat -> Q) :
  padGain s = Some g ->
  let s2 := run s [OpStopPad now1; OpStartPad volume now2 random] in
  padGain s2 = Some (rampTo 0 (now1 + 2) g) /\
  padOscillators s2 = padOscillators s /\
  padFilter s2 = padFilter s /\
  padTimeouts s2 = S (padTimeouts s) /\
  pad (step s2 OpPadTimeout) = (None, [], None) /\
  pad (run s [OpStopPad now1; OpStopPad now2; OpPadTimeout;
              OpStartPad volume' now3 random'; OpPadTimeout]) =
    (None, [], None).
Proof.
  intros Hg. cbv zeta. unfold run. cbn [fold_left step].
  rewrite !(stopPad_running now1 s g Hg).
  rewrite (startPad_running volume now2 random) by done.
  rewrite (stopPad_running now2 _ (rampTo 0 (now1 + 2) g)) by done.
  repeat split.
Qed.

Lemma pad_restart_during_fade_out_is_lost_witness :
  padGain padStarted = Some (rampTo (3 # 10) (0 + 2) (mkGain 0 [] true)) /\
  pad (run padStarted [OpStopPad 1; OpStartPad (3 # 10) 2 (fun _ => 0%Q);
                       OpPadTimeout]) = (None, [], None).
Proof.
  assert (padGain padStarted =
          Some (rampTo (3 # 10) (0 + 2) (mkGain 0 [] true))) as Hg
    by reflexivity.
  split; [exact Hg|].
  generalize (pad_restart_during_fade_out_is_lost padStarted _ 1 2 0
                (3 # 10) 0 (fun _ => 0%Q) (fun _ => 0%Q) Hg).
  vm_compute. intros (_ & _ & _ & _ & H & _). exact H.
Defined.

(** * The end-of-queue marker and [onComplete] *)

Lemma stopSource_onended n : src_onended (stopSource n) = src_onended n.
Proof. unfold stopSource. by destruct (src_start n). Qed.

Lemma marked_ext s s' :
  endOfQueueAudioSource s' = endOfQueueAudioSource s ->
  nextNode s' = nextNode s -> nodes s' = nodes s ->
  marked s -> marked s'.
Proof. unfold marked. by intros -> -> ->. Qed.

Lemma scheduleBody_marked now s audioData rest :
  audioQueue s = audioData :: rest -> marked s -> marked (scheduleBody now s).
Proof.
  intros Hq Hm e.
  rewrite (body_endOfQueueAudioSource now s _ _ Hq),
    (body_nextNode now s _ _ Hq), (body_nodes now s _ _ Hq).
  destruct rest as [|b rest].
  - intros [= <-]. split; [lia|]. by rewrite lookup_insert_eq.
  - intros He. destruct (Hm e He) as [Hlt Hhook]. split; [lia|].
    rewrite lookup_insert_ne by lia. exact Hhook.
Qed.

Lemma rearm_marked s : marked s -> marked (rearm s).
Proof.
  pose proof (rearm_playback s) as H. unfold playback in H.
  apply marked_ext; injection H; intros; congruence.
Qed.

Lemma step_marked s op : marked s -> marked (step s op).
Proof.
  intros Hm. destruct op; cbn [step].
  - rewrite addPCM16_unfold. cbv zeta.
    destruct (isPlaying s); [exact Hm|].
    apply scheduleNextBuffer_preserves;
      [intros; by eapply scheduleBody_marked|apply rearm_marked|exact Hm].
  - intros e.
    rewrite stop_endOfQueueAudioSource, stop_nextNode, stop_nodes,
      stop_all_lookup.
    intros He. destruct (Hm e He) as [Hlt Hhook]. split; [done|].
    case_decide; [|done]. rewrite <- option_fmap_compose.
    destruct (nodes s !! e) as [n|]; [|done]. cbn in *.
    by rewrite stopSource_onended.
  - exact Hm.
  - exact Hm.
  - unfold startPad. destruct (padGain s); exact Hm.
  - unfold setPadVolume. destruct (padGain s); exact Hm.
  - unfold stopPad. destruct (padGain s); exact Hm.
  - unfold onended.
    destruct (src_onended <$> nodes s !! source) as [[| |]|]; try exact Hm.
    cbn. destruct (audioQueue s); [|exact Hm].
    case_decide; [|exact Hm]. intros e. state_simpl. done.
  - case_decide; [|done]. unfold onInterval.
    destruct (audioQueue s); [done|].
    apply scheduleNextBuffer_preserves;
      [intros; by eapply scheduleBody_marked|apply rearm_marked|exact Hm].
  - destruct (timeouts s) as [|n]; [done|].
    apply scheduleNextBuffer_preserves;
      [intros; by eapply scheduleBody_marked|apply rearm_marked|exact Hm].
  - destruct (padTimeouts s); exact Hm.
Qed.

Lemma run_marked ops s : marked s -> marked (run s ops).
Proof.
  revert s. induction ops as [|op ops IH]; intros s Hm; [done|].
  cbn. apply IH. by apply step_marked.
Qed.

Lemma marked_init : marked init.
Proof. intros e. cbn. done. Qed.

(** X15. In every reachable state the end-of-queue marker, when set,
    names an existing node that still carries the end-of-queue hook.
    Hence the ended notification of a node invokes [onComplete] exactly
    when that node is the current marker and the queue is empty; the
    notification then clears the marker, and in every other case it leaves
    the count of [onComplete] calls and the marker unchanged. *)
Theorem ended_fires_onComplete_iff_marker_and_empty_queue
    (ops : list Op) (source : nat) :
  let s := run init ops in
  let s' := onended source s in
  (forall e, endOfQueueAudioSource s = Some e ->
     e < nextNode s /\ src_onended <$> nodes s !! e = Some HEndOfQueue) /\
  (audioQueue s = [] /\ endOfQueueAudioSource s = Some source ->
     completions s' = S (completions s) /\
     endOfQueueAudioSource s' = None) /\
  (~ (audioQueue s = [] /\ endOfQueueAudioSource s = Some source) ->
     completions s' = completions s /\
     endOfQueueAudioSource s' = endOfQueueAudioSource s).
Proof.
  cbv zeta. pose proof (run_marked ops init marked_init) as Hm.
  set (s := run init ops) in *. split; [exact Hm|]. split.
  - intros [Hq He]. destruct (Hm source He) as [_ Hhook].
    unfold onended. rewrite Hhook. state_simpl. rewrite Hq.
    by rewrite decide_True by done.
  - intros Hno. unfold onended.
    destruct (src_onended <$> nodes s !! source) as [[| |]|]; try done.
    state_simpl. destruct (audioQueue s); [|done].
    case_decide; [|done]. by destruct Hno.
Qed.

Lemma ended_fires_onComplete_iff_marker_and_empty_queue_witness :
  completions (onended 0 playing1) = 1 /\
  completions (onended 0 queued1) = 0.
Proof.
  destruct (ended_fires_onComplete_iff_marker_and_empty_queue
              [OpAddPCM16 chunk3 0] 0) as (_ & Hyes & _).
  destruct (ended_fires_onComplete_iff_marker_and_empty_queue
              [OpAddPCM16 chunk3 0; OpAddPCM16 chunk1 (1 # 100)] 0)
    as (_ & _ & Hno).
  split.
  - apply Hyes. by split.
  - apply Hno. intros [Hq _]. discriminate Hq.
Defined.

Lemma onended_marker s e :
  src_onended <$> nodes s !! e = Some HEndOfQueue ->
  audioQueue s = [] -> endOfQueueAudioSource s = Some e ->
  onended e s =
  set_completions (S (completions s))
    (set_endOfQueueAudioSource None
       (set_activeSources (activeSources s ∖ {[ e ]}) s)).
Proof.
  intros Hh Hq He. unfold onended. rewrite Hh. state_simpl. rewrite Hq.
  by rewrite decide_True by done.
Qed.

Lemma onended_onended source s :
  onended source (onended source s) = onended source s.
Proof.
  unfold onended at 2 3.
  destruct (src_onended <$> nodes s !! source) as [[| |]|] eqn:Hh.
  - unfold onended. by rewrite Hh.
  - state_simpl. destruct (audioQueue s) eqn:Hq.
    + case_decide as He.
      * unfold onended. state_simpl. rewrite Hh, Hq.
        rewrite decide_False by done. by rewrite difference_twice_L.
      * unfold onended. state_simpl. rewrite Hh, Hq.
        rewrite decide_False by done. by rewrite difference_twice_L.
    + unfold onended. state_simpl. rewrite Hh, Hq. by rewrite difference_twice_L.
  - unfold onended. state_simpl. rewrite Hh. by rewrite difference_twice_L.
  - unfold onended. by rewrite Hh.
Qed.

Lemma onended_marker_fires s e :
  src_onended <$> nodes s !! e = Some HEndOfQueue ->
  audioQueue s = [] -> endOfQueueAudioSource s = Some e ->
  completions (onended e s) = S (completions s) /\
  endOfQueueAudioSource (onended e s) = None.
Proof. intros Hh Hq He. by rewrite (onended_marker s e Hh Hq He). Qed.

Lemma run_cons s op ops : run s (op :: ops) = run (step s op) ops.
Proof. reflexivity. Qed.

Lemma run_nil s : run s [] = s.
Proof. reflexivity. Qed.

Lemma run_app s ops1 ops2 : run s (ops1 ++ ops2) = run (run s ops1) ops2.
Proof. apply fold_left_app. Qed.

Lemma step_stop s now : step s (OpStop now) = stop now s.
Proof. reflexivity. Qed.

Lemma step_ended s source : step s (OpEnded source) = onended source s.
Proof. reflexivity. Qed.

(** X16. Interrupting playback completes it: in every reachable state
    whose end-of-queue marker is set, once [stop()] has run, the ended
    notification of the marker's node (the host delivers it for a node
    that [stop()] halted) finds the queue empty and invokes [onComplete]
    once; the marker is then cleared, and a repeated notification does
    nothing more. *)
Theorem stop_then_ended_fires_onComplete (ops : list Op) (now : Q)
    (e : nat) :
  let s := run init ops in
  endOfQueueAudioSource s = Some e ->
  completions (run s [OpStop now]) = completions s /\
  completions (run s [OpStop now; OpEnded e]) = S (completions s) /\
  endOfQueueAudioSource (run s [OpStop now; OpEnded e]) = None /\
  run s [OpStop now; OpEnded e; OpEnded e] = run s [OpStop now; OpEnded e].
Proof.
  cbv zeta. intros He.
  pose proof (run_marked (ops ++ [OpStop now]) init marked_init) as Hm.
  rewrite run_app in Hm. generalize dependent (run init ops). intros s He Hm.
  rewrite !run_cons, !run_nil, !step_ended, !step_stop in *.
  assert (endOfQueueAudioSource (stop now s) = Some e) as He'
    by (by rewrite stop_endOfQueueAudioSource).
  destruct (Hm e He') as [_ Hhook].
  destruct (onended_marker_fires (stop now s) e Hhook (stop_audioQueue now s)
              He') as [H1 H2].
  rewrite H1, H2, stop_completions, onended_onended. done.
Qed.

Lemma stop_then_ended_fires_onComplete_witness :
  endOfQueueAudioSource (run init [OpAddPCM16 chunk3 0]) = Some 0 /\
  completions (run (run init [OpAddPCM16 chunk3 0]) [OpStop 1; OpEnded 0]) =
  S (completions (run init [OpAddPCM16 chunk3 0])).
Proof.
  assert (endOfQueueAudioSource (run init [OpAddPCM16 chunk3 0]) = Some 0)
    as He by (vm_compute; reflexivity).
  split; [exact He|].
  apply (stop_then_ended_fires_onComplete [OpAddPCM16 chunk3 0] 1 0 He).
Defined.

(** X17. Delivering the ended notification of a node twice has the
    same effect as delivering it once, in any state: the node leaves the
    active set once and [onComplete] is invoked at most once. *)
Theorem ended_is_idempotent (source : nat) (s : State) :
  onended source (onended source s) = onended source s /\
  completions (onended source s) <= S (completions s).
Proof.
  split; [apply onended_onended|].
  - unfold onended.
    destruct (src_onended <$> nodes s !! source) as [[| |]|]; cbn; try lia.
    destruct (audioQueue s); [|cbn; lia]. case_decide; cbn; lia.
Qed.

(** * A completed stream that has already drained *)

Lemma step_drained id s op :
  quiet op = true ->
  audioQueue s = [] /\ isPlaying s = true /\ timeouts s = 0 /\
  checkInterval s = Some id ->
  let s' := step s op in
  (audioQueue s' = [] /\ isPlaying s' = true /\ timeouts s' = 0 /\
   checkInterval s' = Some id) /\
  intervals s' = intervals s.
Proof.
  intros Hquiet (Hq & Hp & Ht & Hc). cbv zeta.
  destruct op; try discriminate Hquiet; cbn [step].
  - done.
  - done.
  - unfold startPad. by destruct (padGain s).
  - unfold setPadVolume. by destruct (padGain s).
  - unfold stopPad. by destruct (padGain s).
  - unfold onended.
    destruct (src_onended <$> nodes s !! source) as [[| |]|]; try done.
    state_simpl. rewrite Hq. by case_decide.
  - case_decide; [|done]. unfold onInterval. by rewrite Hq.
  - by rewrite Ht.
  - by destruct (padTimeouts s).
Qed.

(** X18. Once the loop has scheduled everything it was given (queue
    empty, loop marked playing, recheck interval armed, no one-shot timer
    pending), nothing but an ingest or [stop()] changes that: whatever
    sequence of [complete()], [resume()], pad operations, ended
    notifications and timer callbacks follows, the loop stays marked
    playing and the same 100 ms recheck interval stays armed and live.
    In particular [complete()] called after the queue has drained never
    returns the loop to idle: the interval callback runs a pass only when
    the queue is non-empty. *)
Theorem drained_loop_stays_armed (s : State) (id : positive)
    (ops : list Op) :
  audioQueue s = [] -> isPlaying s = true -> timeouts s = 0 ->
  checkInterval s = Some id ->
  Forall (fun op => quiet op = true) ops ->
  let s' := run s ops in
  audioQueue s' = [] /\ isPlaying s' = true /\
  checkInterval s' = Some id /\ intervals s' = intervals s.
Proof.
  intros Hq Hp Ht Hc Hops. cbv zeta.
  assert ((audioQueue (run s ops) = [] /\ isPlaying (run s ops) = true /\
           timeouts (run s ops) = 0 /\
           checkInterval (run s ops) = Some id) /\
          intervals (run s ops) = intervals s) as [(H1 & H2 & _ & H3) H4];
    [|done].
  revert s Hq Hp Ht Hc.
  induction Hops as [|op ops Hquiet _ IH]; intros s Hq Hp Ht Hc; [done|].
  destruct (step_drained id s op Hquiet) as [Hs Hi]; [done|].
  rewrite run_cons. destruct Hs as (Hq' & Hp' & Ht' & Hc').
  destruct (IH (step s op) Hq' Hp' Ht' Hc') as [HI1 HI2].
  split; [exact HI1|]. by rewrite HI2.
Qed.

Lemma drained_loop_stays_armed_witness :
  isPlaying
    (run playing1 [OpComplete; OpInterval 1 (2 # 10); OpEnded 0;
                   OpTimeout 1; OpInterval 1 (3 # 10)]) = true.
Proof.
  apply (drained_loop_stays_armed playing1 1
           [OpComplete; OpInterval 1 (2 # 10); OpEnded 0; OpTimeout 1;
            OpInterval 1 (3 # 10)]); try reflexivity.
  by repeat constructor.
Defined.

(** * Repeating [stop] *)

Lemma State_ext (s s' : State) :
  audioQueue s = audioQueue s' -> isPlaying s = isPlaying s' ->
  isStreamComplete s = isStreamComplete s' ->
  checkInterval s = checkInterval s' ->
  scheduledTime s = scheduledTime s' -> gainNode s = gainNode s' ->
  activeSources s = activeSources s' ->
  endOfQueueAudioSource s = endOfQueueAudioSource s' ->
  keepAliveOscillator s = keepAliveOscillator s' ->
  padGain s = padGain s' -> padOscillators s = padOscillators s' ->
  padFilter s = padFilter s' -> nodes s = nodes s' ->
  nextNode s = nextNode s' -> intervals s = intervals s' ->
  nextTimer s = nextTimer s' -> timeouts s = timeouts s' ->
  padTimeouts s = padTimeouts s' -> completions s = completions s' ->
  console s = console s' -> s = s'.
Proof. destruct s, s'; cbn; intros; subst; reflexivity. Qed.

Lemma stop_stopped now s :
  isPlaying s = false -> isStreamComplete s = true -> audioQueue s = [] ->
  activeSources s = ∅ -> checkInterval s = None ->
  stop now s = set_scheduledTime now s.
Proof.
  intros Hp Hc Hq Ha Hi. apply State_ext.
  - by rewrite stop_audioQueue.
  - by rewrite stop_isPlaying.
  - by rewrite stop_isStreamComplete.
  - by rewrite stop_checkInterval.
  - by rewrite stop_scheduledTime.
  - by rewrite stop_gainNode.
  - by rewrite stop_activeSources.
  - by rewrite stop_endOfQueueAudioSource.
  - by rewrite stop_keepAliveOscillator.
  - by rewrite stop_padGain.
  - by rewrite stop_padOscillators.
  - by rewrite stop_padFilter.
  - rewrite stop_nodes, Ha. by rewrite set_fold_empty.
  - by rewrite stop_nextNode.
  - rewrite stop_intervals, Hi. done.
  - by rewrite stop_nextTimer.
  - by rewrite stop_timeouts.
  - by rewrite stop_padTimeouts.
  - by rewrite stop_completions.
  - by rewrite stop_console.
Qed.

(** X19. [stop()] is idempotent: called again on a streamer it has just
    stopped, at whatever time, it changes nothing but the cursor, which it
    re-stamps with the current time; at the same instant a second call
    changes nothing at all. *)
Theorem stop_is_idempotent (now1 now2 : Q) (s : State) :
  stop now2 (stop now1 s) = set_scheduledTime now2 (stop now1 s) /\
  stop now1 (stop now1 s) = stop now1 s.
Proof.
  assert (forall now, stop now (stop now1 s) =
                      set_scheduledTime now (stop now1 s)) as H.
  { intros now. apply stop_stopped.
    - apply stop_isPlaying.
    - apply stop_isStreamComplete.
    - apply stop_audioQueue.
    - apply stop_activeSources.
    - apply stop_checkInterval. }
  split; [apply H|]. rewrite H.
  pose proof (stop_scheduledTime now1 s) as Ht.
  destruct (stop now1 s). cbn in *. by subst.
Qed.

(** * The pad and speech playback are independent *)

(** X20. The ambient pad never disturbs speech playback: [startPad],
    [setPadVolume], [stopPad] and the teardown timer of [stopPad] leave
    the queue, the source nodes, the active set, the marker, the cursor,
    the playing and stream-complete flags, every scheduling timer, the
    [onComplete] and console counts, the main gain stage and the
    keep-alive oscillator exactly as they were. *)
Theorem pad_operations_leave_speech_alone (s : State) (op : Op) :
  isPadOp op = true ->
  let s' := step s op in
  audioQueue s' = audioQueue s /\ nodes s' = nodes s /\
  nextNode s' = nextNode s /\
  activeSources s' = activeSources s /\
  endOfQueueAudioSource s' = endOfQueueAudioSource s /\
  scheduledTime s' = scheduledTime s /\
  isPlaying s' = isPlaying s /\ isStreamComplete s' = isStreamComplete s /\
  checkInterval s' = checkInterval s /\ intervals s' = intervals s /\
  nextTimer s' = nextTimer s /\ timeouts s' = timeouts s /\
  completions s' = completions s /\ console s' = console s /\
  gainNode s' = gainNode s /\
  keepAliveOscillator s' = keepAliveOscillator s.
Proof.
  intros Hop. cbv zeta.
  destruct op; try discriminate Hop; cbn [step].
  - unfold startPad. destruct (padGain s); repeat split.
  - unfold setPadVolume. destruct (padGain s); repeat split.
  - unfold stopPad. destruct (padGain s); repeat split.
  - destruct (padTimeouts s); repeat split.
Qed.

Lemma pad_operations_leave_speech_alone_witness :
  isPadOp (OpStopPad 1) = true /\
  audioQueue (step queued1 (OpStopPad 1)) = audioQueue queued1.
Proof.
  split; [reflexivity|].
  apply (pad_operations_leave_speech_alone queued1 (OpStopPad 1)).
  reflexivity.
Defined.

(** * The worklet registry *)

Lemma worklets_run_snoc h events e :
  Worklets.run h (events ++ [e]) = Worklets.step (Worklets.run h events) e.
Proof. unfold Worklets.run. by rewrite fold_left_app. Qed.

Lemma remove1_length x l :
  x ∈ l -> length l = S (length (Worklets.remove1 x l)).
Proof.
  induction l as [|y l IH]; [by intros ?%elem_of_nil|].
  intros Hin. cbn. case_decide as Hxy; [done|].
  apply elem_of_cons in Hin as [?|Hin]; [done|]. cbn. by rewrite <- IH.
Qed.

Lemma remove1_length_le x l : length (Worklets.remove1 x l) <= length l.
Proof.
  induction l as [|y l IH]; [done|]. cbn. case_decide; cbn; lia.
Qed.

(** What an event does to the handlers registered under a name. *)
Lemma worklets_step_handlers name h e :
  default [] (Worklets.handlers <$> Worklets.graphOf name (Worklets.step h e)) =
  default [] (Worklets.handlers <$> Worklets.graphOf name h) ++
  Worklets.handlersGiven name [e].
Proof.
  unfold Worklets.graphOf, Worklets.handlersGiven.
  destruct e as [n src handler|n|n]; cbn [Worklets.step omap list_omap].
  - unfold Worklets.addWorklet.
    destruct (Worklets.registered h) as [record|] eqn:Hr; cbn.
    + destruct (record !! n) as [graph|] eqn:Hn; cbn.
      * case_decide as Hnn.
        -- subst n. by rewrite lookup_insert_eq, Hn.
        -- rewrite lookup_insert_ne by done. by rewrite app_nil_r.
      * case_decide as Hnn.
        -- subst n. by rewrite lookup_insert_eq, Hn.
        -- rewrite lookup_insert_ne by done. by rewrite app_nil_r.
    + case_decide as Hnn.
      * subst n. by rewrite lookup_insert_eq.
      * rewrite lookup_insert_ne by done. by rewrite lookup_empty.
  - rewrite app_nil_r. case_decide; [|done].
    unfold Worklets.addWorklet_resumed. cbn.
    destruct (Worklets.registered h) as [record|]; [|done]. cbn.
    destruct (decide (n = name)) as [->|Hne].
    + rewrite lookup_alter_eq. by destruct (record !! name).
    + by rewrite lookup_alter_ne.
  - by rewrite app_nil_r.
Qed.

Lemma worklets_run_handlers name events h :
  default [] (Worklets.handlers <$>
                Worklets.graphOf name (Worklets.run h events)) =
  default [] (Worklets.handlers <$> Worklets.graphOf name h) ++
  Worklets.handlersGiven name events.
Proof.
  revert h. induction events as [|e events IH]; intros h.
  - by rewrite app_nil_r.
  - change (Worklets.run h (e :: events))
      with (Worklets.run (Worklets.step h e) events).
    rewrite IH, worklets_step_handlers, <- app_assoc. f_equal.
    unfold Worklets.handlersGiven.
    destruct e as [n src handler|n|n]; cbn; [case_decide|..]; done.
Qed.


Lemma graphOf_addWorklet name n src handler h :
  Worklets.graphOf name (Worklets.addWorklet n src handler h) =
  if decide (n = name) then
    Some (match Worklets.graphOf n h with
          | Some graph =>
              Worklets.mkGraph (Worklets.node graph)
                (Worklets.handlers graph ++ [handler])
          | None => Worklets.mkGraph None [handler]
          end)
  else Worklets.graphOf name h.
Proof.
  unfold Worklets.graphOf, Worklets.addWorklet.
  destruct (Worklets.registered h) as [record|]; cbn.
  - destruct (record !! n) as [graph|] eqn:Hn; cbn;
      (case_decide as Hnn;
       [subst n; by rewrite lookup_insert_eq
       |by rewrite lookup_insert_ne by done]).
  - case_decide as Hnn.
    + subst n. by rewrite lookup_insert_eq.
    + rewrite lookup_insert_ne by done. by rewrite lookup_empty.
Qed.

Lemma graphOf_resumed name n h :
  Worklets.graphOf name (Worklets.addWorklet_resumed n h) =
  if decide (n = name) then
    (fun graph =>
       Worklets.mkGraph (Some (Worklets.created h)) (Worklets.handlers graph))
      <$> Worklets.graphOf n h
  else Worklets.graphOf name h.
Proof.
  unfold Worklets.graphOf, Worklets.addWorklet_resumed. cbn.
  destruct (Worklets.registered h) as [record|]; cbn.
  - case_decide as Hnn.
    + subst n. by rewrite lookup_alter_eq.
    + by rewrite lookup_alter_ne.
  - by case_decide.
Qed.

Lemma worklets_inv_init : worklets_inv Worklets.init.
Proof.
  repeat split; cbn; try done; try constructor.
  by intros ?%elem_of_nil.
Qed.

Lemma worklets_step_inv h e : worklets_inv h -> worklets_inv (Worklets.step h e).
Proof.
  intros (Hnd & Hdom & Hcount & Hne & Hnode).
  destruct e as [n src handler|n|n]; cbn [Worklets.step].
  - pose proof (graphOf_addWorklet) as Hg.
    specialize (fun name => Hg name n src handler h).
    unfold worklets_inv. setoid_rewrite Hg.
    destruct (Worklets.graphOf n h) as [graph|] eqn:Hn.
    + assert (Worklets.modules (Worklets.addWorklet n src handler h) =
              Worklets.modules h /\
              Worklets.awaiting (Worklets.addWorklet n src handler h) =
              Worklets.awaiting h /\
              Worklets.created (Worklets.addWorklet n src handler h) =
              Worklets.created h) as (-> & -> & ->).
      { unfold Worklets.addWorklet. unfold Worklets.graphOf in Hn.
        by rewrite Hn. }
      split; [done|]. split; [|split; [done|split]].
      * intros name. rewrite Hdom. case_decide as Hnn; [|done].
        subst n. rewrite Hn. split; by eauto.
      * intros name g. case_decide; [|by apply Hne].
        intros [= <-]. cbn. by destruct (Worklets.handlers graph).
      * intros name g w. case_decide as Hnn.
        -- subst n. intros [= <-] Hw. cbn in Hw.
           destruct (Hnode name graph w Hn Hw) as [Hlt Huniq].
           split; [done|]. intros name' g'.
           case_decide as Hnn'; [done|]. apply Huniq.
        -- intros Hname Hw.
           destruct (Hnode name g w Hname Hw) as [Hlt Huniq].
           split; [done|]. intros name' g'.
           case_decide as Hnn'; [|by apply Huniq].
           subst n. intros [= <-]. cbn. intros Hw'.
           by apply (Huniq name' graph).
    + assert (Worklets.modules (Worklets.addWorklet n src handler h) =
              Worklets.modules h ++ [(n, src)] /\
              Worklets.awaiting (Worklets.addWorklet n src handler h) =
              Worklets.awaiting h ++ [n] /\
              Worklets.created (Worklets.addWorklet n src handler h) =
              Worklets.created h) as (-> & -> & ->).
      { unfold Worklets.addWorklet. unfold Worklets.graphOf in Hn.
        by rewrite Hn. }
      assert (n ∉ (Worklets.modules h).*1) as Hfresh.
      { intros Hin. apply Hdom in Hin. rewrite Hn in Hin. by destruct Hin. }
      rewrite fmap_app, !length_app. cbn [fmap list_fmap fst length].
      split; [|split; [|split; [lia|split]]].
      * apply NoDup_app. split; [done|]. split; [|apply NoDup_singleton].
        intros x Hx ->%list_elem_of_singleton. done.
      * intros name. rewrite elem_of_app, list_elem_of_singleton, Hdom.
        case_decide as Hnn.
        -- subst n. split; [by eauto|]. by right.
        -- split; [intros [?|?]; done|by left].
      * intros name g. case_decide; [|by apply Hne]. by intros [= <-].
      * intros name g w. case_decide as Hnn; [by intros [= <-]|].
        intros Hname Hw. destruct (Hnode name g w Hname Hw) as [Hlt Huniq].
        split; [done|]. intros name' g'.
        case_decide as Hnn'; [by intros [= <-]|]. apply Huniq.
  - case_decide as Hin; [|done].
    pose proof (remove1_length n _ Hin) as Hlen.
    unfold worklets_inv. setoid_rewrite graphOf_resumed.
    cbn [Worklets.addWorklet_resumed Worklets.modules Worklets.awaiting
         Worklets.created Worklets.registered].
    change (Worklets.graphOf ?x (Worklets.mkHost (Worklets.registered h) _ _ _))
      with (Worklets.graphOf x h).
    split; [done|]. split; [|split; [lia|split]].
    + intros name. rewrite Hdom. case_decide as Hnn; [|done].
      subst n. by rewrite fmap_is_Some.
    + intros name g. case_decide as Hnn; [|by apply Hne].
      subst n. destruct (Worklets.graphOf name h) as [g0|] eqn:Hg0; [|done].
      intros [= <-]. cbn. by eapply Hne.
    + intros name g w. case_decide as Hnn.
      * subst n.
        destruct (Worklets.graphOf name h) as [g0|] eqn:Hg0; [|done].
        intros [= <-] [= <-]. split; [lia|]. intros name' g'.
        case_decide as Hnn'; [done|]. intros Hg' Hw'.
        destruct (Hnode name' g' _ Hg' Hw') as [Hlt _]. lia.
      * intros Hname Hw. destruct (Hnode name g w Hname Hw) as [Hlt Huniq].
        split; [lia|]. intros name' g'.
        case_decide as Hnn'; [|by apply Huniq].
        subst n.
        destruct (Worklets.graphOf name' h) as [g0|] eqn:Hg0; [|done].
        intros [= <-] [= <-]. lia.
  - pose proof (remove1_length_le n (Worklets.awaiting h)) as Hlen.
    unfold worklets_inv. cbn [Worklets.modules Worklets.awaiting
                              Worklets.created].
    change (Worklets.graphOf ?x (Worklets.mkHost (Worklets.registered h) _ _ _))
      with (Worklets.graphOf x h).
    repeat split; try done; try lia; try apply Hdom.
    + by eapply Hnode.
    + intros name' g'. by eapply Hnode.
Qed.

Lemma worklets_run_inv events h :
  worklets_inv h -> worklets_inv (Worklets.run h events).
Proof.
  revert h. induction events as [|e events IH]; intros h Hinv; [done|].
  apply IH. by apply worklets_step_inv.
Qed.

Lemma remove1_elem_of x y l : x ∈ Worklets.remove1 y l -> x ∈ l.
Proof.
  induction l as [|z l IH]; cbn; [done|].
  case_decide; rewrite !elem_of_cons; [by right|]. intros [?|?]; auto.
Qed.

Lemma remove1_elem_of_ne x y l : x <> y -> x ∈ l -> x ∈ Worklets.remove1 y l.
Proof.
  intros Hne. induction l as [|z l IH]; cbn; [done|].
  case_decide; rewrite !elem_of_cons; [intros [?|?]; congruence|].
  intros [?|?]; auto.
Qed.

Lemma remove1_NoDup y l :
  NoDup l -> NoDup (Worklets.remove1 y l) /\ y ∉ Worklets.remove1 y l.
Proof.
  induction l as [|z l IH]; cbn;
    [intros _; split; [constructor|by intros ?%elem_of_nil]|].
  intros [Hz Hl]%NoDup_cons. destruct (IH Hl) as [IH1 IH2].
  case_decide as Hyz; [by subst|]. split.
  - apply NoDup_cons. split; [|done]. intros Hin. by apply remove1_elem_of in Hin.
  - rewrite elem_of_cons. intros [?|?]; done.
Qed.

Lemma awaiting_inv_init : awaiting_inv Worklets.init.
Proof. split; [constructor|]. by intros name ?%elem_of_nil. Qed.

Lemma worklets_step_awaiting h e :
  awaiting_inv h -> awaiting_inv (Worklets.step h e).
Proof.
  intros [Hnd Haw]. destruct e as [n src handler|n|n]; cbn [Worklets.step].
  - unfold awaiting_inv. setoid_rewrite graphOf_addWorklet.
    destruct (Worklets.graphOf n h) as [graph|] eqn:Hn.
    + assert (Worklets.awaiting (Worklets.addWorklet n src handler h) =
              Worklets.awaiting h) as ->.
      { unfold Worklets.addWorklet. unfold Worklets.graphOf in Hn.
        by rewrite Hn. }
      split; [done|]. intros name Hin.
      destruct (Haw name Hin) as (g & Hg & Hnode).
      case_decide as Hnn; [|by eauto].
      subst n. rewrite Hn in Hg. injection Hg as ->. by eauto.
    + assert (Worklets.awaiting (Worklets.addWorklet n src handler h) =
              Worklets.awaiting h ++ [n]) as ->.
      { unfold Worklets.addWorklet. unfold Worklets.graphOf in Hn.
        by rewrite Hn. }
      split.
      * apply NoDup_app. split; [done|]. split; [|apply NoDup_singleton].
        intros x Hx ->%list_elem_of_singleton.
        destruct (Haw n Hx) as (g & Hg & _). congruence.
      * intros name [Hin| ->%list_elem_of_singleton]%elem_of_app.
        -- destruct (Haw name Hin) as (g & Hg & Hnode).
           case_decide as Hnn; [congruence|by eauto].
        -- rewrite decide_True by done. by eauto.
  - case_decide as Hin; [|done].
    destruct (remove1_NoDup n _ Hnd) as [Hnd' Hnotin].
    unfold awaiting_inv. setoid_rewrite graphOf_resumed.
    cbn [Worklets.addWorklet_resumed Worklets.awaiting Worklets.created].
    change (Worklets.graphOf ?x (Worklets.mkHost (Worklets.registered h) _ _ _))
      with (Worklets.graphOf x h).
    split; [done|]. intros name Hname.
    case_decide as Hnn; [by subst|].
    apply Haw. by eapply remove1_elem_of.
  - destruct (remove1_NoDup n _ Hnd) as [Hnd' Hnotin].
    split; [done|]. cbn [Worklets.awaiting]. intros name Hname.
    change (Worklets.graphOf name (Worklets.mkHost (Worklets.registered h) _ _ _))
      with (Worklets.graphOf name h).
    apply Haw. by eapply remove1_elem_of.
Qed.

Lemma worklets_run_awaiting events h :
  awaiting_inv h -> awaiting_inv (Worklets.run h events).
Proof.
  revert h. induction events as [|e events IH]; intros h Hinv; [done|].
  apply IH. by apply worklets_step_awaiting.
Qed.

Lemma worklets_step_orphaned name h e :
  orphaned name h ->
  orphaned name (Worklets.step h e) /\
  Worklets.modules (Worklets.step h e) =
    Worklets.modules h ++
    match e with
    | Worklets.Call n src _ =>
        if decide (is_Some (Worklets.graphOf n h)) then [] else [(n, src)]
    | _ => []
    end /\
  (forall n src handler, e = Worklets.Call n src handler -> n = name ->
     Worklets.modules (Worklets.step h e) = Worklets.modules h).
Proof.
  intros [(graph & Hg & Hnode) Hnotin].
  destruct e as [n src handler|n|n]; cbn [Worklets.step].
  - assert (Worklets.awaiting (Worklets.addWorklet n src handler h) =
            Worklets.awaiting h ++
            (if decide (is_Some (Worklets.graphOf n h)) then [] else [n]) /\
            Worklets.modules (Worklets.addWorklet n src handler h) =
            Worklets.modules h ++
            (if decide (is_Some (Worklets.graphOf n h)) then []
             else [(n, src)])) as [Ha Hm].
    { unfold Worklets.addWorklet. unfold Worklets.graphOf.
      destruct (Worklets.registered h ≫= _) eqn:E; cbn.
      - rewrite decide_True by eauto. by rewrite !app_nil_r.
      - rewrite decide_False; [done|]. by intros [? ?]. }
    split; [|split; [done|]].
    + split.
      * rewrite graphOf_addWorklet.
        destruct (decide (n = name)) as [->|Hnn]; [|by exists graph].
        rewrite Hg. by eexists.
      * rewrite Ha. destruct (decide (is_Some (Worklets.graphOf n h)))
          as [Hsome|Hnone]; [by rewrite app_nil_r|].
        rewrite elem_of_app, list_elem_of_singleton. intros [?| ->]; [done|].
        apply Hnone. by eauto.
    + intros n0 src0 handler0 [= -> -> ->] ->. rewrite Hm.
      rewrite decide_True by eauto. by rewrite app_nil_r.
  - rewrite app_nil_r.
    case_decide as Hin; [|by repeat split; try done; exists graph].
    split; [|split; [done|by intros]]. split.
    + rewrite graphOf_resumed.
      change (Worklets.graphOf ?x (Worklets.mkHost (Worklets.registered h) _ _ _))
        with (Worklets.graphOf x h).
      destruct (decide (n = name)) as [->|Hnn]; [done|by exists graph].
    + cbn [Worklets.addWorklet_resumed Worklets.awaiting].
      intros Hname. by apply remove1_elem_of in Hname.
  - rewrite app_nil_r. split; [|split; [done|by intros]].
    split; [by exists graph|].
    cbn [Worklets.awaiting]. intros Hname. by apply remove1_elem_of in Hname.
Qed.

Lemma worklets_run_orphaned name events h :
  orphaned name h -> orphaned name (Worklets.run h events).
Proof.
  revert h. induction events as [|e events IH]; intros h Ho; [done|].
  apply IH. by apply worklets_step_orphaned.
Qed.

(** X21. Attaching a worklet loads it once per name.  After any sequence
    of [addWorklet] calls and settled module loads on a context (worklet
    names being ordinary keys, not properties every object inherits):
    at most one [addModule] request has been made per name, and one was
    made exactly for the names [addWorklet] was called with; the handlers
    registered under a name are all the handlers given for it, in call
    order, none lost; no more [AudioWorkletNode]s have been constructed
    than modules requested, and no node is stored under two names. *)
Theorem worklet_is_loaded_once_per_name (events : list Worklets.Event) :
  Forall (fun e => Worklets.plainName (Worklets.eventName e)) events ->
  let h := Worklets.run Worklets.init events in
  NoDup (Worklets.modules h).*1 /\
  (forall name,
     name ∈ (Worklets.modules h).*1 <->
     Worklets.handlersGiven name events <> []) /\
  (forall name,
     default [] (Worklets.handlers <$> Worklets.graphOf name h) =
     Worklets.handlersGiven name events) /\
  Worklets.created h <= length (Worklets.modules h) /\
  (forall name name' graph graph' worklet,
     Worklets.graphOf name h = Some graph ->
     Worklets.graphOf name' h = Some graph' ->
     Worklets.node graph = Some worklet ->
     Worklets.node graph' = Some worklet -> name = name').
Proof.
  intros _. cbv zeta.
  destruct (worklets_run_inv events _ worklets_inv_init)
    as (Hnd & Hdom & Hcount & Hne & Hnode).
  pose proof (fun name => worklets_run_handlers name events Worklets.init)
    as Hh.
  cbn in Hh. split; [done|]. split; [|split; [done|split; [lia|]]].
  - intros name. rewrite Hdom, <- Hh. split.
    + intros [g Hg]. rewrite Hg. cbn. by eapply Hne.
    + destruct (Worklets.graphOf name _); [by eauto|done].
  - intros name name' g g' w Hg Hg' Hw Hw'.
    destruct (Hnode name' g' w Hg' Hw') as [_ Huniq]. by eapply Huniq.
Qed.

Lemma worklet_is_loaded_once_per_name_witness :
  Forall (fun e => Worklets.plainName (Worklets.eventName e)) tapEvents /\
  default [] (Worklets.handlers <$>
                Worklets.graphOf "vumeter"
                  (Worklets.run Worklets.init tapEvents)) = [1; 2].
Proof.
  assert (Forall (fun e => Worklets.plainName (Worklets.eventName e))
            tapEvents) as Hplain.
  { repeat constructor; apply (bool_decide_unpack _); by vm_compute. }
  split; [exact Hplain|].
  generalize (worklet_is_loaded_once_per_name tapEvents Hplain).
  cbv zeta. intros (_ & _ & H & _). exact (H "vumeter").
Defined.

(** X22. A worklet whose module fails to load is never retried.  Once
    the [addModule] promise of a suspended call has been rejected, the
    name stays registered without a node whatever calls and settlements
    follow: later [addWorklet] calls for that name take the 'already
    exists' path, request no module and only append their handler to a
    graph that never gets a node. *)
Theorem failed_worklet_load_is_never_retried
    (before after : list Worklets.Event) (name : string) :
  let h0 := Worklets.run Worklets.init before in
  name ∈ Worklets.awaiting h0 ->
  let h1 := Worklets.step h0 (Worklets.Rejected name) in
  let h := Worklets.run h1 after in
  (exists graph,
     Worklets.graphOf name h = Some graph /\
     Worklets.node graph = None /\
     Worklets.handlers graph =
       Worklets.handlersGiven name (before ++ after)) /\
  (name ∉ Worklets.awaiting h) /\
  (forall src handler,
     Worklets.modules (Worklets.step h (Worklets.Call name src handler)) =
     Worklets.modules h).
Proof.
  cbv zeta. intros Hin.
  pose proof (worklets_run_awaiting before _ awaiting_inv_init) as [Hnd Haw].
  pose proof (worklets_run_handlers name before Worklets.init) as Hh0.
  set (h0 := Worklets.run Worklets.init before) in *.
  destruct (Haw name Hin) as (g0 & Hg0 & Hnode0).
  assert (orphaned name (Worklets.step h0 (Worklets.Rejected name))) as Ho1.
  { split; [by exists g0|]. cbn. by apply remove1_NoDup. }
  pose proof (worklets_run_handlers name after
                (Worklets.step h0 (Worklets.Rejected name))) as Hh.
  pose proof (worklets_run_orphaned name after _ Ho1) as Ho.
  set (h := Worklets.run _ after) in *.
  destruct (Ho) as [(g & Hg & Hnode) Hnotin].
  split; [|split; [done|]].
  - exists g. split; [done|]. split; [done|].
    rewrite Hg in Hh.
    change (Worklets.graphOf name (Worklets.step h0 (Worklets.Rejected name)))
      with (Worklets.graphOf name h0) in Hh.
    rewrite Hh0 in Hh. cbn in Hh. rewrite Hh.
    unfold Worklets.handlersGiven. by rewrite omap_app.
  - intros src handler.
    by eapply (worklets_step_orphaned name h (Worklets.Call name src handler)).
Qed.

Lemma failed_worklet_load_is_never_retried_witness :
  "vumeter" ∈ Worklets.awaiting
                (Worklets.run Worklets.init [Worklets.Call "vumeter" "" 1]) /\
  "vumeter" ∉ Worklets.awaiting
                (Worklets.run
                   (Worklets.step
                      (Worklets.run Worklets.init
                         [Worklets.Call "vumeter" "" 1])
                      (Worklets.Rejected "vumeter"))
                   [Worklets.Call "vumeter" "" 2;
                    Worklets.Resolved "vumeter"]).
Proof.
  assert ("vumeter" ∈ Worklets.awaiting
            (Worklets.run Worklets.init [Worklets.Call "vumeter" "" 1]))
    as Hin by (apply (bool_decide_unpack _); by vm_compute).
  split; [exact Hin|].
  apply (failed_worklet_load_is_never_retried
           [Worklets.Call "vumeter" "" 1]
           [Worklets.Call "vumeter" "" 2; Worklets.Resolved "vumeter"]
           "vumeter" Hin).
Defined.

(** * The tool store *)

Section ToolsFacts.
Context {Params Scheduling : Type}.
Variables (emptyObject : Params) (INTERRUPT : Scheduling).

Local Abbreviation Tool := (@Tools.FunctionCall Params Scheduling).

Lemma some_named_spec toolName (tools : list Tool) :
  Tools.some_named toolName tools = true <-> toolName ∈ Tools.names tools.
Proof.
  unfold Tools.some_named, Tools.names. induction tools as [|t tools IH]; cbn.
  - split; [done|by intros ?%elem_of_nil].
  - rewrite orb_true_iff, IH, elem_of_cons, String.eqb_eq. naive_solver.
Qed.

Lemma some_named_false toolName (tools : list Tool) :
  Tools.some_named toolName tools = false <-> toolName ∉ Tools.names tools.
Proof.
  rewrite <- some_named_spec. by destruct (Tools.some_named toolName tools).
Qed.

Lemma candidate_inj i j : Tools.candidate i = Tools.candidate j -> i = j.
Proof.
  assert (forall k, "new_function" <> "new_function_" +:+ pretty (S k)) as Hne.
  { intros k H.
    change "new_function" with ("new_function" +:+ "") in H at 1.
    change ("new_function_" +:+ pretty (S k))
      with ("new_function" +:+ ("_" +:+ pretty (S k))) in H.
    apply (inj (String.app "new_function")) in H. discriminate H. }
  destruct i as [|i], j as [|j]; cbv beta iota delta [Tools.candidate].
  - done.
  - intros H. by apply Hne in H.
  - intros H. symmetry in H. by apply Hne in H.
  - intros H. apply (inj (String.app "new_function_")) in H.
    by apply (inj pretty) in H.
Qed.

Lemma addToolLoop_spec fuel (tools : list Tool) k m :
  k <= m -> m < k + fuel ->
  (forall j, k <= j < m -> Tools.candidate j ∈ Tools.names tools) ->
  Tools.candidate m ∉ Tools.names tools ->
  Tools.addToolLoop fuel tools (Tools.candidate k) (S k) = Tools.candidate m.
Proof.
  revert k. induction fuel as [|fuel IH]; intros k Hkm Hfuel Htaken Hfree;
    [lia|].
  cbn [Tools.addToolLoop].
  destruct (Tools.some_named (Tools.candidate k) tools) eqn:Hsome.
  - apply some_named_spec in Hsome.
    assert (k <> m) as Hne by (intros ->; done).
    apply (IH (S k)); [lia|lia| |done].
    intros j Hj. apply Htaken. lia.
  - apply some_named_false in Hsome.
    destruct (decide (k = m)) as [->|Hne]; [done|].
    destruct Hsome. apply Htaken. lia.
Qed.

(** One of the first [length tools + 1] candidates is free, and so there
    is a first free one. *)
Lemma first_free_candidate (tools : list Tool) :
  exists m, m <= length tools /\
    (Tools.candidate m ∉ Tools.names tools) /\
    forall j, j < m -> Tools.candidate j ∈ Tools.names tools.
Proof.
  assert (forall n,
            (forall j, j < n -> Tools.candidate j ∈ Tools.names tools) \/
            exists m, m < n /\ (Tools.candidate m ∉ Tools.names tools) /\
              forall j, j < m -> Tools.candidate j ∈ Tools.names tools) as H.
  { induction n as [|n [IH|IH]].
    - left. lia.
    - destruct (decide (Tools.candidate n ∈ Tools.names tools)) as [Hin|Hout].
      + left. intros j Hj. destruct (decide (j = n)) as [->|]; [done|].
        apply IH. lia.
      + right. exists n. split; [lia|]. split; [done|]. exact IH.
    - right. destruct IH as (m & Hm & H1 & H2). exists m.
      split; [lia|done]. }
  destruct (H (S (length tools))) as [Hall|(m & Hm & H1 & H2)].
  - exfalso.
    assert (NoDup (Tools.candidate <$> seq 0 (S (length tools)))) as Hnd.
    { apply NoDup_fmap_2_strong; [|apply NoDup_seq].
      intros i j _ _. apply candidate_inj. }
    assert (Tools.candidate <$> seq 0 (S (length tools)) ⊆+
            Tools.names tools) as Hsub.
    { apply NoDup_submseteq; [done|].
      intros x (j & -> & Hj%elem_of_seq)%list_elem_of_fmap. apply Hall. lia. }
    apply submseteq_length in Hsub.
    rewrite length_fmap, length_seq in Hsub.
    unfold Tools.names in Hsub. rewrite length_map in Hsub. lia.
  - exists m. split; [lia|done].
Qed.

Lemma names_app (l1 l2 : list Tool) :
  Tools.names (l1 ++ l2) = Tools.names l1 ++ Tools.names l2.
Proof. apply map_app. Qed.

Lemma addTool_spec (tools : list Tool) :
  exists m,
    m <= length tools /\
    (Tools.candidate m ∉ Tools.names tools) /\
    (forall j, j < m -> Tools.candidate j ∈ Tools.names tools) /\
    (forall fuel, length tools < fuel ->
       Tools.addToolLoop fuel tools "new_function" 1 = Tools.candidate m) /\
    Tools.addTool emptyObject INTERRUPT tools =
      tools ++ [Tools.mkTool (Tools.candidate m) (Some "") (Some emptyObject)
                  true (Some INTERRUPT)].
Proof.
  destruct (first_free_candidate tools) as (m & Hm & Hfree & Htaken).
  assert (forall fuel, length tools < fuel ->
            Tools.addToolLoop fuel tools "new_function" 1 =
            Tools.candidate m) as Hloop.
  { intros fuel Hfuel. apply (addToolLoop_spec fuel tools 0 m); [lia|lia| |done].
    intros j Hj. apply Htaken. lia. }
  exists m. repeat split; try done.
  unfold Tools.addTool. by rewrite Hloop by lia.
Qed.

(** X23. [addTool] always terminates and appends exactly one tool: an
    enabled one with empty description, whose name is the first of
    new_function, new_function_1, new_function_2, ... that no tool of
    the list bears yet; the name search needs at most as many retries as
    there are tools. *)
Theorem addTool_picks_first_free_name (tools : list Tool) :
  exists m,
    m <= length tools /\
    Tools.addTool emptyObject INTERRUPT tools =
      tools ++ [Tools.mkTool (Tools.candidate m) (Some "") (Some emptyObject)
                  true (Some INTERRUPT)] /\
    (Tools.candidate m ∉ Tools.names tools) /\
    (forall j, j < m -> Tools.candidate j ∈ Tools.names tools) /\
    (forall fuel, length tools < fuel ->
       Tools.addToolLoop fuel tools "new_function" 1 = Tools.candidate m).
Proof.
  destruct (addTool_spec tools) as (m & H1 & H2 & H3 & H4 & H5).
  by exists m.
Qed.

Lemma names_toggleTool toolName (tools : list Tool) :
  Tools.names (Tools.toggleTool toolName tools) = Tools.names tools.
Proof.
  unfold Tools.names, Tools.toggleTool. rewrite map_map.
  apply map_ext. intros t. by destruct (String.eqb _ _).
Qed.

Lemma names_removeTool toolName (tools : list Tool) :
  Tools.names (Tools.removeTool toolName tools) =
  List.filter (fun n => negb (String.eqb n toolName)) (Tools.names tools).
Proof.
  unfold Tools.names, Tools.removeTool.
  induction tools as [|t tools IH]; cbn; [done|].
  destruct (String.eqb (Tools.name t) toolName); cbn; by rewrite IH.
Qed.

Lemma NoDup_list_filter {A} (f : A -> bool) (l : list A) :
  NoDup l -> NoDup (List.filter f l).
Proof.
  induction 1 as [|x l Hx Hl IH]; cbn; [constructor|].
  destruct (f x); [|done]. constructor; [|done].
  rewrite list_elem_of_In, filter_In, <- list_elem_of_In. tauto.
Qed.

Lemma names_updateTool oldName (updatedTool : Tool) (tools : list Tool) :
  Tools.names
    (map (fun tool =>
            if String.eqb (Tools.name tool) oldName then updatedTool else tool)
       tools) =
  map (fun n => if String.eqb n oldName then Tools.name updatedTool else n)
    (Tools.names tools).
Proof.
  unfold Tools.names. rewrite !map_map. apply map_ext. intros t.
  by destruct (String.eqb _ _).
Qed.

Lemma dispatch_NoDup (tools : list Tool) (a : Tools.Action) :
  NoDup (Tools.names tools) ->
  NoDup (Tools.names (Tools.dispatch emptyObject INTERRUPT tools a)).
Proof.
  intros Hnd. destruct a as [|toolName| |toolName|oldName updatedTool];
    cbn [Tools.dispatch].
  - done.
  - by rewrite names_toggleTool.
  - destruct (addTool_spec tools) as (m & _ & Hfree & _ & _ & ->).
    rewrite names_app. apply NoDup_app. split; [done|]. cbn.
    split; [|apply NoDup_singleton].
    intros x Hx ->%list_elem_of_singleton. done.
  - rewrite names_removeTool. by apply NoDup_list_filter.
  - unfold Tools.updateTool.
    destruct (String.eqb oldName (Tools.name updatedTool)) eqn:Heq;
      cbn [negb andb].
    + apply String.eqb_eq in Heq. subst oldName. rewrite names_updateTool.
      replace (map _ (Tools.names tools)) with (Tools.names tools); [done|].
      rewrite <- (map_id (Tools.names tools)) at 1. apply map_ext.
      intros n. destruct (String.eqb n _) eqn:E; [|done].
      by apply String.eqb_eq in E.
    + destruct (Tools.some_named (Tools.name updatedTool) tools) eqn:Hs;
        [done|].
      apply some_named_false in Hs. apply String.eqb_neq in Heq.
      rewrite names_updateTool.
      apply (NoDup_fmap_2_strong
               (fun n => if String.eqb n oldName
                         then Tools.name updatedTool else n)); [|done].
      intros x y Hx Hy.
      destruct (String.eqb x oldName) eqn:Ex, (String.eqb y oldName) eqn:Ey;
        rewrite ?String.eqb_eq in *; intros; subst; congruence.
Qed.

(** X24. Tool names stay unique: if no two tools of the store bear the
    same name, then none do after any sequence of store actions
    ([toggleTool], [addTool], [removeTool], [updateTool],
    [setTemplate]); in particular in every state reached from the
    initial, empty store. *)
Theorem tool_names_stay_unique (tools : list Tool)
    (actions : list Tools.Action) :
  NoDup (Tools.names tools) ->
  NoDup (Tools.names (Tools.run emptyObject INTERRUPT tools actions)) /\
  NoDup (Tools.names (Tools.run emptyObject INTERRUPT [] actions)).
Proof.
  assert (forall ts : list Tool, NoDup (Tools.names ts) ->
            NoDup (Tools.names (Tools.run emptyObject INTERRUPT ts actions)))
    as H.
  { induction actions as [|a actions IH]; intros ts Hnd; [done|].
    cbn. apply IH. by apply dispatch_NoDup. }
  intros Hnd. split; [by apply H|]. apply H. constructor.
Qed.

Lemma removeTool_absent toolName (tools : list Tool) :
  toolName ∉ Tools.names tools -> Tools.removeTool toolName tools = tools.
Proof.
  unfold Tools.names, Tools.removeTool.
  induction tools as [|t tools IH]; cbn; [done|].
  rewrite not_elem_of_cons. intros [Hne Hnotin].
  destruct (String.eqb (Tools.name t) toolName) eqn:E.
  - apply String.eqb_eq in E. congruence.
  - cbn. by rewrite IH.
Qed.

Lemma map_absent oldName (updatedTool : Tool) (tools : list Tool) :
  oldName ∉ Tools.names tools ->
  map (fun tool =>
         if String.eqb (Tools.name tool) oldName then updatedTool else tool)
    tools = tools.
Proof.
  unfold Tools.names. induction tools as [|t tools IH]; cbn; [done|].
  rewrite not_elem_of_cons. intros [Hne Hnotin].
  destruct (String.eqb (Tools.name t) oldName) eqn:E.
  - apply String.eqb_eq in E. congruence.
  - by rewrite IH.
Qed.

(** X25. Edits of the tool list.  Toggling a tool twice restores the
    list; [updateTool] never changes the number of tools, leaves the list
    untouched when the new name differs from the old one and is already
    borne by a tool (the rename is refused), and also when no tool bears
    the old name; [removeTool] leaves no tool with the given name and
    changes nothing when there was none. *)
Theorem tool_edits (tools : list Tool) (toolName oldName : string)
    (updatedTool : Tool) :
  Tools.toggleTool toolName (Tools.toggleTool toolName tools) = tools /\
  length (Tools.updateTool oldName updatedTool tools) = length tools /\
  (oldName <> Tools.name updatedTool ->
   Tools.name updatedTool ∈ Tools.names tools ->
   Tools.updateTool oldName updatedTool tools = tools) /\
  (oldName ∉ Tools.names tools ->
   Tools.updateTool oldName updatedTool tools = tools) /\
  (toolName ∉ Tools.names (Tools.removeTool toolName tools)) /\
  (toolName ∉ Tools.names tools ->
   Tools.removeTool toolName tools = tools).
Proof.
  split; [|split; [|split; [|split; [|split]]]].
  - unfold Tools.toggleTool. rewrite map_map.
    rewrite <- (map_id tools) at 2. apply map_ext. intros [n d p e s]. cbn.
    destruct (String.eqb n toolName) eqn:E; cbn; rewrite E; [|done].
    by rewrite negb_involutive.
  - unfold Tools.updateTool. destruct (_ && _); [done|]. apply length_map.
  - intros Hne Hin. unfold Tools.updateTool.
    apply String.eqb_neq in Hne. apply some_named_spec in Hin.
    by rewrite Hne, Hin.
  - intros Hnotin. unfold Tools.updateTool. destruct (_ && _); [done|].
    by apply map_absent.
  - rewrite names_removeTool, list_elem_of_In, filter_In.
    intros [_ H]. apply negb_true_iff in H. by rewrite String.eqb_refl in H.
  - apply removeTool_absent.
Qed.

End ToolsFacts.

Lemma tool_names_stay_unique_witness :
  NoDup
    (Tools.names
       (Tools.run tt tt
          [Tools.mkTool "new_function" None None false None]
          [Tools.AddTool; Tools.ToggleTool "new_function_1";
           Tools.UpdateTool "new_function_1"
             (Tools.mkTool "new_function" None None true None);
           Tools.RemoveTool "new_function"; Tools.AddTool])).
Proof.
  refine (proj1 (tool_names_stay_unique (Params := unit) (Scheduling := unit)
                   tt tt _ _ _)).
  repeat constructor. by intros ?%elem_of_nil.
Defined.

Lemma tool_edits_witness :
  Tools.updateTool (Params := unit) (Scheduling := unit) "b"
    (Tools.mkTool "a" None None true None)
    [Tools.mkTool "a" None None false None;
     Tools.mkTool "b" None None false None] =
  [Tools.mkTool "a" None None false None;
   Tools.mkTool "b" None None false None].
Proof.
  refine (proj1 (proj2 (proj2
    (tool_edits (Params := unit) (Scheduling := unit) _ "" "b" _))) _ _).
  - discriminate.
  - apply (bool_decide_unpack _). by vm_compute.
Defined.

(** * The conversation log *)

Lemma append_nil_r (s : string) : s +:+ "" = s.
Proof.
  induction s as [|a s IH]; [done|].
  change (String a (s +:+ "") = String a s). by rewrite IH.
Qed.

Lemma append_assoc (a b c : string) : (a +:+ b) +:+ c = a +:+ (b +:+ c).
Proof.
  induction a as [|x a IH]; [done|].
  change (String x ((a +:+ b) +:+ c) = String x (a +:+ (b +:+ c))).
  by rewrite IH.
Qed.

Section LogFacts.
Context {Date ToolCall ToolResponse GroundingChunk : Type}.

Local Abbreviation Turn :=
  (@Log.ConversationTurn Date ToolCall ToolResponse GroundingChunk).
Local Abbreviation LogEvent := (@Log.Event Date GroundingChunk).

Lemma said_app who (a b : list Turn) :
  Log.said who (a ++ b) = Log.said who a +:+ Log.said who b.
Proof.
  unfold Log.said. rewrite List.filter_app, map_app.
  induction (map Log.text (List.filter _ a)) as [|x l IH]; cbn; [done|].
  by rewrite IH, append_assoc.
Qed.

Lemma said_snoc who (init : list Turn) (t : Turn) :
  Log.said who (init ++ [t]) =
  Log.said who init +:+
  (if Log.Role_eqb (Log.role t) who then Log.text t else "").
Proof.
  rewrite said_app. f_equal. unfold Log.said. cbn.
  destruct (Log.Role_eqb _ _); cbn; [apply append_nil_r|done].
Qed.

Lemma updateLastTurn_snoc update (init : list Turn) (t : Turn) :
  Log.updateLastTurn update (init ++ [t]) = init ++ [Log.merge t update].
Proof.
  unfold Log.updateLastTurn. rewrite last_snoc, length_app. cbn [length].
  replace (length init + 1 - 1) with (length init + 0) by lia.
  by rewrite insert_app_r.
Qed.

Lemma addTurn_said who now (turn : Turn) (turns : list Turn) :
  Log.said who (Log.addTurn now turn turns) =
  Log.said who turns +:+
  (if Log.Role_eqb (Log.role turn) who then Log.text turn else "").
Proof. unfold Log.addTurn. by rewrite said_snoc. Qed.

Lemma Role_eqb_eq a b : Log.Role_eqb a b = true <-> a = b.
Proof. destruct a, b; cbn; split; congruence. Qed.

Lemma Role_eqb_sym a b : Log.Role_eqb a b = Log.Role_eqb b a.
Proof. by destruct a, b. Qed.

Lemma handleTranscription_said who speaker fragment final now
    (turns : list Turn) :
  Log.said who (Log.handleTranscription speaker fragment final now turns) =
  Log.said who turns +:+
  (if Log.Role_eqb who speaker then fragment else "").
Proof.
  unfold Log.handleTranscription.
  destruct turns as [|t0 turns0 _] using rev_ind.
  - cbn [last]. rewrite addTurn_said. cbn. by rewrite Role_eqb_sym.
  - rewrite last_snoc.
    destruct (Log.Role_eqb (Log.role t0) speaker) eqn:Hrole; cbn [andb];
      [destruct (Log.isFinal t0); cbn [negb]|];
      try (rewrite addTurn_said; cbn; by rewrite Role_eqb_sym).
    rewrite updateLastTurn_snoc, !said_snoc. cbn.
    apply Role_eqb_eq in Hrole. rewrite Hrole, append_assoc.
    rewrite (Role_eqb_sym who speaker).
    by destruct (Log.Role_eqb speaker who).
Qed.

Lemma handle_said who (turns : list Turn) (e : LogEvent) :
  Log.said who (Log.handle turns e) =
  Log.said who turns +:+ Log.heard who e.
Proof.
  destruct e as [fragment final now|fragment final now|parts chunks now|];
    cbn [Log.handle Log.heard].
  - apply handleTranscription_said.
  - apply handleTranscription_said.
  - unfold Log.handleContent. cbv zeta.
    destruct (String.eqb (Log.contentText parts) "") eqn:Hempty.
    + apply String.eqb_eq in Hempty. rewrite Hempty.
      assert (forall x : string,
                x = x +:+ (if Log.Role_eqb who Log.agent then "" else ""))
        as Hsame.
      { intros x. destruct (Log.Role_eqb who Log.agent);
          by rewrite append_nil_r. }
      destruct chunks as [cs|]; cbn [andb]; [|apply Hsame].
      destruct turns as [|t0 turns0 _] using rev_ind.
      * cbn [last]. rewrite addTurn_said. cbn. by rewrite Role_eqb_sym.
      * rewrite last_snoc.
        destruct (Log.Role_eqb (Log.role t0) Log.agent) eqn:Hrole;
          cbn [andb]; [destruct (Log.isFinal t0); cbn [negb]|];
          try (rewrite addTurn_said; cbn; by rewrite Role_eqb_sym).
        rewrite updateLastTurn_snoc, !said_snoc. cbn.
        rewrite append_nil_r. apply Hsame.
    + cbn [andb].
      destruct turns as [|t0 turns0 _] using rev_ind.
      * cbn [last]. rewrite addTurn_said. cbn. by rewrite Role_eqb_sym.
      * rewrite last_snoc.
        destruct (Log.Role_eqb (Log.role t0) Log.agent) eqn:Hrole;
          cbn [andb]; [destruct (Log.isFinal t0); cbn [negb]|];
          try (rewrite addTurn_said; cbn; by rewrite Role_eqb_sym).
        rewrite updateLastTurn_snoc, !said_snoc. cbn.
        apply Role_eqb_eq in Hrole. rewrite Hrole, append_assoc.
        rewrite (Role_eqb_sym who Log.agent).
        by destruct (Log.Role_eqb Log.agent who).
  - rewrite append_nil_r. unfold Log.handleTurnComplete.
    destruct turns as [|t0 turns0 _] using rev_ind; [done|].
    rewrite last_snoc. destruct (Log.isFinal t0); cbn [negb]; [done|].
    by rewrite updateLastTurn_snoc, !said_snoc.
Qed.

(** X26. The console loses and duplicates no transcript text.  After any
    sequence of input-transcription, output-transcription, content and
    turn-complete events, starting from any log, the texts of the user
    turns, one after the other, are what they were followed by all the
    input fragments in order of arrival, and the texts of the agent turns
    are what they were followed by all the output fragments and content
    texts; the system turns are untouched. *)
Theorem transcript_is_conserved (turns : list Turn)
    (events : list LogEvent) (who : Log.Role) :
  Log.said who (Log.run turns events) =
  Log.said who turns +:+
  fold_right String.append "" (map (Log.heard who) events).
Proof.
  revert turns. induction events as [|e events IH]; intros turns.
  - cbn. by rewrite append_nil_r.
  - cbn [Log.run fold_left map fold_right].
    change (fold_left Log.handle events (Log.handle turns e))
      with (Log.run (Log.handle turns e) events).
    by rewrite IH, handle_said, append_assoc.
Qed.

Lemma handle_settled (turns : list Turn) (e : LogEvent) i t :
  turns !! i = Some t ->
  S i < length turns \/ Log.isFinal t = true ->
  Log.handle turns e !! i = Some t /\
  length turns <= length (Log.handle turns e).
Proof.
  intros Hi Hsettled.
  assert (forall now turn,
            Log.addTurn now turn turns !! i = Some t /\
            length turns <= length (Log.addTurn now turn turns)) as Hadd.
  { intros now turn. unfold Log.addTurn. rewrite length_app. split; [|lia].
    by apply lookup_app_l_Some. }
  assert (forall update init t0,
            turns = init ++ [t0] -> Log.isFinal t0 = false ->
            Log.updateLastTurn update turns !! i = Some t /\
            length turns <= length (Log.updateLastTurn update turns))
    as Hupd.
  { intros update init t0 -> Hopen. rewrite updateLastTurn_snoc.
    rewrite !length_app in *. cbn [length] in *. split; [|lia].
    destruct (decide (i < length init)) as [Hlt|Hge].
    - rewrite lookup_app_l in Hi |- * by done. done.
    - apply lookup_lt_Some in Hi as Hlen. rewrite length_app in Hlen.
      cbn in Hlen. assert (i = length init) as -> by lia.
      rewrite list_lookup_middle in Hi by done. injection Hi as ->.
      destruct Hsettled as [?|Hfinal]; [lia|congruence]. }
  assert (forall speaker fragment final now,
            Log.handleTranscription speaker fragment final now turns !! i =
              Some t /\
            length turns <=
              length (Log.handleTranscription speaker fragment final now
                        turns)) as Htr.
  { intros speaker fragment final now. unfold Log.handleTranscription.
    destruct turns as [|t0 turns0 _] using rev_ind; [done|].
    rewrite last_snoc.
    destruct (Log.Role_eqb (Log.role t0) speaker); cbn [andb];
      [|apply Hadd].
    destruct (Log.isFinal t0) eqn:Hf; cbn [negb]; [apply Hadd|].
    by eapply Hupd. }
  destruct e as [fragment final now|fragment final now|parts chunks now|];
    cbn [Log.handle].
  - apply Htr.
  - apply Htr.
  - unfold Log.handleContent. cbv zeta.
    destruct (_ && _); [done|].
    destruct turns as [|t0 turns0 _] using rev_ind; [done|].
    rewrite last_snoc.
    destruct (Log.Role_eqb (Log.role t0) Log.agent); cbn [andb];
      [|apply Hadd].
    destruct (Log.isFinal t0) eqn:Hf; cbn [negb]; [apply Hadd|].
    by eapply Hupd.
  - unfold Log.handleTurnComplete.
    destruct turns as [|t0 turns0 _] using rev_ind; [done|].
    rewrite last_snoc.
    destruct (Log.isFinal t0) eqn:Hf; cbn [negb]; [done|].
    by eapply Hupd.
Qed.

(** X27. Settled turns never change.  A turn of the log that is marked
    final, or that is not the last turn, is left exactly as it is, at the
    same position, by every later transcription, content and
    turn-complete event: the handlers only append turns or extend the last
    turn while it is not final. *)
Theorem settled_turns_never_change (turns : list Turn)
    (events : list LogEvent) (i : nat) (t : Turn) :
  turns !! i = Some t ->
  S i < length turns \/ Log.isFinal t = true ->
  Log.run turns events !! i = Some t /\
  length turns <= length (Log.run turns events).
Proof.
  revert turns. induction events as [|e events IH]; intros turns Hi Hs;
    [done|].
  destruct (handle_settled turns e i t Hi Hs) as [Hi' Hlen].
  cbn [Log.run fold_left].
  change (fold_left Log.handle events (Log.handle turns e))
    with (Log.run (Log.handle turns e) events).
  destruct (IH (Log.handle turns e) Hi') as [H1 H2].
  - destruct Hs as [Hlt|Hf]; [left; lia|by right].
  - split; [done|lia].
Qed.

End LogFacts.

Lemma settled_turns_never_change_witness :
  Log.run (Date := nat) (ToolCall := unit) (ToolResponse := unit)
    (GroundingChunk := unit)
    [Log.mkTurn 0 Log.user "hello" true None None None]
    [Log.InputTranscription " world" false 1; Log.TurnComplete] !! 0 =
  Some (Log.mkTurn 0 Log.user "hello" true None None None).
Proof.
  refine (proj1 (settled_turns_never_change _ _ 0 _ _ _)).
  - reflexivity.
  - by right.
Defined.
